(** * The linguistics engine of [shared/linguistics.ts]

    A shallow embedding of the slang dictionary, of the [LinguisticsEngine]
    class (constructor, [addDynamicTerm], [loadDynamicTerms], [translate])
    and of the part of the JavaScript runtime the class relies on: strings
    as sequences of UTF-16 code units, [RegExp] objects built with the
    flags ['gi'] together with their mutable [lastIndex], the insertion
    ordered [Map], [Array.prototype.sort] and IEEE binary64 numbers.

    With it come [getRandomTerm], the functions [findSlangTerm] and
    [lookupUrbanDictionary] of the slang discovery service and the choice of
    a provider. *)

From Stdlib Require Import String Ascii ZArith List Bool Lia Sorted Floats.
From Stdlib Require Import Permutation.
Import ListNotations.

Set Implicit Arguments.

(** ** JavaScript strings *)

(** A JavaScript string is a finite sequence of UTF-16 code units. *)
Definition JSString := list Z.

(** The code units of a string literal of the source (all of them ASCII). *)
Definition codes (s : string) : JSString :=
  map (fun a => Z.of_nat (nat_of_ascii a)) (list_ascii_of_string s).

(** [===] on strings. *)
Fixpoint str_eqb (a b : JSString) : bool :=
  match a, b with
  | [], [] => true
  | x :: a', y :: b' => Z.eqb x y && str_eqb a' b'
  | _, _ => false
  end.

(** The code units below 128, where the case tables are those of ASCII. *)
Definition isAscii (c : Z) : bool := Z.ltb c 128.

(** Upper and lower case of an ASCII code unit. *)
Definition asciiUpper (c : Z) : Z :=
  if Z.leb 97 c && Z.leb c 122 then (c - 32)%Z else c.

Definition asciiLower (c : Z) : Z :=
  if Z.leb 65 c && Z.leb c 90 then (c + 32)%Z else c.

(** The basic word characters of [\b]: [A-Z], [a-z], [0-9] and [_].  Without
    the [u] flag the [i] flag adds no further character to the set. *)
Definition isWordChar (c : Z) : bool :=
  (Z.leb 48 c && Z.leb c 57) || (Z.leb 65 c && Z.leb c 90)
  || (Z.leb 97 c && Z.leb c 122) || Z.eqb c 95.

(** The characters of the class [[.*+?^${}()|[\]\\]] that both construction
    sites escape; they are exactly the syntax characters of a pattern. *)
Definition isSyntaxChar (c : Z) : bool :=
  existsb (Z.eqb c) [46; 42; 43; 63; 94; 36; 123; 125; 40; 41; 124; 91; 93; 92]%Z.

(** [s.replace(/[.*+?^${}()|[\]\\]/g, '\\$&')]: every syntax character is
    replaced by a backslash followed by itself. *)
Definition escapeRegExp (s : JSString) : JSString :=
  flat_map (fun c => if isSyntaxChar c then [92%Z; c] else [c]) s.

(** The template literal [`\\b${escaped}\\b`]. *)
Definition wordPattern (escaped : JSString) : JSString :=
  [92; 98]%Z ++ escaped ++ [92; 98]%Z.

(** ** Regular expressions *)

(** The compiled form of a pattern: a sequence of terms, each the assertion
    [\b] or one literal character. *)
Inductive Node : Type :=
  | WordBoundary
  | Char (c : Z).

(** [new RegExp(source, 'gi')], for the patterns made of [\b], of identity
    escapes of syntax characters and of plain pattern characters.  [None] is
    the [SyntaxError] of the constructor (a lone backslash at the end) and
    also any construct outside this fragment; [parsePattern_wordPattern]
    below shows that the engine never builds such a source. *)
Fixpoint parsePattern (src : JSString) : option (list Node) :=
  match src with
  | [] => Some []
  | c :: rest =>
      if Z.eqb c 92 then
        match rest with
        | [] => None
        | d :: rest' =>
            if Z.eqb d 98 then option_map (cons WordBoundary) (parsePattern rest')
            else if isSyntaxChar d then option_map (cons (Char d)) (parsePattern rest')
            else None
        end
      else if isSyntaxChar c then None
      else option_map (cons (Char c)) (parsePattern rest)
  end.

(** A [RegExp] object with the flags [gi]: its compiled pattern and the
    mutable [lastIndex] that [test] reads and writes. *)
Record RegExp : Type := mkRegExp {
  program : list Node;
  lastIndex : nat
}.

(** A new regular expression starts with [lastIndex] at [0]. *)
Definition newRegExp (src : JSString) : option RegExp :=
  option_map (fun p => mkRegExp p 0) (parsePattern src).

(** The assignment [regex.lastIndex = i]. *)
Definition setLastIndex (r : RegExp) (i : nat) : RegExp :=
  mkRegExp (program r) i.

(** [IsWordChar(e)] of the specification of [\b]: false outside the input. *)
Definition isWordAt (c : option Z) : bool :=
  match c with
  | Some x => isWordChar x
  | None => false
  end.

(** The code unit before position [i], if any. *)
Definition charBefore (input : JSString) (i : nat) : option Z :=
  match i with
  | O => None
  | S j => nth_error input j
  end.

(** ** Numbers *)

(** The literals [0.7] and [0.05]: the binary64 numbers nearest to them. *)
Definition num_0_7 : float := 0x1.6666666666666p-1%float.
Definition num_0_05 : float := 0x1.999999999999ap-5%float.

(** [Math.min] on two numbers. *)
Definition Math_min (a b : float) : float :=
  if PrimFloat.is_nan a || PrimFloat.is_nan b then PrimFloat.nan
  else if PrimFloat.ltb b a then b
  else if PrimFloat.ltb a b then a
  else if PrimFloat.is_zero a && PrimFloat.get_sign b then b
  else a.

(** The number that is a natural number: the binary64 number nearest to
    it. *)
Definition numberOfNat (n : nat) : float :=
  SF2Prim (binary_normalize prec emax (Z.of_nat n) 0 false).

(** The number that is the length of an array. *)
Definition lengthNumber (A : Type) (l : list A) : float := numberOfNat (length l).

(** [Math.min(1, 0.7 + n * 0.05)] *)
Definition confidenceOf (n : nat) : float :=
  Math_min 1%float (num_0_7 + numberOfNat n * num_0_05)%float.

(** The number of bits of a positive number. *)
Definition bitLength (m : positive) : Z := Zpos (digits2_pos m).

(** ** The data model *)

(** A category is a string: one of the eleven names of the dictionary for a
    static term, any string for a term loaded through [loadDynamicTerms]. *)
Definition LinguisticCategory := JSString.

(** An entry of the result. *)
Record LinguisticTerm : Type := mkTerm {
  lt_term : JSString;
  lt_meaning : JSString;
  lt_category : LinguisticCategory
}.

(** The result of [translate]. *)
Record TranslationResult : Type := mkResult {
  original : JSString;
  terms : list LinguisticTerm;
  confidence : float;
  translatedText : JSString
}.

(** A term with its regular expression, a mutable object. *)
Record CompiledPattern : Type := mkPattern {
  regex : RegExp;
  term : JSString;
  meaning : JSString;
  category : LinguisticCategory
}.

(** The engine: the sorted list of static patterns and the [Map] of the
    dynamic ones, in insertion order, keyed by the lower-cased term. *)
Record LinguisticsEngine : Type := mkEngine {
  patterns : list CompiledPattern;
  dynamicPatterns : list (JSString * CompiledPattern)
}.

(** ** The dictionary *)

Local Open Scope string_scope.

Definition GEN_Z_terms : list (string * string) :=
  [("slay", "excel exceptionally"); ("ate", "nailed it"); ("period", "emphatic agreement");
   ("periodt", "emphatic agreement"); ("no cap", "honestly"); ("cap", "lie");
   ("bussin", "extremely good"); ("mid", "mediocre"); ("sus", "suspicious");
   ("bet", "confirmed"); ("vibe", "atmosphere"); ("vibing", "relaxing");
   ("lowkey", "secretly"); ("highkey", "obviously"); ("deadass", "seriously");
   ("fr fr", "legitimately"); ("fr", "legit"); ("ngl", "truthfully");
   ("iykyk", "insider knowledge"); ("ong", "sworn truth"); ("snatched", "perfect");
   ("fire", "excellent"); ("lit", "exciting"); ("goat", "greatest"); ("goated", "greatest");
   ("valid", "acceptable"); ("hits different", "unique impact");
   ("rent free", "obsessive thought"); ("understood the assignment", "executed perfectly");
   ("main character", "protagonist energy"); ("npc", "irrelevant person");
   ("simp", "sycophant"); ("stan", "superfan"); ("ratio", "outperformed"); ("L", "failure");
   ("W", "success"); ("big W", "major success"); ("big L", "major failure");
   ("based", "courageous"); ("cringe", "embarrassing"); ("cheugy", "dated");
   ("slaps", "excellent"); ("banger", "hit"); ("sending me", "hilarious");
   ("im dead", "hilarious"); ("its giving", "reminiscent of");
   ("caught in 4k", "undeniable proof"); ("receipts", "evidence"); ("tea", "gossip")].

Definition AAVE_terms : list (string * string) :=
  [("finna", "preparing to"); ("gonna", "going to"); ("tryna", "attempting to");
   ("boutta", "about to"); ("ion", "I do not"); ("aint", "is not"); ("fam", "team");
   ("bruh", "friend"); ("sis", "friend"); ("cuz", "friend"); ("dawg", "friend");
   ("homie", "friend"); ("squad", "team"); ("crew", "team"); ("whip", "vehicle");
   ("crib", "residence"); ("drip", "style"); ("drippin", "stylish"); ("swag", "style");
   ("fresh", "new"); ("fly", "stylish"); ("dope", "excellent"); ("tight", "cool");
   ("woke", "aware"); ("trippin", "irrational"); ("wildin", "out of control");
   ("buggin", "wrong"); ("flexin", "boasting"); ("flex", "boast"); ("frontin", "pretending");
   ("on god", "truthfully"); ("word", "agreed"); ("facts", "correct");
   ("straight up", "honestly"); ("real talk", "seriously"); ("keep it real", "be authentic");
   ("keep it 100", "be authentic"); ("fo sho", "certainly"); ("fasho", "certainly");
   ("aight", "ok"); ("yeet", "discard"); ("salty", "bitter"); ("shook", "shocked");
   ("pressed", "upset"); ("heated", "angry"); ("geeked", "excited"); ("hype", "excited");
   ("turnt", "energized"); ("bougie", "high-class"); ("ratchet", "unrefined");
   ("basic", "generic"); ("extra", "dramatic")].

Definition TECH_terms : list (string * string) :=
  [("ship it", "deploy"); ("push to prod", "deploy"); ("yolo deploy", "risky deploy");
   ("hotfix", "patch"); ("nuke it", "reset"); ("refactor", "restructure");
   ("spaghetti code", "messy code"); ("tech debt", "maintenance cost");
   ("legacy code", "old system"); ("greenfield", "new project");
   ("brownfield", "existing project"); ("yak shaving", "distraction");
   ("bikeshedding", "trivial debate"); ("rubber duck", "debug");
   ("dogfooding", "internal testing"); ("scope creep", "expansion"); ("mvp", "prototype");
   ("poc", "proof of concept"); ("standup", "daily meeting"); ("retro", "review");
   ("sprint", "cycle"); ("backlog", "queue"); ("blocker", "impediment"); ("ping", "notify");
   ("sync", "align"); ("async", "offline"); ("circle back", "revisit");
   ("deep dive", "investigate"); ("bandwidth", "capacity"); ("runway", "budget");
   ("north star", "primary goal"); ("low hanging fruit", "easy tasks");
   ("moonshot", "ambitious goal"); ("10x", "high performance"); ("ninja", "expert");
   ("rockstar", "expert"); ("unicorn", "rare asset"); ("full stack", "complete system");
   ("api", "interface"); ("crud", "data operations");
   ("microservices", "modular architecture"); ("monolith", "single system");
   ("spin up", "initialize"); ("scale", "grow"); ("ci cd", "automation");
   ("devops", "operations")].

Definition STARTUP_terms : list (string * string) :=
  [("disrupt", "transform"); ("pivot", "change strategy"); ("hockey stick", "rapid growth");
   ("bootstrapped", "self-funded"); ("vc", "investor"); ("series a", "funding round");
   ("seed", "initial funding"); ("angel", "investor"); ("exit", "acquisition");
   ("ipo", "public offering"); ("acquisition", "purchase"); ("burn", "spend rate");
   ("cap table", "ownership"); ("valuation", "worth"); ("moat", "defense");
   ("product market fit", "viability"); ("pmf", "viability"); ("tam", "market size");
   ("b2b", "business sales"); ("b2c", "consumer sales"); ("saas", "software service");
   ("arr", "annual revenue"); ("mrr", "monthly revenue"); ("ltv", "lifetime value");
   ("cac", "acquisition cost"); ("churn", "attrition"); ("retention", "loyalty");
   ("viral loop", "growth cycle"); ("growth hack", "strategy"); ("lean", "efficient");
   ("agile", "flexible"); ("iterate", "improve"); ("fail fast", "learn")].

Definition DESIGN_terms : list (string * string) :=
  [("wireframe", "layout"); ("mockup", "preview"); ("prototype", "demo");
   ("high fidelity", "detailed"); ("low fidelity", "rough"); ("pixel perfect", "precise");
   ("responsive", "adaptive"); ("mobile first", "mobile-optimized");
   ("above the fold", "visible area"); ("hero", "banner"); ("cta", "button");
   ("hamburger", "menu icon"); ("breadcrumb", "path"); ("carousel", "slider");
   ("modal", "overlay"); ("toast", "notification"); ("skeleton", "placeholder");
   ("lazy load", "deferred loading"); ("whitespace", "spacing");
   ("visual hierarchy", "structure"); ("user flow", "path");
   ("happy path", "ideal scenario"); ("edge case", "rare scenario");
   ("accessibility", "usability"); ("a11y", "usability"); ("hover state", "interaction");
   ("loading state", "waiting"); ("error state", "failure"); ("empty state", "blank");
   ("onboarding", "tutorial"); ("tooltip", "hint"); ("dropdown", "menu");
   ("debounce", "delay")].

Definition SOUTHERN_terms : list (string * string) :=
  [("yall", "everyone"); ("fixin to", "preparing to"); ("might could", "possibly can");
   ("over yonder", "there"); ("reckon", "suppose"); ("cattywampus", "askew");
   ("mash", "press"); ("cut on", "activate"); ("cut off", "deactivate"); ("buggy", "cart");
   ("coke", "soda"); ("supper", "dinner"); ("hankering", "craving");
   ("tuckered out", "tired"); ("plumb", "completely"); ("right smart", "significant");
   ("bless your heart", "sympathy"); ("hold your horses", "wait");
   ("happy as a clam", "joyful"); ("madder than a wet hen", "furious");
   ("slower than molasses", "slow"); ("fit to be tied", "angry");
   ("come hell or high water", "determined")].

Definition UK_terms : list (string * string) :=
  [("brilliant", "excellent"); ("bloody", "very"); ("blimey", "wow");
   ("bollocks", "nonsense"); ("rubbish", "garbage"); ("dodgy", "unreliable");
   ("cheeky", "playful"); ("cheers", "thanks"); ("mate", "friend"); ("bloke", "man");
   ("lad", "boy"); ("lass", "girl"); ("knackered", "tired"); ("gutted", "disappointed");
   ("chuffed", "happy"); ("gobsmacked", "shocked"); ("miffed", "annoyed");
   ("skint", "broke"); ("quid", "pound"); ("tenner", "ten pounds"); ("fiver", "five pounds");
   ("fortnight", "two weeks"); ("queue", "line"); ("loo", "restroom"); ("lift", "elevator");
   ("flat", "apartment"); ("sorted", "resolved"); ("spot on", "accurate")].

Definition HIPHOP_terms : list (string * string) :=
  [("bars", "lyrics"); ("flow", "rhythm"); ("beat", "instrumental"); ("drop", "release");
   ("bop", "song"); ("goes hard", "intense"); ("heat", "quality"); ("certified", "verified");
   ("platinum", "successful"); ("underground", "indie"); ("collab", "collaboration");
   ("feature", "guest"); ("remix", "revision"); ("sample", "excerpt"); ("hook", "chorus");
   ("verse", "stanza"); ("chorus", "refrain"); ("producer", "composer"); ("dj", "selector");
   ("mc", "lyricist"); ("cypher", "freestyle"); ("freestyle", "improv");
   ("pen game", "writing"); ("wordplay", "wit"); ("punchline", "climax"); ("trap", "genre");
   ("drill", "genre"); ("boom bap", "genre"); ("lo-fi", "aesthetic")].

Definition GAMING_terms : list (string * string) :=
  [("gg", "good game"); ("ggez", "easy win"); ("wp", "well played"); ("glhf", "good luck");
   ("nerf", "weaken"); ("buff", "strengthen"); ("meta", "strategy"); ("op", "powerful");
   ("broken", "unbalanced"); ("noob", "beginner"); ("pro", "expert");
   ("tryhard", "competitive"); ("sweaty", "intense"); ("grind", "work"); ("farm", "gather");
   ("spawn", "appear"); ("respawn", "reappear"); ("frag", "eliminate"); ("clutch", "save");
   ("throw", "fail"); ("carry", "support"); ("feed", "fail repeatedly"); ("camp", "wait");
   ("gank", "ambush"); ("tank", "defender"); ("dps", "attacker"); ("healer", "support");
   ("cooldown", "wait time"); ("ult", "ultimate"); ("combo", "sequence");
   ("cheese", "exploit"); ("strat", "plan"); ("ping", "latency"); ("lag", "delay");
   ("fps", "framerate")].

Definition HISPANIC_terms : list (string * string) :=
  [("no mames", "impossible"); ("orale", "ok"); ("andale", "hurry"); ("hijole", "wow");
   ("chido", "cool"); ("padre", "cool"); ("neta", "truth"); ("la neta", "truth");
   ("que onda", "hello"); ("no manches", "impossible"); ("guey", "friend");
   ("ese", "friend"); ("vato", "guy"); ("carnal", "brother"); ("compa", "friend");
   ("firme", "solid"); ("suave", "smooth"); ("loco", "crazy"); ("feria", "money");
   ("lana", "money"); ("troca", "truck"); ("ranfla", "car"); ("jale", "job");
   ("chamba", "work"); ("pachanga", "party"); ("mija", "dear"); ("mijo", "dear");
   ("familia", "family")].

Definition EMOTIONAL_terms : list (string * string) :=
  [("shook", "shocked"); ("triggered", "upset"); ("salty", "bitter");
   ("pressed", "stressed"); ("heated", "angry"); ("gagged", "stunned");
   ("slayed", "impressed"); ("deceased", "laughing"); ("dead", "laughing");
   ("obsessed", "fixated"); ("living", "enjoying"); ("thriving", "prospering");
   ("struggling", "failing"); ("big mood", "relatable"); ("mood", "relatable");
   ("same", "agreed"); ("felt that", "empathized"); ("i cant", "overwhelmed");
   ("im weak", "laughing"); ("im done", "finished"); ("over it", "moved on");
   ("unbothered", "calm"); ("blessed", "grateful"); ("stressed", "anxious");
   ("hyped", "excited"); ("stoked", "excited")].

Definition LINGUISTICS : list (string * list (string * string)) :=
  [("GEN_Z", GEN_Z_terms);
   ("AAVE", AAVE_terms);
   ("TECH", TECH_terms);
   ("STARTUP", STARTUP_terms);
   ("DESIGN", DESIGN_terms);
   ("SOUTHERN", SOUTHERN_terms);
   ("UK", UK_terms);
   ("HIPHOP", HIPHOP_terms);
   ("GAMING", GAMING_terms);
   ("HISPANIC", HISPANIC_terms);
   ("EMOTIONAL", EMOTIONAL_terms)].

Local Close Scope string_scope.

(** [Object.entries] of the dictionary and of each of its categories, in
    property order: one triple (slang, meaning, category) per entry. *)
Definition dbEntries : list (JSString * JSString * LinguisticCategory) :=
  flat_map
    (fun ct : string * list (string * string) =>
       map (fun sm : string * string => (codes (fst sm), codes (snd sm), codes (fst ct)))
           (snd ct))
    LINGUISTICS.

(** ** Arrays and maps *)

Section Sort.
Variable A : Type.
Variable compareFn : A -> A -> Z.

(** [x] goes before the first element it does not compare greater than. *)
Fixpoint insertSorted (x : A) (l : list A) : list A :=
  match l with
  | [] => [x]
  | y :: l' => if Z.leb (compareFn x y) 0 then x :: l else y :: insertSorted x l'
  end.

(** [Array.prototype.sort(compareFn)]: a stable sort, so an element stays
    before the later elements it compares equal to.  With a consistent
    comparator the result of a stable sort does not depend on the algorithm;
    this one inserts the elements from the last to the first. *)
Definition sort (l : list A) : list A := fold_right insertSorted [] l.

End Sort.

(** [Map.prototype.set]: the value of a key already present is replaced in
    place, a new key is added at the end. *)
Fixpoint mapSet (V : Type) (k : JSString) (v : V) (m : list (JSString * V))
  : list (JSString * V) :=
  match m with
  | [] => [(k, v)]
  | (k', v') :: m' =>
      if str_eqb k' k then (k, v) :: m' else (k', v') :: mapSet k v m'
  end.

(** [Set.prototype.has] on the list of the keys added so far. *)
Definition setHas (s : list JSString) (k : JSString) : bool :=
  existsb (str_eqb k) s.

(** ** The engine *)

(** The escaping and the [RegExp] construction shared by the constructor
    and [addDynamicTerm]. *)
Definition compilePattern (t m : JSString) (c : LinguisticCategory)
  : option CompiledPattern :=
  option_map (fun r => mkPattern r t m c) (newRegExp (wordPattern (escapeRegExp t))).

(** The two nested loops of the constructor, which push one pattern per
    dictionary entry. *)
Fixpoint compileAll (l : list (JSString * JSString * LinguisticCategory))
  : option (list CompiledPattern) :=
  match l with
  | [] => Some []
  | (t, m, c) :: l' =>
      match compilePattern t m c with
      | None => None
      | Some p => option_map (cons p) (compileAll l')
      end
  end.

(** The comparator [(a, b) => b.term.length - a.term.length]. *)
Definition byTermLength (a b : CompiledPattern) : Z :=
  (Z.of_nat (length (term b)) - Z.of_nat (length (term a)))%Z.

(** The constructor; [None] stands for an exception of [new RegExp]. *)
Definition construct : option LinguisticsEngine :=
  option_map (fun allTerms => mkEngine (sort byTermLength allTerms) [])
             (compileAll dbEntries).

(** [`${pattern.term}:${pattern.category}`] *)
Definition keyOf (p : CompiledPattern) : JSString :=
  term p ++ [58%Z] ++ category p.

(** The object pushed on [found] for a pattern. *)
Definition entryOf (p : CompiledPattern) : LinguisticTerm :=
  mkTerm (term p) (meaning p) (category p).

(** The pattern object after a change of state of its regular expression. *)
Definition withRegex (p : CompiledPattern) (r : RegExp) : CompiledPattern :=
  mkPattern r (term p) (meaning p) (category p).

(** The local variables [found] and [foundSet] of [translate]. *)
Record Found : Type := mkFound {
  found : list LinguisticTerm;
  foundSet : list JSString
}.

(** What one iteration of a loop of [translate] does to [found] and
    [foundSet] once the pattern has matched. *)
Definition record (p : CompiledPattern) (acc : Found) : Found :=
  if setHas (foundSet acc) (keyOf p) then acc
  else mkFound (found acc ++ [entryOf p]) (keyOf p :: foundSet acc).

(** The program every pattern of the engine runs: [\b], the term letter by
    letter, [\b]. *)
Definition wordProgram (t : JSString) : list Node :=
  WordBoundary :: map Char t ++ [WordBoundary].

Section Host.

(** The case tables of the host outside ASCII.  [hostUpper c] is
    [String.fromCharCode(c).toUpperCase()] for a code unit [c >= 128] and
    [hostLower s] is [s.toLowerCase()] for a string with a code unit
    outside ASCII. *)
Variable hostUpper : Z -> JSString.
Variable hostLower : JSString -> JSString.

(** [String.prototype.toLowerCase]. *)
Definition toLowerCase (s : JSString) : JSString :=
  if forallb isAscii s then map asciiLower s else hostLower s.

(** [toUpperCase] of the string made of one code unit. *)
Definition toUpperCase1 (ch : Z) : JSString :=
  if isAscii ch then [asciiUpper ch] else hostUpper ch.

(** [Canonicalize(ch)] for a pattern with the [i] flag and without the [u]
    flag: the upper case of [ch] when that is a single code unit, except
    that a code unit outside ASCII is never mapped into ASCII. *)
Definition Canonicalize (ch : Z) : Z :=
  match toUpperCase1 ch with
  | [cu] => if Z.leb 128 ch && Z.ltb cu 128 then ch else cu
  | _ => ch
  end.

(** The matcher of a compiled pattern at one position of the input, given
    by the code unit before the position ([prev]) and the rest of the input
    from the position on.  The result is the number of code units the match
    consumes. *)
Fixpoint matchNodes (ns : list Node) (prev : option Z) (rest : JSString)
  : option nat :=
  match ns with
  | [] => Some 0
  | WordBoundary :: ns' =>
      if xorb (isWordAt prev) (isWordAt (hd_error rest))
      then matchNodes ns' prev rest
      else None
  | Char c :: ns' =>
      match rest with
      | [] => None
      | x :: rest' =>
          if Z.eqb (Canonicalize x) (Canonicalize c)
          then option_map S (matchNodes ns' (Some x) rest')
          else None
      end
  end.

(** The loop of [RegExpBuiltinExec]: try the matcher at position [i], then
    at every later position up to and including the end of the input.  The
    result is the end index of the first match. *)
Fixpoint scanFrom (ns : list Node) (prev : option Z) (rest : JSString) (i : nat)
  : option nat :=
  match matchNodes ns prev rest with
  | Some k => Some (i + k)
  | None =>
      match rest with
      | [] => None
      | x :: rest' => scanFrom ns (Some x) rest' (S i)
      end
  end.

(** [regex.test(input)] for a global regular expression: the search starts
    at [lastIndex]; a match leaves [lastIndex] at its end, a failure resets
    it to [0]. *)
Definition test (r : RegExp) (input : JSString) : bool * RegExp :=
  if Nat.ltb (length input) (lastIndex r) then (false, setLastIndex r 0)
  else
    match scanFrom (program r) (charBefore input (lastIndex r))
                   (skipn (lastIndex r) input) (lastIndex r) with
    | Some e => (true, setLastIndex r e)
    | None => (false, setLastIndex r 0)
    end.

(** [addDynamicTerm]: the pattern is stored under the lower-cased term. *)
Definition addDynamicTerm (e : LinguisticsEngine) (t m : JSString)
  (c : LinguisticCategory) : option LinguisticsEngine :=
  option_map
    (fun p => mkEngine (patterns e) (mapSet (toLowerCase t) p (dynamicPatterns e)))
    (compilePattern t m c).

(** [loadDynamicTerms]: [addDynamicTerm] on each element in turn. *)
Fixpoint loadDynamicTerms (e : LinguisticsEngine)
  (l : list (JSString * JSString * LinguisticCategory)) : option LinguisticsEngine :=
  match l with
  | [] => Some e
  | (t, m, c) :: l' =>
      match addDynamicTerm e t m c with
      | None => None
      | Some e' => loadDynamicTerms e' l'
      end
  end.

(** The body of both loops of [translate] for one pattern: the pattern
    object after the iteration and the updated locals. *)
Definition visit (input : JSString) (p : CompiledPattern) (acc : Found)
  : CompiledPattern * Found :=
  let (matched, r) := test (regex p) input in
  if matched then (withRegex p (setLastIndex r 0), record p acc)
  else (withRegex p r, acc).

(** A loop of [translate] over a list of patterns. *)
Fixpoint visitAll (input : JSString) (ps : list CompiledPattern) (acc : Found)
  : list CompiledPattern * Found :=
  match ps with
  | [] => ([], acc)
  | p :: ps' =>
      let (p', acc1) := visit input p acc in
      let (ps'', acc2) := visitAll input ps' acc1 in
      (p' :: ps'', acc2)
  end.

(** [translate]: the result and the engine after the call.  The second
    loop runs over [Array.from(this.dynamicPatterns.values())], whose
    elements are the pattern objects of the map themselves, so their
    [lastIndex] is updated in the map, under the same keys. *)
Definition translate (e : LinguisticsEngine) (input : JSString)
  : TranslationResult * LinguisticsEngine :=
  match input with
  | [] => (mkResult [] [] 1%float input, e)
  | _ :: _ =>
      let (ps, acc1) := visitAll input (patterns e) (mkFound [] []) in
      let (ds, acc2) := visitAll input (map snd (dynamicPatterns e)) acc1 in
      (mkResult input (found acc2)
         (Math_min 1%float (num_0_7 + lengthNumber (found acc2) * num_0_05)%float) input,
       mkEngine ps (combine (map fst (dynamicPatterns e)) ds))
  end.

(** [pattern.regex.test(input)] as the condition of the two loops. *)
Definition matches (p : CompiledPattern) (input : JSString) : bool :=
  fst (test (regex p) input).

(** The exported instance, [engine = new LinguisticsEngine()]. *)
Definition engine : LinguisticsEngine :=
  match construct with
  | Some e => e
  | None => mkEngine [] []
  end.

(** The states of the exported engine: the new engine and what the public
    methods make of it. *)
Inductive Reachable : LinguisticsEngine -> Prop :=
  | Reachable_new : Reachable engine
  | Reachable_add (e e' : LinguisticsEngine) (t m : JSString) (c : LinguisticCategory) :
      Reachable e -> addDynamicTerm e t m c = Some e' -> Reachable e'
  | Reachable_load (e e' : LinguisticsEngine)
      (l : list (JSString * JSString * LinguisticCategory)) :
      Reachable e -> loadDynamicTerms e l = Some e' -> Reachable e'
  | Reachable_translate (e : LinguisticsEngine) (input : JSString) :
      Reachable e -> Reachable (snd (translate e input)).

(** ** The vocabulary of the specification *)

(** Two code units are equal up to case, as a pattern with the [i] flag
    compares them. *)
Definition ciEqual (a b : Z) : Prop := Canonicalize a = Canonicalize b.

(** The last code unit of [prev] followed by [l]. *)
Definition lastFrom (prev : option Z) (l : JSString) : option Z :=
  fold_left (fun _ x => Some x) l prev.

(** The last code unit of a string, if any. *)
Definition lastOf (l : JSString) : option Z := lastFrom None l.

(** "The term occurs bounded by non-word-character boundaries (or string
    start/end) on both sides", compared case-insensitively. *)
Definition occursBounded (t input : JSString) : Prop :=
  exists pre mid post,
    input = pre ++ mid ++ post /\ Forall2 ciEqual mid t
    /\ isWordAt (lastOf pre) = false /\ isWordAt (hd_error post) = false.

(** The same, for a term in ASCII, without the case tables of the host:
    equal up to case is equal after ASCII lower-casing. *)
Definition sameLetter (x c : Z) : Prop :=
  isAscii x = true /\ asciiLower x = asciiLower c.

Definition occursBoundedAscii (t input : JSString) : Prop :=
  exists pre mid post,
    input = pre ++ mid ++ post /\ Forall2 sameLetter mid t
    /\ isWordAt (lastOf pre) = false /\ isWordAt (hd_error post) = false.

(** A term that begins and ends with a word character. *)
Definition wordEdged (t : JSString) : bool :=
  isWordAt (hd_error t) && isWordAt (lastOf t).

(** The order of the static list: no term is shorter than a later one. *)
Definition longerFirst (a b : JSString) : Prop := length b <= length a.

(** What identifies a match: its term and its category. *)
Definition pairOf (x : LinguisticTerm) : JSString * LinguisticCategory :=
  (lt_term x, lt_category x).

(** The key of a recorded entry: [keyOf p] is [entryKey (entryOf p)]. *)
Definition entryKey (x : LinguisticTerm) : JSString :=
  lt_term x ++ [58%Z] ++ lt_category x.

(** A pattern as the engine compiles it, with its regular expression at
    rest. *)
Definition wellFormed (p : CompiledPattern) : Prop :=
  regex p = mkRegExp (wordProgram (term p)) 0.

(** The patterns of the engine, static and dynamic, whose matcher succeeds
    on the input: "the matched patterns". *)
Definition matchedPatterns (e : LinguisticsEngine) (input : JSString)
  : list CompiledPattern :=
  filter (fun p => matches p input) (patterns e ++ map snd (dynamicPatterns e)).

(** The strings of a list, each once. *)
Fixpoint dedup (l : list JSString) : list JSString :=
  match l with
  | [] => []
  | k :: l' => if setHas l' k then dedup l' else k :: dedup l'
  end.

(** The number of distinct keys [term + ":" + category] among the matched
    patterns. *)
Definition distinctKeys (e : LinguisticsEngine) (input : JSString) : nat :=
  length (dedup (map keyOf (matchedPatterns e input))).

(** ** Auxiliary notions of the proofs *)

(** The locals after a pass. *)
Definition pass (input : JSString) (ps : list CompiledPattern) (acc : Found) : Found :=
  fold_left (fun a p => if matches p input then record p a else a) ps acc.

(** The invariant of the loops: [foundSet] holds the keys of the entries
    of [found], and no key occurs twice. *)
Definition Coherent (acc : Found) : Prop :=
  (forall k, In k (foundSet acc) <-> In k (map entryKey (found acc)))
  /\ NoDup (map entryKey (found acc)).

(** The pattern the constructor and [addDynamicTerm] build for a term. *)
Definition compiled (tmc : JSString * JSString * LinguisticCategory) : CompiledPattern :=
  let '(t, m, c) := tmc in mkPattern (mkRegExp (wordProgram t) 0) t m c.

(** What every reachable state satisfies: the static list is the one the
    constructor built, every dynamic pattern is as [addDynamicTerm] built
    it, at rest, and stored once under its lower-cased term. *)
Definition EngineInv (e : LinguisticsEngine) : Prop :=
  patterns e = patterns engine
  /\ Forall (fun kp => wellFormed (snd kp) /\ fst kp = toLowerCase (term (snd kp)))
       (dynamicPatterns e)
  /\ NoDup (map fst (dynamicPatterns e)).

(** No string occurs twice in the list, decided. *)
Fixpoint distinct (l : list JSString) : bool :=
  match l with
  | [] => true
  | k :: l' => negb (setHas l' k) && distinct l'
  end.

(** The string contains the separator [":"] of the keys. *)
Definition hasColon (t : JSString) : bool := existsb (Z.eqb 58) t.

(** Membership in the list of dictionary entries, decided. *)
Definition entryIn (t m : JSString) (c : LinguisticCategory)
  (l : list (JSString * JSString * LinguisticCategory)) : bool :=
  existsb (fun x => str_eqb (fst (fst x)) t && str_eqb (snd (fst x)) m
                    && str_eqb (snd x) c) l.

(** Case tables of a host without case pairs outside ASCII, to run the
    engine on the examples, which are all ASCII. *)
Definition plainUpper (c : Z) : JSString := [c].
Definition plainLower (s : JSString) : JSString := s.

(** The entry of ["cap"] in the category [GEN_Z]. *)
Definition capEntry : LinguisticTerm :=
  mkTerm (codes "cap") (codes "lie") (codes "GEN_Z").

(** The engine after [addDynamicTerm("rizz", "charisma", "GEN_Z")]. *)
Definition rizzEngine : LinguisticsEngine :=
  mkEngine (patterns engine)
    [(codes "rizz", compiled (codes "rizz", codes "charisma", codes "GEN_Z"))].

(** The engine after [addDynamicTerm("Cap", "falsehood", "GEN_Z")]: the
    static term ["cap"] registered again with another casing. *)
Definition capitalEngine : LinguisticsEngine :=
  mkEngine (patterns engine)
    [(codes "cap", compiled (codes "Cap", codes "falsehood", codes "GEN_Z"))].

(** The engine after [addDynamicTerm("cap", "falsehood", "GEN_Z")]: the
    static term ["cap"] registered again with another meaning. *)
Definition relearnedEngine : LinguisticsEngine :=
  mkEngine (patterns engine)
    [(codes "cap", compiled (codes "cap", codes "falsehood", codes "GEN_Z"))].

(** The engine after [addDynamicTerm("", "nothing", "GEN_Z")]. *)
Definition emptyTermEngine : LinguisticsEngine :=
  mkEngine (patterns engine) [([], compiled ([], codes "nothing", codes "GEN_Z"))].

(** The engine after [addDynamicTerm("Cap:x", "m", "y")] and
    [addDynamicTerm("Cap", "falsehood", "x:y")]: two dynamic patterns with
    the key ["Cap:x:y"]. *)
Definition collidingEngine : LinguisticsEngine :=
  mkEngine (patterns engine)
    [(codes "cap:x", compiled (codes "Cap:x", codes "m", codes "y"));
     (codes "cap", compiled (codes "Cap", codes "falsehood", codes "x:y"))].

(** ** Auxiliary notions of the further properties *)

(** [Map.prototype.get]: the value stored under a key, if any. *)
Fixpoint mapGet (V : Type) (k : JSString) (m : list (JSString * V)) : option V :=
  match m with
  | [] => None
  | (k', v) :: m' => if str_eqb k' k then Some v else mapGet k m'
  end.

(** The map of the dynamic patterns after [loadDynamicTerms]. *)
Definition loadAll (l : list (JSString * JSString * LinguisticCategory))
  (d : list (JSString * CompiledPattern)) : list (JSString * CompiledPattern) :=
  fold_left (fun d x => mapSet (toLowerCase (fst (fst x))) (compiled x) d) l d.

(** ** [getRandomTerm] *)

(** The index of the element read by [a[Math.floor(x)]]: the integer part
    of a number that is not negative.  For any other number (a negative
    one, an infinity, [NaN]) the key is no index of an array and the
    element read is [undefined], which is [None] here. *)
Definition floorIndex (x : float) : option nat :=
  match Prim2SF x with
  | S754_zero _ => Some 0
  | S754_finite false m e => Some (Z.to_nat (Z.shiftl (Zpos m) e))
  | _ => None
  end.

(** [Object.keys(this.db)] *)
Definition categories : list string := map fst LINGUISTICS.

(** [Object.entries(this.db[cat])]; [None] is the [TypeError] of
    [Object.entries(undefined)], for a [cat] that is no key. *)
Definition entriesOf (cat : string) : option (list (string * string)) :=
  option_map snd (find (fun ct => String.eqb (fst ct) cat) LINGUISTICS).

(** [getRandomTerm], given the numbers the two calls of [Math.random()]
    return, in the order of the calls.  [None] is a [TypeError]: of
    [Object.entries] when the category read is [undefined], of the
    destructuring [[term, meaning] = ...] when the entry read is. *)
Definition getRandomTerm (random1 random2 : float) : option LinguisticTerm :=
  match floorIndex (random1 * lengthNumber categories) with
  | None => None
  | Some i =>
      match nth_error categories i with
      | None => None
      | Some cat =>
          match entriesOf cat with
          | None => None
          | Some entries =>
              match floorIndex (random2 * lengthNumber entries) with
              | None => None
              | Some j =>
                  match nth_error entries j with
                  | None => None
                  | Some (t, m) => Some (mkTerm (codes t) (codes m) (codes cat))
                  end
              end
          end
      end
  end.

(** The number [x] is the whole number [n], with [0 < n < 2^53]. *)
Definition isNumberOf (x : float) (n : Z) : bool :=
  match Prim2SF x with
  | S754_finite false m e =>
      Z.eqb (bitLength m) 53 && Z.leb (-52) e && Z.leb e 0
      && Z.eqb (Zpos m) (n * 2 ^ (- e))
  | _ => false
  end.

(** What [k] shifts to the right leave of [m0]: the quotient in [shr_m] and
    a remainder that is at least half of [2^k] when the round bit is set. *)
Definition shifted (m0 k : Z) (mrs : shr_record) : Prop :=
  (0 <= shr_m mrs
   /\ exists rem, m0 = shr_m mrs * 2 ^ k + rem /\ 0 <= rem < 2 ^ k
                  /\ (shr_r mrs = true -> 2 ^ k <= 2 * rem))%Z.

(** ** The slang discovery service *)

(** [Math.max] on two numbers. *)
Definition Math_max (a b : float) : float :=
  if PrimFloat.is_nan a || PrimFloat.is_nan b then PrimFloat.nan
  else if PrimFloat.ltb a b then b
  else if PrimFloat.ltb b a then a
  else if PrimFloat.is_zero a && PrimFloat.get_sign a then b
  else a.

(** The code units [String.prototype.trim] removes: white space and line
    terminators. *)
Definition isWhiteSpace (c : Z) : bool :=
  existsb (Z.eqb c)
    [9; 10; 11; 12; 13; 32; 160; 5760; 8232; 8233; 8239; 8287; 12288; 65279]%Z
  || (Z.leb 8192 c && Z.leb c 8202).

Fixpoint trimStart (s : JSString) : JSString :=
  match s with
  | [] => []
  | c :: s' => if isWhiteSpace c then trimStart s' else s
  end.

(** [String.prototype.trim] *)
Definition trim (s : JSString) : JSString := rev (trimStart (rev (trimStart s))).

(** [s.split('\n')[0]]: the part of [s] before the first line feed. *)
Fixpoint firstLine (s : JSString) : JSString :=
  match s with
  | [] => []
  | c :: s' => if Z.eqb c 10 then [] else c :: firstLine s'
  end.

(** [s.replace(/c/g, '')] for a pattern that is one literal character. *)
Definition removeAll (c : Z) (s : JSString) : JSString :=
  filter (fun x => negb (Z.eqb x c)) s.

(** The sources of a result. *)
Inductive SlangSource : Type :=
  | source_static
  | source_database
  | source_urbandictionary
  | source_genius
  | source_gemini.

(** [SlangDiscoveryResult]; an optional property that is absent or
    [undefined] is [None]. *)
Record SlangDiscoveryResult : Type := mkDiscovery {
  sd_found : bool;
  sd_term : JSString;
  sd_meaning : option JSString;
  sd_category : option LinguisticCategory;
  sd_source : option SlangSource;
  sd_sourceUrl : option JSString;
  sd_confidence : option float
}.

(** [{ found: false, term }] *)
Definition notFound (t : JSString) : SlangDiscoveryResult :=
  mkDiscovery false t None None None None None.

(** The columns of a row of the table [dynamic_slang] that the service reads;
    [sourceUrl] is nullable. *)
Record DynamicSlang : Type := mkRow {
  ds_term : JSString;
  ds_meaning : JSString;
  ds_category : JSString;
  ds_sourceUrl : option JSString;
  ds_confidence : float
}.

(** The storage layer, as far as [findSlangTerm] calls it.
    [server/storage.ts] defines neither of the two methods, so that with the
    storage of the sources each call is a [TypeError], a rejected promise
    ([srcServices] below).  The methods are parameters here: each is a
    function of the state of the database, [None] is a rejected promise, and
    what is proved of [findSlangTerm] holds for the storage of the sources
    and for any other. *)
Record Services : Type := mkServices {
  Storage : Type;
  findDynamicSlangTerm : Storage -> JSString -> option (option DynamicSlang);
  incrementSlangUsage : Storage -> JSString -> option Storage
}.

(** The exported engine and the database: the state the service works on.
    A call runs from its beginning to its end on this state, no other call
    in between. *)
Record World (sv : Services) : Type := mkWorld {
  w_engine : LinguisticsEngine;
  w_storage : Storage sv
}.

(** [term.toLowerCase().trim()] *)
Definition normalize (t : JSString) : JSString := trim (toLowerCase t).

(** [u || undefined] for a nullable string. *)
Definition stringOrUndefined (u : option JSString) : option JSString :=
  match u with
  | Some [] => None
  | _ => u
  end.

(** [findSlangTerm]: the result and the state after the call.  [None] is a
    rejected promise, after which the state is not described. *)
Definition findSlangTerm (sv : Services) (w : World sv) (t : JSString)
  : option (SlangDiscoveryResult * World sv) :=
  let normalized := normalize t in
  let (staticResult, e1) := translate (w_engine w) normalized in
  match terms staticResult with
  | x :: _ =>
      Some (mkDiscovery true (lt_term x) (Some (lt_meaning x)) (Some (lt_category x))
              (Some source_static) None (Some 100%float),
            mkWorld sv e1 (w_storage w))
  | [] =>
      match findDynamicSlangTerm sv (w_storage w) normalized with
      | None => None
      | Some None => Some (notFound normalized, mkWorld sv e1 (w_storage w))
      | Some (Some dynamicTerm) =>
          match incrementSlangUsage sv (w_storage w) normalized with
          | None => None
          | Some st =>
              match addDynamicTerm e1 (ds_term dynamicTerm) (ds_meaning dynamicTerm)
                      (ds_category dynamicTerm) with
              | None => None
              | Some e2 =>
                  Some (mkDiscovery true (ds_term dynamicTerm)
                          (Some (ds_meaning dynamicTerm)) (Some (ds_category dynamicTerm))
                          (Some source_database)
                          (stringOrUndefined (ds_sourceUrl dynamicTerm))
                          (Some (ds_confidence dynamicTerm)),
                        mkWorld sv e2 st)
              end
          end
      end
  end.

(** The first element [data.list[0]] of the answer of Urban Dictionary, as
    far as [lookupUrbanDictionary] reads it.  The answer is untyped JSON.
    [ud_definition] is the string under [definition].  [ud_word] and
    [ud_permalink] are the values under [word] and [permalink], which the
    function copies as they are: [None] stands for a value that is not a
    string (absent, [null], a number, ...).  [ud_thumbs_up] and
    [ud_thumbs_down] are the numbers the subtraction converts the values
    under [thumbs_up] and [thumbs_down] to, [NaN] for an absent one. *)
Record UrbanDefinition : Type := mkDefinition {
  ud_word : option JSString;
  ud_definition : JSString;
  ud_permalink : option JSString;
  ud_thumbs_up : float;
  ud_thumbs_down : float
}.

(** What the request gives, as far as [lookupUrbanDictionary] tells the
    cases apart.  [fetch_throws]: an exception inside the [try], that is
    [fetch] or [response.json()] is rejected, or the answer is [null], or
    [data.list[0]] holds no string under [definition], the only property the
    function calls a method on.  [fetch_not_ok]: [response.ok] is false.
    [fetch_no_list]: [data.list] is absent or falsy, or its [length] is [0].
    [fetch_first topDef]: [data.list[0]] is [topDef], with a string under
    [definition]. *)
Inductive FetchOutcome : Type :=
  | fetch_throws
  | fetch_not_ok
  | fetch_no_list
  | fetch_first (topDef : UrbanDefinition).

(** The object [lookupUrbanDictionary] returns.  The source gives it the
    type [SlangDiscoveryResult]; its [term] and [sourceUrl] are whatever the
    answer holds under [word] and [permalink], so here they are [None] for
    a value that is not a string. *)
Record UrbanResult : Type := mkLookup {
  ur_found : bool;
  ur_term : option JSString;
  ur_meaning : option JSString;
  ur_category : option LinguisticCategory;
  ur_source : option SlangSource;
  ur_sourceUrl : option JSString;
  ur_confidence : option float
}.

(** [{ found: false, term }] as a result of [lookupUrbanDictionary]. *)
Definition lookupNotFound (t : JSString) : UrbanResult :=
  mkLookup false (Some t) None None None None None.

(** The [meaning] that [lookupUrbanDictionary] makes of a definition. *)
Definition meaningOf (d : JSString) : JSString :=
  firstn 150 (firstLine (trim (removeAll 93 (removeAll 91 d)))).

(** [Math.min(100, Math.max(50, up - down))] *)
Definition confidenceOfVotes (up down : float) : float :=
  Math_min 100%float (Math_max 50%float (up - down)%float).

(** [lookupUrbanDictionary], given the outcome of the request for each
    term: every exception is caught. *)
Definition lookupUrbanDictionary (fetchDefinitions : JSString -> FetchOutcome)
  (t : JSString) : UrbanResult :=
  match fetchDefinitions t with
  | fetch_throws => lookupNotFound t
  | fetch_not_ok => lookupNotFound t
  | fetch_no_list => lookupNotFound t
  | fetch_first topDef =>
      mkLookup true (ud_word topDef) (Some (meaningOf (ud_definition topDef)))
        (Some (codes "GEN_Z")) (Some source_urbandictionary)
        (ud_permalink topDef)
        (Some (confidenceOfVotes (ud_thumbs_up topDef) (ud_thumbs_down topDef)))
  end.

(** ** A storage layer and a network for the examples *)

(** The storage of [server/storage.ts]: the calls of both methods are
    rejected. *)
Definition srcServices : Services :=
  mkServices (fun (_ : unit) _ => None) (fun _ _ => None).

(** A first definition of an answer, with brackets and a second line, and
    one without a string under [word]. *)
Definition gyattDefinition : UrbanDefinition :=
  mkDefinition (Some (codes "gyatt"))
    [97; 110; 32; 91; 101; 120; 99; 108; 97; 109; 97; 116; 105; 111; 110; 93; 32;
     111; 102; 32; 115; 117; 114; 112; 114; 105; 115; 101; 10; 115; 101; 101; 32;
     97; 108; 115; 111]%Z
    (Some (codes "https://www.urbandictionary.com/define.php?term=gyatt"))
    120%float 10%float.

Definition namelessDefinition : UrbanDefinition :=
  mkDefinition None (codes "to leave") None PrimFloat.nan 3%float.

(** A network that answers the request for ["gyatt"] with the first
    definition, the request for ["dip"] with the second and fails
    otherwise. *)
Definition exampleNetwork (t : JSString) : FetchOutcome :=
  if str_eqb t (codes "gyatt") then fetch_first gyattDefinition
  else if str_eqb t (codes "dip") then fetch_first namelessDefinition
  else fetch_throws.

(** ** Draws for [getRandomTerm] *)

(** A number in the part [i] of the [n] equal parts of the interval from
    [0] to [1]. *)
Definition drawFor (i n : nat) : float :=
  ((numberOfNat i + 0.5) / numberOfNat n)%float.

(** The number lies in the interval from [0] to [1], [1] excluded. *)
Definition inUnitInterval (r : float) : bool :=
  PrimFloat.leb 0 r && PrimFloat.ltb r 1.

(** The elements of a list with their indices. *)
Definition indexed (A : Type) (l : list A) : list (nat * A) :=
  combine (seq 0 (length l)) l.

(** For each entry of the dictionary, a pair of draws and the entry. *)
Definition drawsOfDictionary : list (float * float * LinguisticTerm) :=
  flat_map
    (fun ict : nat * (string * list (string * string)) =>
       map (fun jtm : nat * (string * string) =>
              (drawFor (fst ict) (length LINGUISTICS),
               drawFor (fst jtm) (length (snd (snd ict))),
               mkTerm (codes (fst (snd jtm))) (codes (snd (snd jtm)))
                 (codes (fst (snd ict)))))
           (indexed (snd (snd ict))))
    (indexed LINGUISTICS).

(** Two entries are equal, decided. *)
Definition term_eqb (x y : LinguisticTerm) : bool :=
  str_eqb (lt_term x) (lt_term y) && str_eqb (lt_meaning x) (lt_meaning y)
  && str_eqb (lt_category x) (lt_category y).

(** The pattern has a term of [n] code units. *)
Definition hasLength (n : nat) (p : CompiledPattern) : bool :=
  Nat.eqb (length (term p)) n.

(** ** The choice of a provider *)

(** The providers; ['auto'] asks for a choice. *)
Inductive AIProvider : Type :=
  | provider_gemini
  | provider_claude
  | provider_openai
  | provider_auto.

(** [s.startsWith(pattern)] *)
Fixpoint startsWith (pattern s : JSString) : bool :=
  match pattern, s with
  | [], _ => true
  | _ :: _, [] => false
  | p :: pattern', c :: s' => Z.eqb p c && startsWith pattern' s'
  end.

(** [s.includes(pattern)] *)
Fixpoint includes (s pattern : JSString) : bool :=
  startsWith pattern s
  || match s with
     | [] => false
     | _ :: s' => includes s' pattern
     end.

Local Open Scope string_scope.

Definition backendPatterns : list JSString :=
  map codes
    ["api"; "backend"; "server"; "database"; "auth"; "authentication";
     "login"; "signup"; "jwt"; "oauth"; "postgres"; "mysql"; "mongodb";
     "crud"; "rest"; "graphql"; "middleware"; "express"; "node";
     "security"; "encryption"; "validation"; "endpoint"; "route";
     "payment"; "stripe"; "webhook"; "integration"; "microservice"].

Definition creativePatterns : list JSString :=
  map codes
    ["landing page"; "hero"; "beautiful"; "stunning"; "creative";
     "design"; "ui"; "ux"; "animation"; "interactive"; "portfolio";
     "colorful"; "modern"; "sleek"; "aesthetic"; "visual"; "artistic";
     "marketing"; "showcase"; "gallery"; "presentation"; "story";
     "game"; "fun"; "playful"; "engaging"; "immersive"].

Local Close Scope string_scope.

(** The score a loop of [selectBestProvider] counts: the patterns the
    prompt includes. *)
Definition scoreOf (patterns_ : list JSString) (lowerPrompt : JSString) : nat :=
  length (filter (includes lowerPrompt) patterns_).

(** [selectBestProvider], given whether the clients [anthropic] and [gemini]
    of the module are configured (not [null]). *)
Definition selectBestProvider (anthropic gemini : bool) (prompt : JSString)
  : AIProvider :=
  let lowerPrompt := toLowerCase prompt in
  let backendScore := scoreOf backendPatterns lowerPrompt in
  let creativeScore := scoreOf creativePatterns lowerPrompt in
  if Nat.ltb creativeScore backendScore && anthropic then provider_claude
  else if Nat.ltb backendScore creativeScore && gemini then provider_gemini
  else provider_openai.

(** [getAvailableProviders] *)
Definition getAvailableProviders (anthropic gemini : bool) : list AIProvider :=
  [provider_openai]
  ++ (if anthropic then [provider_claude] else [])
  ++ (if gemini then [provider_gemini] else []).

(** * Properties of the runtime model *)

Lemma str_eqb_eq (a b : JSString) : str_eqb a b = true <-> a = b.
Proof.
  revert b; induction a as [|x a IH]; intros [|y b]; simpl;
    try (split; [discriminate | congruence]); try tauto.
  rewrite andb_true_iff, Z.eqb_eq, IH.
  split; [intros [-> ->]; reflexivity | intros H; inversion H; auto].
Qed.

Lemma str_eqb_refl (a : JSString) : str_eqb a a = true.
Proof. apply str_eqb_eq; reflexivity. Qed.

Lemma str_eqb_neq (a b : JSString) : str_eqb a b = false <-> a <> b.
Proof.
  rewrite <- str_eqb_eq. destruct (str_eqb a b); split; congruence.
Qed.

(** ** Escaping makes every term a literal *)

Lemma parsePattern_escape (t rest : JSString) (ns : list Node) :
  parsePattern rest = Some ns ->
  parsePattern (escapeRegExp t ++ rest) = Some (map Char t ++ ns).
Proof.
  intros Hrest. induction t as [|c t IH]; simpl; [assumption|].
  destruct (isSyntaxChar c) eqn:Hc; simpl.
  - destruct (Z.eqb c 98) eqn:Hb.
    + apply Z.eqb_eq in Hb; subst c; discriminate Hc.
    + fold (escapeRegExp t). rewrite Hc, IH. reflexivity.
  - destruct (Z.eqb c 92) eqn:Hs.
    + apply Z.eqb_eq in Hs; subst c; discriminate Hc.
    + fold (escapeRegExp t). rewrite Hc, IH. reflexivity.
Qed.

Lemma parsePattern_wordPattern (t : JSString) :
  parsePattern (wordPattern (escapeRegExp t))
  = Some (WordBoundary :: map Char t ++ [WordBoundary]).
Proof.
  unfold wordPattern.
  change ([92; 98]%Z ++ escapeRegExp t ++ [92; 98]%Z)
    with (92%Z :: 98%Z :: escapeRegExp t ++ [92; 98]%Z).
  cbn [parsePattern]. rewrite !Z.eqb_refl.
  rewrite (parsePattern_escape t [92; 98]%Z (ns := [WordBoundary])); reflexivity.
Qed.

Lemma compilePattern_eq (t m : JSString) (c : LinguisticCategory) :
  compilePattern t m c = Some (mkPattern (mkRegExp (wordProgram t) 0) t m c).
Proof.
  unfold compilePattern, newRegExp. rewrite parsePattern_wordPattern. reflexivity.
Qed.

(** ** Case folding and word characters *)

(** Case analysis on the comparisons of code units in sight. *)
Ltac zbool_step :=
  match goal with
  | H : context [Z.eqb ?x ?y] |- _ => destruct (Z.eqb_spec x y)
  | H : context [Z.ltb ?x ?y] |- _ => destruct (Z.ltb_spec x y)
  | H : context [Z.leb ?x ?y] |- _ => destruct (Z.leb_spec x y)
  | |- context [Z.eqb ?x ?y] => destruct (Z.eqb_spec x y)
  | |- context [Z.ltb ?x ?y] => destruct (Z.ltb_spec x y)
  | |- context [Z.leb ?x ?y] => destruct (Z.leb_spec x y)
  end.

Ltac zbool := repeat zbool_step; simpl in *; try congruence; try lia.

Lemma isWordChar_ascii (c : Z) : isWordChar c = true -> isAscii c = true.
Proof. unfold isWordChar, isAscii. zbool. Qed.

Lemma Canonicalize_ascii (c : Z) :
  isAscii c = true -> Canonicalize c = asciiUpper c.
Proof.
  unfold Canonicalize, toUpperCase1. intros ->.
  unfold isAscii, asciiUpper. zbool.
Qed.

Lemma Canonicalize_not_ascii (c : Z) :
  isAscii c = false -> (128 <= Canonicalize c)%Z.
Proof.
  unfold Canonicalize, toUpperCase1. intros H. rewrite H.
  unfold isAscii in H. apply Z.ltb_ge in H.
  destruct (hostUpper c) as [|cu [|? ?]]; try assumption.
  zbool.
Qed.

Lemma isWordChar_iff (c : Z) :
  isWordChar c = true <->
  (48 <= c <= 57 \/ 65 <= c <= 90 \/ 97 <= c <= 122 \/ c = 95)%Z.
Proof.
  unfold isWordChar. rewrite !orb_true_iff, !andb_true_iff, !Z.leb_le, Z.eqb_eq. tauto.
Qed.

Lemma asciiUpper_word (x c : Z) :
  asciiUpper x = asciiUpper c -> isWordChar c = true -> isWordChar x = true.
Proof.
  rewrite !isWordChar_iff. unfold asciiUpper.
  destruct (Z.leb_spec 97 x), (Z.leb_spec x 122), (Z.leb_spec 97 c), (Z.leb_spec c 122);
    simpl; lia.
Qed.

(** A code unit equal up to case to a word character is a word character:
    no code unit outside ASCII folds into ASCII. *)
Lemma ciEqual_word (x c : Z) :
  ciEqual x c -> isWordChar c = true -> isWordChar x = true.
Proof.
  unfold ciEqual. intros Heq Hc.
  pose proof (isWordChar_ascii c Hc) as Hac.
  rewrite (Canonicalize_ascii c Hac) in Heq.
  destruct (isAscii x) eqn:Hx.
  - rewrite (Canonicalize_ascii x Hx) in Heq. eapply asciiUpper_word; eauto.
  - pose proof (Canonicalize_not_ascii x Hx) as Hge.
    exfalso. rewrite Heq in Hge. clear - Hge Hac.
    unfold isAscii, asciiUpper in *. zbool.
Qed.

(** On ASCII, equal up to case is equal after ASCII lower-casing. *)
Lemma ciEqual_ascii (x c : Z) :
  isAscii c = true ->
  (ciEqual x c <-> isAscii x = true /\ asciiLower x = asciiLower c).
Proof.
  intros Hc. unfold ciEqual. rewrite (Canonicalize_ascii c Hc).
  destruct (isAscii x) eqn:Hx.
  - rewrite (Canonicalize_ascii x Hx).
    unfold isAscii, asciiUpper, asciiLower in *.
    apply Z.ltb_lt in Hx, Hc.
    destruct (Z.leb_spec 97 x), (Z.leb_spec x 122), (Z.leb_spec 97 c), (Z.leb_spec c 122),
      (Z.leb_spec 65 x), (Z.leb_spec x 90), (Z.leb_spec 65 c), (Z.leb_spec c 90);
      simpl; split; try lia; intros [_ H]; lia.
  - pose proof (Canonicalize_not_ascii x Hx) as Hge.
    unfold isAscii, asciiUpper in *. apply Z.ltb_lt in Hc.
    split; [|intros [H _]; discriminate].
    intros Heq. exfalso. rewrite Heq in Hge.
    destruct (Z.leb 97 c && Z.leb c 122); lia.
Qed.

(** ** What [test] decides *)

Lemma lastFrom_cons (prev : option Z) (x : Z) (l : JSString) :
  lastFrom prev (x :: l) = lastFrom (Some x) l.
Proof. reflexivity. Qed.

(** The letters of the term followed by the closing [\b]. *)
Lemma matchNodes_letters (t : JSString) :
  forall (prev : option Z) (rest : JSString) (k : nat),
    matchNodes (map Char t ++ [WordBoundary]) prev rest = Some k <->
    exists mid post,
      rest = mid ++ post /\ Forall2 ciEqual mid t /\ k = length t
      /\ xorb (isWordAt (lastFrom prev mid)) (isWordAt (hd_error post)) = true.
Proof.
  induction t as [|c t IH]; intros prev rest k; simpl.
  - destruct (xorb (isWordAt prev) (isWordAt (hd_error rest))) eqn:Hx; split.
    + intros [= <-]. exists [], rest. repeat split; auto.
    + intros (mid & post & -> & HF & -> & _). reflexivity.
    + discriminate.
    + intros (mid & post & -> & HF & -> & Hb). inversion HF; subst.
      unfold lastFrom in Hb; simpl in Hb, Hx. congruence.
  - destruct rest as [|x rest].
    + split; [discriminate|].
      intros (mid & post & Heq & HF & _). inversion HF; subst. discriminate Heq.
    + destruct (Z.eqb_spec (Canonicalize x) (Canonicalize c)) as [Hxc|Hxc].
      * destruct (matchNodes (map Char t ++ [WordBoundary]) (Some x) rest) as [k'|] eqn:Hm;
          simpl; split.
        -- intros [= <-]. apply IH in Hm as (mid & post & -> & HF & -> & Hb).
           exists (x :: mid), post. repeat split; auto.
        -- intros (mid & post & Heq & HF & -> & Hb).
           inversion HF as [|x' c' mid' t' Hc HF']; subst. injection Heq as <- ->.
           assert (Hk : matchNodes (map Char t ++ [WordBoundary]) (Some x) (mid' ++ post)
                        = Some (length t)).
           { apply IH. exists mid', post. repeat split; auto. }
           congruence.
        -- discriminate.
        -- intros (mid & post & Heq & HF & -> & Hb).
           inversion HF as [|x' c' mid' t' Hc HF']; subst. injection Heq as <- ->.
           assert (Hk : matchNodes (map Char t ++ [WordBoundary]) (Some x) (mid' ++ post)
                        = Some (length t)).
           { apply IH. exists mid', post. repeat split; auto. }
           congruence.
      * split; [discriminate|].
        intros (mid & post & Heq & HF & _).
        inversion HF as [|x' c' mid' t' Hc HF']; subst. injection Heq as <- ->.
        contradiction.
Qed.

(** The whole program at one position. *)
Lemma matchNodes_wordProgram (t : JSString) (prev : option Z) (rest : JSString) (k : nat) :
  matchNodes (wordProgram t) prev rest = Some k <->
  exists mid post,
    rest = mid ++ post /\ Forall2 ciEqual mid t /\ k = length t
    /\ xorb (isWordAt prev) (isWordAt (hd_error rest)) = true
    /\ xorb (isWordAt (lastFrom prev mid)) (isWordAt (hd_error post)) = true.
Proof.
  unfold wordProgram. cbn [matchNodes].
  destruct (xorb (isWordAt prev) (isWordAt (hd_error rest))) eqn:Hx.
  - rewrite matchNodes_letters. split.
    + intros (mid & post & ? & ? & ? & ?). exists mid, post. auto.
    + intros (mid & post & ? & ? & ? & ? & ?). exists mid, post. auto.
  - split; [discriminate|].
    intros (mid & post & ? & ? & ? & ? & ?). discriminate.
Qed.

(** The search succeeds exactly when the matcher succeeds at one of the
    positions from the current one to the end of the input. *)
Lemma scanFrom_Some (ns : list Node) (rest : JSString) :
  forall (prev : option Z) (i : nat),
    (exists e, scanFrom ns prev rest i = Some e) <->
    exists pre rest' k,
      rest = pre ++ rest' /\ matchNodes ns (lastFrom prev pre) rest' = Some k.
Proof.
  induction rest as [|x rest IH]; intros prev i; simpl.
  - destruct (matchNodes ns prev []) as [k|] eqn:Hm; split.
    + intros _. exists [], [], k. auto.
    + intros _. eauto.
    + intros [e He]; discriminate.
    + intros (pre & rest' & k & Heq & Hk).
      symmetry in Heq. apply app_eq_nil in Heq as [-> ->]. simpl in Hk. congruence.
  - destruct (matchNodes ns prev (x :: rest)) as [k|] eqn:Hm; split.
    + intros _. exists [], (x :: rest), k. auto.
    + intros _. eauto.
    + intros He. apply IH in He as (pre & rest' & k & -> & Hk).
      exists (x :: pre), rest', k. auto.
    + intros (pre & rest' & k & Heq & Hk).
      destruct pre as [|y pre]; simpl in Heq.
      * subst rest'. simpl in Hk. congruence.
      * injection Heq as <- ->. apply IH. exists pre, rest', k. auto.
Qed.

(** [test] on a regular expression at rest ([lastIndex] is [0]). *)
Lemma test_at_rest (ns : list Node) (input : JSString) :
  fst (test (mkRegExp ns 0) input) = true <->
  exists pre rest k, input = pre ++ rest /\ matchNodes ns (lastOf pre) rest = Some k.
Proof.
  unfold test; simpl. rewrite <- (scanFrom_Some ns input None 0).
  destruct (scanFrom ns None input 0) as [e|]; simpl; split.
  - intros _. exists e. reflexivity.
  - reflexivity.
  - discriminate.
  - intros [e He]; discriminate.
Qed.

(** What the pattern of a term, at rest, accepts: an occurrence of the
    term up to case with a word boundary, in the sense of [\b], at both of
    its ends. *)
Lemma test_wordProgram (t input : JSString) :
  fst (test (mkRegExp (wordProgram t) 0) input) = true <->
  exists pre mid post,
    input = pre ++ mid ++ post /\ Forall2 ciEqual mid t
    /\ xorb (isWordAt (lastOf pre)) (isWordAt (hd_error (mid ++ post))) = true
    /\ xorb (isWordAt (lastFrom (lastOf pre) mid)) (isWordAt (hd_error post)) = true.
Proof.
  rewrite test_at_rest. split.
  - intros (pre & rest & k & -> & Hk).
    apply matchNodes_wordProgram in Hk as (mid & post & -> & HF & _ & H1 & H2).
    exists pre, mid, post. auto.
  - intros (pre & mid & post & -> & HF & H1 & H2).
    exists pre, (mid ++ post), (length t). split; [reflexivity|].
    apply matchNodes_wordProgram. exists mid, post. auto.
Qed.

Lemma Forall2_ciEqual_hd (mid t post : JSString) :
  Forall2 ciEqual mid t -> isWordAt (hd_error t) = true ->
  isWordAt (hd_error (mid ++ post)) = true.
Proof.
  intros HF Ht. destruct HF as [|x c mid t Hxc HF]; simpl in *; [discriminate|].
  eapply ciEqual_word; eauto.
Qed.

Lemma Forall2_ciEqual_last (mid t : JSString) :
  Forall2 ciEqual mid t ->
  forall p q : option Z,
    (isWordAt q = true -> isWordAt p = true) ->
    isWordAt (lastFrom q t) = true -> isWordAt (lastFrom p mid) = true.
Proof.
  induction 1 as [|x c mid t Hxc HF IH]; intros p q Hpq Hq.
  - auto.
  - rewrite lastFrom_cons in *. apply (IH (Some x) (Some c)); [|assumption].
    simpl. intros Hc. eapply ciEqual_word; eauto.
Qed.

(** For a term that begins and ends with a word character the two [\b]
    are the boundaries of the specification. *)
Lemma test_occursBounded (t input : JSString) :
  wordEdged t = true ->
  (fst (test (mkRegExp (wordProgram t) 0) input) = true <-> occursBounded t input).
Proof.
  unfold wordEdged. rewrite andb_true_iff. intros [Hhd Hlast].
  rewrite test_wordProgram. unfold occursBounded. split.
  - intros (pre & mid & post & -> & HF & H1 & H2).
    exists pre, mid, post.
    rewrite (Forall2_ciEqual_hd post HF Hhd) in H1.
    rewrite (Forall2_ciEqual_last HF (lastOf pre) None) in H2;
      [|discriminate|exact Hlast].
    repeat split; auto.
    + destruct (isWordAt (lastOf pre)); [discriminate H1 | reflexivity].
    + destruct (isWordAt (hd_error post)); [discriminate H2 | reflexivity].
  - intros (pre & mid & post & -> & HF & H1 & H2).
    exists pre, mid, post.
    rewrite (Forall2_ciEqual_hd post HF Hhd).
    rewrite (Forall2_ciEqual_last HF (lastOf pre) None); [|discriminate|exact Hlast].
    rewrite H1, H2. auto.
Qed.

(** ** Binary64 arithmetic *)

Unset Implicit Arguments.
Local Open Scope Z_scope.

(** The bits of a positive number are as many as its bit length says. *)
Lemma bitLength_bounds (m : positive) : 2 ^ (bitLength m - 1) <= Zpos m < 2 ^ bitLength m.
Proof.
  unfold bitLength. induction m as [m IH|m IH|]; cbn [digits2_pos].
  - rewrite Pos2Z.inj_succ, (Pos2Z.inj_xI m).
    replace (Z.succ (Zpos (digits2_pos m)) - 1) with (Z.succ (Zpos (digits2_pos m) - 1)) by lia.
    rewrite !Z.pow_succ_r by lia. lia.
  - rewrite Pos2Z.inj_succ, (Pos2Z.inj_xO m).
    replace (Z.succ (Zpos (digits2_pos m)) - 1) with (Z.succ (Zpos (digits2_pos m) - 1)) by lia.
    rewrite !Z.pow_succ_r by lia. lia.
  - cbn. lia.
Qed.

Lemma bitLength_unique (m : positive) (k : Z) : 2 ^ (k - 1) <= Zpos m < 2 ^ k -> bitLength m = k.
Proof.
  intros [Hlo Hhi]. pose proof (bitLength_bounds m) as [Dlo Dhi].
  assert (HD : 0 < bitLength m) by (unfold bitLength; lia).
  assert (Hk : 0 < k).
  { destruct (Z.ltb_spec 0 k); [assumption|]. exfalso.
    assert (2 ^ k <= 1).
    { destruct (Z.eqb_spec k 0) as [->|]; [cbn; lia|].
      rewrite Z.pow_neg_r by lia. lia. }
    lia. }
  destruct (Z.lt_trichotomy (bitLength m) k) as [H|[H|H]]; [|assumption|]; exfalso.
  - assert (2 ^ bitLength m <= 2 ^ (k - 1)) by (apply Z.pow_le_mono_r; lia). lia.
  - assert (2 ^ k <= 2 ^ (bitLength m - 1)) by (apply Z.pow_le_mono_r; lia). lia.
Qed.

Lemma shr_1_m (mrs : shr_record) : 0 <= shr_m mrs -> shr_m (shr_1 mrs) = shr_m mrs / 2.
Proof.
  destruct mrs as [m r s]. cbn [shr_m]. intros Hm.
  destruct m as [|p|p]; [reflexivity| |lia].
  destruct p as [p|p|]; cbn [shr_1 shr_m].
  - rewrite (Pos2Z.inj_xI p). apply Z.div_unique with (r := 1); lia.
  - rewrite (Pos2Z.inj_xO p). apply Z.div_unique with (r := 0); lia.
  - reflexivity.
Qed.

Lemma shr_iter_m (p : positive) :
  forall mrs, 0 <= shr_m mrs ->
    shr_m (iter_pos shr_1 p mrs) = shr_m mrs / 2 ^ Zpos p.
Proof.
  assert (Hdiv : forall a q, 0 <= a -> 0 < q -> 0 <= a / q)
    by (intros; apply Z.div_pos; lia).
  induction p as [p IH|p IH|]; intros mrs Hm; cbn [iter_pos].
  - assert (H1 : 0 <= shr_m (shr_1 mrs)) by (rewrite shr_1_m by lia; apply Hdiv; lia).
    assert (H2 : 0 <= shr_m (iter_pos shr_1 p (shr_1 mrs)))
      by (rewrite IH by lia; apply Hdiv; lia).
    rewrite IH, IH, shr_1_m by lia.
    rewrite !Z.div_div by lia. f_equal.
    rewrite (Pos2Z.inj_xI p).
    replace (2 * Zpos p + 1) with (1 + Zpos p + Zpos p) by lia.
    rewrite !Z.pow_add_r by lia. lia.
  - assert (H2 : 0 <= shr_m (iter_pos shr_1 p mrs))
      by (rewrite IH by lia; apply Hdiv; lia).
    rewrite IH, IH by lia. rewrite Z.div_div by lia. f_equal.
    rewrite (Pos2Z.inj_xO p).
    replace (2 * Zpos p) with (Zpos p + Zpos p) by lia.
    rewrite Z.pow_add_r by lia. reflexivity.
  - rewrite shr_1_m by lia. reflexivity.
Qed.

Lemma iter_xO (k : positive) (m : positive) :
  Zpos (Pos.iter xO m k) = Zpos m * 2 ^ Zpos k.
Proof.
  induction k as [|k IH] using Pos.peano_ind.
  - cbn. lia.
  - rewrite Pos.iter_succ, (Pos2Z.inj_xO (Pos.iter xO m k)), IH, Pos2Z.inj_succ, Z.pow_succ_r by lia. lia.
Qed.

Lemma fexp_normal (k : Z) : -1074 <= k - 53 -> fexp prec emax k = k - 53.
Proof. unfold fexp, SpecFloat.emin, prec, emax. lia. Qed.

Lemma round_nearest_even_bounds (m : Z) (l : location) :
  m <= round_nearest_even m l <= m + 1.
Proof.
  destruct l as [|[| |]]; cbn [round_nearest_even]; try lia.
  destruct (Z.even m); lia.
Qed.

(** The first shift of [binary_round_aux]: the mantissa is cut to 53 bits. *)
Lemma shr_fexp_cut (mx : positive) (ex : Z) :
  53 <= bitLength mx -> -1074 <= ex + bitLength mx - 53 ->
  exists mrs,
    shr_fexp prec emax (Zpos mx) ex loc_Exact = (mrs, ex + (bitLength mx - 53))
    /\ shr_m mrs = Zpos mx / 2 ^ (bitLength mx - 53).
Proof.
  intros Hd He. unfold shr_fexp. change (Zdigits2 (Zpos mx)) with (bitLength mx).
  rewrite fexp_normal by lia.
  replace (bitLength mx + ex - 53 - ex) with (bitLength mx - 53) by lia.
  destruct (bitLength mx - 53) as [|p|p] eqn:Hsh; [| |lia]; cbn [shr shr_record_of_loc].
  - eexists. split; [rewrite Z.add_0_r; reflexivity|]. cbn [shr_m].
    rewrite Z.pow_0_r, Z.div_1_r. reflexivity.
  - eexists. split; [reflexivity|]. rewrite shr_iter_m by (cbn; lia). reflexivity.
Qed.

(** The second shift: a mantissa of 53 bits stays, [2^53] becomes [2^52];
    the result is infinite when the exponent is out of range. *)
Lemma shr_fexp_renorm (mr : positive) (e1 : Z) :
  2 ^ 52 <= Zpos mr <= 2 ^ 53 -> -1074 <= e1 ->
  (exists m e,
      (let '(mrs, e') := shr_fexp prec emax (Zpos mr) e1 loc_Exact in
       match shr_m mrs with
       | Z0 => S754_zero false
       | Zpos m => if Z.leb e' (emax - prec) then S754_finite false m e'
                   else S754_infinity false
       | Zneg _ => S754_nan
       end) = S754_finite false m e
      /\ bitLength m = 53 /\ e <= 971 /\ ((e = e1 /\ m = mr) \/ e = e1 + 1))
  \/ ((let '(mrs, e') := shr_fexp prec emax (Zpos mr) e1 loc_Exact in
       match shr_m mrs with
       | Z0 => S754_zero false
       | Zpos m => if Z.leb e' (emax - prec) then S754_finite false m e'
                   else S754_infinity false
       | Zneg _ => S754_nan
       end) = S754_infinity false
      /\ 971 <= e1).
Proof.
  intros Hm He.
  destruct (Z.eq_dec (Zpos mr) (2 ^ 53)) as [Heq|Hne].
  - assert (mr = 9007199254740992%positive) by (cbn in Heq; lia). subst mr.
    unfold shr_fexp. cbn [Zdigits2 digits2_pos Pos.succ].
    rewrite fexp_normal by lia.
    replace (54 + e1 - 53 - e1) with 1 by lia.
    cbn [shr shr_record_of_loc iter_pos shr_1 shr_m].
    change (emax - prec) with 971.
    destruct (Z.leb_spec (e1 + 1) 971) as [Hle|Hgt].
    + left. eexists _, _. split; [reflexivity|]. split; [reflexivity|].
      split; [assumption|]. right. reflexivity.
    + right. split; [reflexivity | lia].
  - assert (Hd : bitLength mr = 53) by (apply bitLength_unique; lia).
    unfold shr_fexp. change (Zdigits2 (Zpos mr)) with (bitLength mr). rewrite Hd.
    rewrite fexp_normal by lia.
    replace (53 + e1 - 53 - e1) with 0 by lia.
    cbn [shr shr_record_of_loc shr_m].
    change (emax - prec) with 971.
    destruct (Z.leb_spec e1 971) as [Hle|Hgt].
    + left. eexists _, _. split; [reflexivity|]. split; [exact Hd|].
      split; [assumption|]. left. auto.
    + right. split; [reflexivity | lia].
Qed.

(** Rounding a positive number with at least 53 bits, above the subnormal
    range: a normal number not below the number cut to 53 bits, or
    infinity. *)
Lemma binary_round_aux_pos (mx : positive) (ex : Z) :
  53 <= bitLength mx -> -1074 <= ex + bitLength mx - 53 ->
  (exists m e,
      binary_round_aux prec emax false (Zpos mx) ex loc_Exact = S754_finite false m e
      /\ bitLength m = 53 /\ e <= 971
      /\ ((e = ex + bitLength mx - 53 /\ Zpos mx / 2 ^ (bitLength mx - 53) <= Zpos m)
          \/ e = ex + bitLength mx - 52))
  \/ (binary_round_aux prec emax false (Zpos mx) ex loc_Exact = S754_infinity false
      /\ 971 <= ex + bitLength mx - 53).
Proof.
  intros Hd He. unfold binary_round_aux.
  destruct (shr_fexp_cut mx ex Hd He) as (mrs & -> & Hm1).
  pose proof (bitLength_bounds mx) as [Hlo Hhi].
  assert (Hsh : 0 <= bitLength mx - 53) by lia.
  assert (Hpos : 0 < 2 ^ (bitLength mx - 53)) by (apply Z.pow_pos_nonneg; lia).
  assert (H1 : 2 ^ 52 <= shr_m mrs < 2 ^ 53).
  { rewrite Hm1. split.
    - apply Z.div_le_lower_bound; [assumption|].
      rewrite <- Z.pow_add_r by lia.
      replace (bitLength mx - 53 + 52) with (bitLength mx - 1) by lia. assumption.
    - apply Z.div_lt_upper_bound; [assumption|].
      rewrite <- Z.pow_add_r by lia.
      replace (bitLength mx - 53 + 53) with (bitLength mx) by lia. assumption. }
  pose proof (round_nearest_even_bounds (shr_m mrs) (loc_of_shr_record mrs)) as Hr.
  destruct (round_nearest_even (shr_m mrs) (loc_of_shr_record mrs)) as [|mr|mr] eqn:Hmr;
    [cbn in H1; lia| |cbn in H1; lia].
  destruct (shr_fexp_renorm mr (ex + (bitLength mx - 53)))
    as [(m & e & Heq & HD & Hle & Hcase)|[Heq Hge]]; [cbn in *; lia|lia| |].
  - left. exists m, e. split; [exact Heq|]. split; [exact HD|]. split; [exact Hle|].
    destruct Hcase as [[-> ->] | ->]; [left; split|right]; lia.
  - right. split; [exact Heq | lia].
Qed.

Lemma binary_round_aux_normal (mx : positive) (ex : Z) :
  53 <= bitLength mx -> -1074 <= ex + bitLength mx - 53 -> ex + bitLength mx - 52 <= 971 ->
  exists m e,
    binary_round_aux prec emax false (Zpos mx) ex loc_Exact = S754_finite false m e
    /\ bitLength m = 53
    /\ ((e = ex + bitLength mx - 53 /\ Zpos mx / 2 ^ (bitLength mx - 53) <= Zpos m)
        \/ e = ex + bitLength mx - 52).
Proof.
  intros Hd He Hmax.
  destruct (binary_round_aux_pos mx ex Hd He) as [(m & e & Heq & HD & _ & Hcase)|[_ Hge]];
    [|lia].
  exists m, e. auto.
Qed.

Lemma bitLength_above (m : positive) (k : Z) : 2 ^ k <= Zpos m -> k < bitLength m.
Proof.
  intros H. pose proof (bitLength_bounds m) as [_ Hhi].
  destruct (Z.ltb_spec k (bitLength m)) as [|Hge]; [assumption|]. exfalso.
  assert (2 ^ bitLength m <= 2 ^ k) by (apply Z.pow_le_mono_r; unfold bitLength in *; lia). lia.
Qed.

Lemma bitLength_below (m : positive) (k : Z) : 0 <= k -> Zpos m < 2 ^ k -> bitLength m <= k.
Proof.
  intros Hk H. pose proof (bitLength_bounds m) as [Hlo _].
  destruct (Z.leb_spec (bitLength m) k) as [|Hlt]; [assumption|]. exfalso.
  assert (2 ^ k <= 2 ^ (bitLength m - 1)) by (apply Z.pow_le_mono_r; lia). lia.
Qed.

Lemma shl_align_fst (mx : positive) (ex ex' : Z) :
  ex' <= ex -> Zpos (fst (shl_align mx ex ex')) = Zpos mx * 2 ^ (ex - ex').
Proof.
  intros H. unfold shl_align. destruct (ex' - ex) as [|k|k] eqn:Hk; cbn [fst].
  - replace (ex - ex') with 0 by lia. lia.
  - lia.
  - rewrite iter_xO. replace (ex - ex') with (Zpos k) by lia. reflexivity.
Qed.

Lemma shl_align_same (mx : positive) (ex ex' : Z) :
  ex <= ex' -> shl_align mx ex ex' = (mx, ex).
Proof.
  intros H. unfold shl_align. destruct (ex' - ex) as [|k|k] eqn:Hk; try reflexivity. lia.
Qed.

(** Rounding a positive integer with at least 53 bits. *)
Lemma binary_round_normal (mx : positive) (ex : Z) :
  53 <= bitLength mx -> -1074 <= ex + bitLength mx - 53 -> ex + bitLength mx - 52 <= 971 ->
  exists m e,
    binary_round prec emax false mx ex = S754_finite false m e
    /\ bitLength m = 53
    /\ ((e = ex + bitLength mx - 53 /\ Zpos mx / 2 ^ (bitLength mx - 53) <= Zpos m)
        \/ e = ex + bitLength mx - 52).
Proof.
  intros Hd He Hmax. unfold binary_round.
  change (Zpos (digits2_pos mx)) with (bitLength mx).
  rewrite fexp_normal by lia. rewrite shl_align_same by lia.
  apply binary_round_aux_normal; assumption.
Qed.

Lemma valid_normal (m : positive) (e : Z) :
  bitLength m = 53 -> -1074 <= e <= 971 -> valid_binary (S754_finite false m e) = true.
Proof.
  intros Hd He. unfold valid_binary, bounded, canonical_mantissa.
  change (Zpos (digits2_pos m)) with (bitLength m). rewrite Hd, fexp_normal by lia.
  replace (53 + e - 53) with e by lia. rewrite Z.eqb_refl.
  apply Z.leb_le. change (emax - prec) with 971. lia.
Qed.

(** The number of a length from 7 on: at least 7, with its exponent. *)
Lemma numberOfNat_spec (n : nat) :
  7 <= Z.of_nat n ->
  (exists m e,
      Prim2SF (numberOfNat n) = S754_finite false m e
      /\ bitLength m = 53 /\ -50 <= e <= 971 /\ (e = -50 -> 7 * 2 ^ 50 <= Zpos m))
  \/ Prim2SF (numberOfNat n) = S754_infinity false.
Proof.
  intros Hlo. unfold numberOfNat.
  destruct (Z.of_nat n) as [|pn|pn] eqn:Hn; [lia| |lia].
  cbn [binary_normalize]. unfold binary_round.
  change (Zpos (digits2_pos pn)) with (bitLength pn). rewrite Z.add_0_r.
  assert (H3 : 2 < bitLength pn) by (apply bitLength_above; lia).
  rewrite fexp_normal by lia.
  pose proof (bitLength_bounds pn) as [Dlo Dhi].
  assert (Hal : exists mz ez,
             shl_align pn 0 (bitLength pn - 53) = (mz, ez) /\ 53 <= bitLength mz /\ ez + bitLength mz = bitLength pn
             /\ (bitLength pn = 3 -> bitLength mz = 53 /\ 7 * 2 ^ 50 <= Zpos mz)).
  { destruct (Z.leb_spec (bitLength pn) 53) as [Hle|Hgt].
    - pose proof (shl_align_fst pn 0 (bitLength pn - 53) ltac:(lia)) as Hfst.
      assert (Hsnd : snd (shl_align pn 0 (bitLength pn - 53)) = bitLength pn - 53).
      { unfold shl_align. destruct (bitLength pn - 53 - 0) eqn:Hk; cbn [snd]; lia. }
      destruct (shl_align pn 0 (bitLength pn - 53)) as [mz ez]. cbn [fst snd] in Hfst, Hsnd.
      subst ez. exists mz, (bitLength pn - 53). split; [reflexivity|].
      assert (Hk : 0 < 2 ^ (0 - (bitLength pn - 53))) by (apply Z.pow_pos_nonneg; lia).
      assert (Hz : bitLength mz = 53).
      { apply bitLength_unique. rewrite Hfst.
        replace (2 ^ (53 - 1)) with (2 ^ (bitLength pn - 1) * 2 ^ (0 - (bitLength pn - 53)))
          by (rewrite <- Z.pow_add_r by lia; f_equal; lia).
        replace (2 ^ 53) with (2 ^ bitLength pn * 2 ^ (0 - (bitLength pn - 53)))
          by (rewrite <- Z.pow_add_r by lia; f_equal; lia).
        split; [apply Z.mul_le_mono_nonneg_r | apply Z.mul_lt_mono_pos_r]; lia. }
      split; [lia|]. split; [lia|]. intros HD3. split; [assumption|].
      rewrite HD3 in Hfst. change (0 - (3 - 53)) with 50 in Hfst. lia.
    - exists pn, 0. rewrite shl_align_same by lia.
      split; [reflexivity|]. split; [lia|]. split; lia. }
  destruct Hal as (mz & ez & -> & Hz & Hez & Hz7).
  destruct (binary_round_aux_pos mz ez) as [(m & e & Heq & HD & Hle & Hcase)|[Heq _]];
    [lia|lia| |].
  - left. exists m, e. rewrite Heq.
    split; [apply Prim2SF_SF2Prim, valid_normal; [assumption|lia]|].
    split; [exact HD|]. split; [lia|]. intros He.
    destruct Hcase as [[He' Hm]|He']; [|lia].
    assert (HD3 : bitLength pn = 3) by lia. destruct (Hz7 HD3) as [Hz53 H7].
    rewrite Hz53 in Hm. change (53 - 53) with 0 in Hm.
    rewrite Z.pow_0_r, Z.div_1_r in Hm. lia.
  - right. rewrite Heq. apply Prim2SF_SF2Prim. reflexivity.
Qed.

Lemma num_0_05_spec : Prim2SF num_0_05 = S754_finite false 7205759403792794 (-57).
Proof. reflexivity. Qed.

Lemma num_0_7_spec : Prim2SF num_0_7 = S754_finite false 6305039478318694 (-53).
Proof. reflexivity. Qed.

Lemma one_spec : Prim2SF 1 = S754_finite false 4503599627370496 (-52).
Proof. reflexivity. Qed.

(** [x * 0.05] for [x >= 7]: at least [5/16]. *)
Lemma times_0_05 (x : float) (mx : positive) (ex : Z) :
  Prim2SF x = S754_finite false mx ex ->
  bitLength mx = 53 -> -50 <= ex <= 971 -> (ex = -50 -> 7 * 2 ^ 50 <= Zpos mx) ->
  exists m e,
    Prim2SF (x * num_0_05) = S754_finite false m e
    /\ bitLength m = 53 /\ -54 <= e <= 968 /\ (e = -54 -> 5 * 2 ^ 50 <= Zpos m).
Proof.
  intros Hx Hd He H7. rewrite FloatAxioms.mul_spec, Hx, num_0_05_spec.
  unfold SF64mul, SFmul. cbn [xorb].
  set (P := (mx * 7205759403792794)%positive).
  assert (HP : Zpos P = Zpos mx * 7205759403792794) by (unfold P; lia).
  pose proof (bitLength_bounds mx) as Hb. rewrite Hd in Hb.
  change (2 ^ (53 - 1)) with 4503599627370496 in Hb.
  change (2 ^ 53) with 9007199254740992 in Hb.
  change (2 ^ 50) with 1125899906842624 in *.
  assert (HDP : (bitLength P = 105 /\ Zpos P < 2 ^ 105) \/ (bitLength P = 106 /\ 2 ^ 105 <= Zpos P)).
  { destruct (Z.ltb_spec (Zpos P) (2 ^ 105)) as [Hlt|Hge]; [left|right]; split; try assumption.
    - apply bitLength_unique. rewrite HP.
      change (2 ^ (105 - 1)) with 20282409603651670423947251286016.
      change (2 ^ 105) with 40564819207303340847894502572032 in *. lia.
    - apply bitLength_unique. rewrite HP.
      change (2 ^ (106 - 1)) with 40564819207303340847894502572032.
      change (2 ^ 105) with 40564819207303340847894502572032 in *.
      change (2 ^ 106) with 81129638414606681695789005144064. lia. }
  change (2 ^ 105) with 40564819207303340847894502572032 in HDP.
  destruct (binary_round_aux_normal P (ex + -57)) as (m & e & Heq & HD & Hcase);
    [lia|lia|lia|].
  exists m, e. split; [exact Heq|]. split; [exact HD|].
  destruct HDP as [[HDP Hlt]|[HDP Hge]]; rewrite HDP in Hcase.
  - change (2 ^ (105 - 53)) with 4503599627370496 in Hcase.
    assert (Hex : ex <> -50) by (intros Hex; specialize (H7 Hex); lia).
    split; [lia|]. intros He54.
    destruct Hcase as [[He' Hm]|He']; [|lia].
    assert (7205759403792794 <= Zpos P / 4503599627370496)
      by (apply Z.div_le_lower_bound; lia).
    lia.
  - change (2 ^ (106 - 53)) with 9007199254740992 in Hcase.
    split; [lia|]. intros He54.
    destruct Hcase as [[He' Hm]|He']; [|lia].
    assert (Hex : ex = -50) by lia. specialize (H7 Hex).
    assert (5 * 1125899906842624 <= Zpos P / 9007199254740992)
      by (apply Z.div_le_lower_bound; lia).
    lia.
Qed.

(** [0.7 + y] for [y >= 5/16]: at least [1]. *)
Lemma plus_0_7 (y : float) (my : positive) (ey : Z) :
  Prim2SF y = S754_finite false my ey ->
  bitLength my = 53 -> -54 <= ey <= 968 -> (ey = -54 -> 5 * 2 ^ 50 <= Zpos my) ->
  exists m e,
    Prim2SF (num_0_7 + y) = S754_finite false m e /\ bitLength m = 53 /\ -52 <= e.
Proof.
  intros Hy Hd He H5. rewrite FloatAxioms.add_spec, Hy, num_0_7_spec.
  unfold SF64add, SFadd. cbn [cond_Zopp].
  pose proof (bitLength_bounds my) as Hb. rewrite Hd in Hb.
  change (2 ^ (53 - 1)) with 4503599627370496 in Hb.
  change (2 ^ 53) with 9007199254740992 in Hb.
  change (2 ^ 50) with 1125899906842624 in *.
  set (ez := Z.min (-53) ey).
  pose proof (shl_align_fst 6305039478318694 (-53) ez ltac:(unfold ez; lia)) as Ha.
  pose proof (shl_align_fst my ey ez ltac:(unfold ez; lia)) as Hb'.
  set (a := fst (shl_align 6305039478318694 (-53) ez)) in *.
  set (b := fst (shl_align my ey ez)) in *.
  change (Zpos a + Zpos b) with (Zpos (a + b)). cbn [binary_normalize].
  assert (HS : Zpos (a + b) = Zpos a + Zpos b) by lia.
  assert (HDS : 1 - ez <= bitLength (a + b) <= 1023 - ez).
  { destruct (Z.eq_dec ey (-54)) as [->|Hne].
    - specialize (H5 eq_refl). change ez with (-54) in *.
      change (2 ^ (-53 - -54)) with 2 in Ha. change (2 ^ (-54 - -54)) with 1 in Hb'.
      assert (54 < bitLength (a + b)) by (apply bitLength_above; change (2 ^ 54) with 18014398509481984; lia).
      assert (bitLength (a + b) <= 55) by (apply bitLength_below; [lia|]; change (2 ^ 55) with 36028797018963968; lia).
      lia.
    - assert (Hez : ez = -53) by (unfold ez; lia). rewrite Hez in *.
      change (2 ^ (-53 - -53)) with 1 in Ha.
      assert (Hp : 1 <= 2 ^ (ey - -53)).
      { assert (0 < 2 ^ (ey - -53)) by (apply Z.pow_pos_nonneg; lia). lia. }
      assert (53 < bitLength (a + b)) by (apply bitLength_above; change (2 ^ 53) with 9007199254740992; nia).
      assert (bitLength (a + b) <= 54 + (ey - -53)).
      { apply bitLength_below; [lia|]. rewrite Z.pow_add_r by lia.
        change (2 ^ 54) with 18014398509481984. nia. }
      lia. }
  assert (Hez : -54 <= ez <= -53) by (unfold ez; lia).
  destruct (binary_round_normal (a + b) ez) as (m & e & Heq & HD & Hcase); [lia|lia|lia|].
  exists m, e. split; [exact Heq|]. split; [exact HD|]. lia.
Qed.

(** [Math.min(1, z)] is [1] for a number [z] that is at least [1]. *)
Lemma Math_min_1 (z : float) (m : positive) (e : Z) :
  Prim2SF z = S754_finite false m e -> bitLength m = 53 -> -52 <= e -> Math_min 1 z = 1%float.
Proof.
  intros Hz Hd He. unfold Math_min.
  assert (Hnan : PrimFloat.is_nan z = false).
  { unfold PrimFloat.is_nan. rewrite FloatAxioms.eqb_spec, Hz.
    unfold SFeqb, SFcompare. rewrite Z.compare_refl, Pos.compare_cont_refl. reflexivity. }
  assert (Hlt : PrimFloat.ltb z 1 = false).
  { rewrite FloatAxioms.ltb_spec, Hz, one_spec. unfold SFltb, SFcompare.
    destruct (Z.compare_spec e (-52)) as [->|Hlt|Hgt]; [|lia|reflexivity].
    pose proof (bitLength_bounds m) as Hb. rewrite Hd in Hb.
    change (2 ^ (53 - 1)) with 4503599627370496 in Hb.
    destruct (Pos.compare_cont Eq m 4503599627370496) eqn:Hc; try reflexivity.
    apply (Pos.compare_lt_iff m 4503599627370496) in Hc.
    apply Pos2Z.pos_lt_pos in Hc. exfalso. lia. }
  change (PrimFloat.is_nan 1) with false. rewrite Hnan, Hlt. cbn [orb].
  change (PrimFloat.is_zero 1) with false. cbn [andb].
  destruct (PrimFloat.ltb 1 z); reflexivity.
Qed.

(** [Math.min(1, z)] is [1] for [z] infinite. *)
Lemma Math_min_1_infinity (z : float) :
  Prim2SF z = S754_infinity false -> Math_min 1 z = 1%float.
Proof.
  intros Hz. unfold Math_min.
  assert (Hnan : PrimFloat.is_nan z = false).
  { unfold PrimFloat.is_nan. rewrite FloatAxioms.eqb_spec, Hz. reflexivity. }
  assert (Hlt : PrimFloat.ltb z 1 = false).
  { rewrite FloatAxioms.ltb_spec, Hz, one_spec. reflexivity. }
  change (PrimFloat.is_nan 1) with false. rewrite Hnan, Hlt. cbn [orb].
  change (PrimFloat.is_zero 1) with false. cbn [andb].
  destruct (PrimFloat.ltb 1 z); reflexivity.
Qed.

(** From six matches on the confidence is [1]. *)
Lemma confidenceOf_cap (n : nat) : (6 <= n)%nat -> confidenceOf n = 1%float.
Proof.
  intros Hlo. unfold confidenceOf.
  destruct (Nat.eq_dec n 6) as [->|H6]; [reflexivity|].
  destruct (numberOfNat_spec n) as [(mx & ex & Hx & Hdx & Hex & H7)|Hx]; [lia| |].
  - destruct (times_0_05 _ _ _ Hx Hdx Hex H7) as (my & ey & Hy & Hdy & Hey & H5).
    destruct (plus_0_7 _ _ _ Hy Hdy Hey H5) as (mz & ez & Hz & Hdz & Hez).
    exact (Math_min_1 _ _ _ Hz Hdz Hez).
  - apply Math_min_1_infinity.
    rewrite FloatAxioms.add_spec, FloatAxioms.mul_spec, Hx, num_0_05_spec, num_0_7_spec.
    reflexivity.
Qed.

Lemma confidenceOf_bounds (n : nat) :
  PrimFloat.leb num_0_7 (confidenceOf n) = true
  /\ PrimFloat.leb (confidenceOf n) 1 = true.
Proof.
  destruct (Nat.le_gt_cases n 6) as [H|H].
  - do 7 (destruct n as [|n]; [split; reflexivity|]). lia.
  - rewrite confidenceOf_cap by lia. split; reflexivity.
Qed.

Lemma confidenceOf_monotone (n k : nat) :
  (n <= k)%nat -> PrimFloat.leb (confidenceOf n) (confidenceOf k) = true.
Proof.
  intros Hnk. destruct (Nat.le_gt_cases k 6) as [H|H].
  - do 7 (destruct k as [|k];
          [do 7 (destruct n as [|n]; [first [reflexivity | exfalso; lia]|]);
           exfalso; lia|]).
    lia.
  - rewrite (confidenceOf_cap k) by lia.
    apply confidenceOf_bounds.
Qed.

Local Close Scope Z_scope.
Set Implicit Arguments.

(** * Properties of the engine *)

(** ** One pass over a list of patterns *)

Lemma test_false (r r' : RegExp) (input : JSString) :
  test r input = (false, r') -> r' = setLastIndex r 0.
Proof.
  unfold test. destruct (Nat.ltb (length input) (lastIndex r)); [congruence|].
  destruct (scanFrom _ _ _ _); [discriminate | congruence].
Qed.

Lemma test_program (r : RegExp) (input : JSString) :
  program (snd (test r input)) = program r.
Proof.
  unfold test. destruct (Nat.ltb (length input) (lastIndex r)); [reflexivity|].
  destruct (scanFrom _ _ _ _); reflexivity.
Qed.

(** After an iteration the pattern object is at rest: a match is followed
    by [pattern.regex.lastIndex = 0], a failure resets it by itself. *)
Lemma visit_fst (input : JSString) (p : CompiledPattern) (acc : Found) :
  fst (visit input p acc) = withRegex p (setLastIndex (regex p) 0).
Proof.
  unfold visit. pose proof (test_program (regex p) input) as Hp.
  destruct (test (regex p) input) as [[|] r] eqn:Ht; simpl in *.
  - unfold setLastIndex; simpl. rewrite Hp. reflexivity.
  - apply test_false in Ht. subst r. reflexivity.
Qed.

Lemma visit_snd (input : JSString) (p : CompiledPattern) (acc : Found) :
  snd (visit input p acc) = if matches p input then record p acc else acc.
Proof.
  unfold visit, matches, record.
  destruct (test (regex p) input) as [[|] r]; reflexivity.
Qed.

Lemma atRest_fixed (p : CompiledPattern) :
  lastIndex (regex p) = 0 -> withRegex p (setLastIndex (regex p) 0) = p.
Proof.
  destruct p as [[ns i] t m c]; simpl. intros ->. reflexivity.
Qed.

Lemma visitAll_snd (input : JSString) (ps : list CompiledPattern) :
  forall acc, snd (visitAll input ps acc) = pass input ps acc.
Proof.
  induction ps as [|p ps IH]; intros acc; simpl; [reflexivity|].
  pose proof (visit_snd input p acc) as Hv.
  destruct (visit input p acc) as [p' acc1]; simpl in Hv.
  specialize (IH acc1). destruct (visitAll input ps acc1) as [ps' acc2]; simpl in *.
  unfold pass in *; simpl. rewrite <- Hv. exact IH.
Qed.

Lemma visitAll_fst (input : JSString) (ps : list CompiledPattern) :
  forall acc,
    fst (visitAll input ps acc)
    = map (fun p => withRegex p (setLastIndex (regex p) 0)) ps.
Proof.
  induction ps as [|p ps IH]; intros acc; simpl; [reflexivity|].
  pose proof (visit_fst input p acc) as Hv.
  destruct (visit input p acc) as [p' acc1]; simpl in Hv.
  specialize (IH acc1). destruct (visitAll input ps acc1) as [ps' acc2]; simpl in *.
  congruence.
Qed.

Lemma visitAll_at_rest (input : JSString) (ps : list CompiledPattern) (acc : Found) :
  Forall (fun p => lastIndex (regex p) = 0) ps ->
  fst (visitAll input ps acc) = ps.
Proof.
  intros H. rewrite visitAll_fst.
  induction H as [|p ps Hp _ IH]; simpl; [reflexivity|].
  rewrite (atRest_fixed p Hp), IH. reflexivity.
Qed.

(** [translate] in terms of the two passes. *)
Lemma translate_nonempty (e : LinguisticsEngine) (input : JSString) :
  input <> [] ->
  translate e input =
  (let acc := pass input (map snd (dynamicPatterns e))
                (pass input (patterns e) (mkFound [] [])) in
   mkResult input (found acc)
     (Math_min 1%float (num_0_7 + lengthNumber (found acc) * num_0_05)%float) input,
   mkEngine
     (map (fun p => withRegex p (setLastIndex (regex p) 0)) (patterns e))
     (combine (map fst (dynamicPatterns e))
        (map (fun p => withRegex p (setLastIndex (regex p) 0))
           (map snd (dynamicPatterns e))))).
Proof.
  intros Hne. unfold translate. destruct input as [|x input]; [congruence|].
  set (inp := x :: input).
  pose proof (visitAll_snd inp (patterns e) (mkFound [] [])) as H1.
  pose proof (visitAll_fst inp (patterns e) (mkFound [] [])) as H1'.
  destruct (visitAll inp (patterns e) (mkFound [] [])) as [ps acc1]; simpl in H1, H1'.
  pose proof (visitAll_snd inp (map snd (dynamicPatterns e)) acc1) as H2.
  pose proof (visitAll_fst inp (map snd (dynamicPatterns e)) acc1) as H2'.
  destruct (visitAll inp (map snd (dynamicPatterns e)) acc1) as [ds acc2];
    simpl in H2, H2'.
  subst. reflexivity.
Qed.

Lemma setHas_In (s : list JSString) (k : JSString) : setHas s k = true <-> In k s.
Proof.
  unfold setHas. rewrite existsb_exists. split.
  - intros (x & Hx & Heq). apply str_eqb_eq in Heq. subst. assumption.
  - intros H. exists k. split; [assumption | apply str_eqb_refl].
Qed.

Lemma keyOf_entryOf (p : CompiledPattern) : entryKey (entryOf p) = keyOf p.
Proof. reflexivity. Qed.

Lemma Coherent_empty : Coherent (mkFound [] []).
Proof. split; simpl; [tauto | constructor]. Qed.

Lemma record_Coherent (p : CompiledPattern) (acc : Found) :
  Coherent acc -> Coherent (record p acc).
Proof.
  intros [Hset Hnd]. unfold record.
  destruct (setHas (foundSet acc) (keyOf p)) eqn:Hhas; [split; assumption|].
  assert (Hnot : ~ In (keyOf p) (map entryKey (found acc))).
  { rewrite <- Hset, <- setHas_In. congruence. }
  split; simpl.
  - intros k. rewrite map_app, in_app_iff, <- Hset. simpl. tauto.
  - rewrite map_app. simpl. apply NoDup_app; auto.
    + repeat constructor. simpl. tauto.
    + intros k Hk. simpl. intros [<-|[]]. contradiction.
Qed.

Lemma pass_cons (input : JSString) (p : CompiledPattern) (ps : list CompiledPattern)
  (acc : Found) :
  pass input (p :: ps) acc
  = pass input ps (if matches p input then record p acc else acc).
Proof. reflexivity. Qed.

Lemma pass_Coherent (input : JSString) (ps : list CompiledPattern) :
  forall acc, Coherent acc -> Coherent (pass input ps acc).
Proof.
  induction ps as [|p ps IH]; intros acc H; simpl; [assumption|].
  apply IH. destruct (matches p input); [apply record_Coherent|]; assumption.
Qed.

(** A pass appends to [found]: the new entries come from patterns of the
    list that matched, and the key of every pattern that matched is the
    key of some entry afterwards. *)
Lemma pass_spec (input : JSString) (ps : list CompiledPattern) :
  forall acc,
    Coherent acc ->
    exists l,
      found (pass input ps acc) = found acc ++ l
      /\ (forall x, In x l ->
            exists p, In p ps /\ matches p input = true /\ x = entryOf p)
      /\ (forall p, In p ps -> matches p input = true ->
            In (keyOf p) (map entryKey (found acc ++ l))).
Proof.
  induction ps as [|p ps IH]; intros acc Hacc.
  - exists []. simpl. rewrite app_nil_r. repeat split; auto; intros ? [].
  - rewrite pass_cons. destruct (matches p input) eqn:Hm.
    + destruct (IH (record p acc) (record_Coherent p Hacc)) as (l & Hl & Hfrom & Hkeys).
      rewrite Hl. clear Hl. unfold record in *.
      destruct (setHas (foundSet acc) (keyOf p)) eqn:Hhas; simpl in *.
      * exists l. split; [reflexivity|]. split.
        -- intros x Hx. destruct (Hfrom x Hx) as (q & Hq & ? & ?). exists q. auto.
        -- intros q [<-|Hq] Hmq; [|auto].
           rewrite map_app, in_app_iff. left.
           apply (proj1 Hacc). apply setHas_In. assumption.
      * exists (entryOf p :: l). rewrite <- app_assoc. simpl.
        split; [reflexivity|]. split.
        -- intros x [<-|Hx]; [exists p; auto|].
           destruct (Hfrom x Hx) as (q & Hq & ? & ?). exists q. auto.
        -- intros q Hq Hmq.
           assert (Heq : found acc ++ entryOf p :: l = (found acc ++ [entryOf p]) ++ l)
             by (rewrite <- app_assoc; reflexivity).
           rewrite Heq. destruct Hq as [<-|Hq]; [|auto].
           rewrite !map_app, !in_app_iff. left; right. simpl. auto.
    + destruct (IH acc Hacc) as (l & Hl & Hfrom & Hkeys).
      exists l. split; [assumption|]. split.
      * intros x Hx. destruct (Hfrom x Hx) as (q & Hq & ? & ?). exists q. simpl. auto.
      * intros q [<-|Hq] Hmq; [congruence | auto].
Qed.

(** ** Sorting *)

Section SortFacts.
Variable A : Type.
Variable compareFn : A -> A -> Z.
Hypothesis compareFn_total : forall x y, (0 < compareFn x y)%Z -> (compareFn y x <= 0)%Z.
Hypothesis compareFn_trans :
  forall x y z, (compareFn x y <= 0)%Z -> (compareFn y z <= 0)%Z -> (compareFn x z <= 0)%Z.

Lemma insertSorted_In (x y : A) (l : list A) :
  In y (insertSorted compareFn x l) <-> y = x \/ In y l.
Proof.
  induction l as [|z l IH]; simpl.
  - intuition congruence.
  - destruct (Z.leb (compareFn x z) 0); simpl; [intuition congruence|].
    rewrite IH. intuition congruence.
Qed.

Lemma sort_In (y : A) (l : list A) : In y (sort compareFn l) <-> In y l.
Proof.
  induction l as [|x l IH]; simpl; [tauto|].
  rewrite insertSorted_In, IH. intuition congruence.
Qed.

Lemma insertSorted_sorted (x : A) (l : list A) :
  StronglySorted (fun a b => (compareFn a b <= 0)%Z) l ->
  StronglySorted (fun a b => (compareFn a b <= 0)%Z) (insertSorted compareFn x l).
Proof.
  induction 1 as [|y l Hl IH Hy]; simpl.
  - repeat constructor.
  - destruct (Z.leb_spec (compareFn x y) 0) as [Hxy|Hxy].
    + constructor; [constructor; assumption|].
      constructor; [assumption|].
      eapply Forall_impl; [|exact Hy]. intros z Hz. eapply compareFn_trans; eauto.
    + constructor; [assumption|].
      apply Forall_forall. intros z Hz. apply insertSorted_In in Hz as [->|Hz].
      * apply compareFn_total. assumption.
      * rewrite Forall_forall in Hy. auto.
Qed.

Lemma sort_sorted (l : list A) :
  StronglySorted (fun a b => (compareFn a b <= 0)%Z) (sort compareFn l).
Proof.
  induction l as [|x l IH]; simpl; [constructor | apply insertSorted_sorted, IH].
Qed.

End SortFacts.

Lemma StronglySorted_snoc (A : Type) (R : A -> A -> Prop) (l : list A) (x : A) :
  StronglySorted R l -> Forall (fun y => R y x) l -> StronglySorted R (l ++ [x]).
Proof.
  induction 1 as [|y l Hl IH Hy]; intros Hx; simpl.
  - repeat constructor.
  - inversion Hx; subst. constructor; [auto|].
    apply Forall_app. split; [assumption | repeat constructor; assumption].
Qed.

Lemma StronglySorted_weaken (A : Type) (R R' : A -> A -> Prop) (l : list A) :
  (forall x y, R x y -> R' x y) -> StronglySorted R l -> StronglySorted R' l.
Proof.
  intros HR. induction 1 as [|y l Hl IH Hy]; constructor; [assumption|].
  eapply Forall_impl; [|exact Hy]. auto.
Qed.

(** ** The [Map] of dynamic patterns *)

Lemma mapSet_In (V : Type) (k : JSString) (v : V) (m : list (JSString * V)) (kv : JSString * V) :
  In kv (mapSet k v m) -> kv = (k, v) \/ In kv m.
Proof.
  induction m as [|[k' v'] m IH]; simpl.
  - intros [<-|[]]; auto.
  - destruct (str_eqb k' k); simpl; intuition.
Qed.

Lemma mapSet_keys_In (V : Type) (k : JSString) (v : V) (m : list (JSString * V)) (k0 : JSString) :
  In k0 (map fst (mapSet k v m)) <-> k0 = k \/ In k0 (map fst m).
Proof.
  induction m as [|[k' v'] m IH]; simpl.
  - intuition.
  - destruct (str_eqb k' k) eqn:Hk; simpl.
    + apply str_eqb_eq in Hk. subst. intuition.
    + rewrite IH. intuition.
Qed.

Lemma mapSet_NoDup (V : Type) (k : JSString) (v : V) (m : list (JSString * V)) :
  NoDup (map fst m) -> NoDup (map fst (mapSet k v m)).
Proof.
  induction m as [|[k' v'] m IH]; simpl; intros H.
  - repeat constructor. simpl. tauto.
  - inversion H as [|? ? Hnot Hnd]; subst.
    destruct (str_eqb k' k) eqn:Hk; simpl.
    + apply str_eqb_eq in Hk. subst. constructor; assumption.
    + apply str_eqb_neq in Hk. constructor; [|auto].
      rewrite mapSet_keys_In. intros [->|Hin]; [congruence | contradiction].
Qed.

(** The value under the key after [set]. *)
Lemma mapSet_stored (V : Type) (k : JSString) (v : V) (m : list (JSString * V)) :
  In (k, v) (mapSet k v m).
Proof.
  induction m as [|[k' v'] m IH]; simpl; [auto|].
  destruct (str_eqb k' k); simpl; auto.
Qed.

(** ** The engine after construction *)

Lemma compileAll_eq (l : list (JSString * JSString * LinguisticCategory)) :
  compileAll l = Some (map compiled l).
Proof.
  induction l as [|[[t m] c] l IH]; simpl; [reflexivity|].
  rewrite compilePattern_eq, IH. reflexivity.
Qed.

(** No [RegExp] construction of the constructor throws. *)
Lemma construct_engine : construct = Some engine.
Proof.
  unfold engine, construct. rewrite compileAll_eq. reflexivity.
Qed.

Lemma engine_patterns :
  patterns engine = sort byTermLength (map compiled dbEntries).
Proof.
  unfold engine, construct. rewrite compileAll_eq. reflexivity.
Qed.

Lemma engine_dynamic : dynamicPatterns engine = [].
Proof.
  unfold engine, construct. rewrite compileAll_eq. reflexivity.
Qed.

Lemma compiled_wellFormed (tmc : JSString * JSString * LinguisticCategory) :
  wellFormed (compiled tmc).
Proof. destruct tmc as [[t m] c]. reflexivity. Qed.

Lemma wellFormed_atRest (p : CompiledPattern) :
  wellFormed p -> lastIndex (regex p) = 0.
Proof. unfold wellFormed. intros ->. reflexivity. Qed.

Lemma engine_wellFormed : Forall wellFormed (patterns engine).
Proof.
  rewrite engine_patterns. apply Forall_forall. intros p Hp.
  apply sort_In in Hp. apply in_map_iff in Hp as (tmc & <- & _).
  apply compiled_wellFormed.
Qed.

(** The static list is sorted by descending term length. *)
Lemma engine_sorted :
  StronglySorted (fun a b => longerFirst (term a) (term b)) (patterns engine).
Proof.
  rewrite engine_patterns.
  assert (H : forall a b, (byTermLength a b <= 0)%Z <-> longerFirst (term a) (term b)).
  { intros a b. unfold byTermLength, longerFirst. lia. }
  eapply StronglySorted_weaken;
    [| apply (sort_sorted byTermLength)].
  - intros a b Hab. apply H. exact Hab.
  - unfold byTermLength. intros; lia.
  - unfold byTermLength. intros; lia.
Qed.

(** ** The states the engine reaches *)

Lemma combine_fst_snd (A B : Type) (l : list (A * B)) :
  combine (map fst l) (map snd l) = l.
Proof. induction l as [|[a b] l IH]; simpl; congruence. Qed.

(** A call of [translate] on an engine at rest leaves the engine as it
    was. *)
Lemma translate_at_rest (e : LinguisticsEngine) (input : JSString) :
  Forall (fun p => lastIndex (regex p) = 0) (patterns e) ->
  Forall (fun p => lastIndex (regex p) = 0) (map snd (dynamicPatterns e)) ->
  snd (translate e input) = e.
Proof.
  intros Hs Hd. destruct input as [|x input]; [reflexivity|].
  rewrite translate_nonempty by discriminate. cbv zeta. simpl snd.
  pose proof (visitAll_at_rest (x :: input) (mkFound [] []) Hs) as H1.
  pose proof (visitAll_at_rest (x :: input) (mkFound [] []) Hd) as H2.
  rewrite visitAll_fst in H1, H2. rewrite H1, H2, combine_fst_snd.
  destruct e; reflexivity.
Qed.

Lemma EngineInv_atRest (e : LinguisticsEngine) :
  EngineInv e ->
  Forall (fun p => lastIndex (regex p) = 0) (patterns e)
  /\ Forall (fun p => lastIndex (regex p) = 0) (map snd (dynamicPatterns e)).
Proof.
  intros (Hp & Hd & _). split.
  - rewrite Hp. eapply Forall_impl; [|apply engine_wellFormed].
    intros p. apply wellFormed_atRest.
  - apply Forall_map. eapply Forall_impl; [|exact Hd].
    intros [k p] [Hw _]. apply wellFormed_atRest. exact Hw.
Qed.

Lemma addDynamicTerm_eq (e : LinguisticsEngine) (t m : JSString) (c : LinguisticCategory) :
  addDynamicTerm e t m c
  = Some (mkEngine (patterns e)
            (mapSet (toLowerCase t) (compiled (t, m, c)) (dynamicPatterns e))).
Proof. unfold addDynamicTerm. rewrite compilePattern_eq. reflexivity. Qed.

Lemma addDynamicTerm_inv (e e' : LinguisticsEngine) (t m : JSString) (c : LinguisticCategory) :
  EngineInv e -> addDynamicTerm e t m c = Some e' -> EngineInv e'.
Proof.
  intros (Hp & Hd & Hn). rewrite addDynamicTerm_eq. intros [= <-]. simpl.
  split; [assumption|]. split; [|apply mapSet_NoDup; assumption].
  apply Forall_forall. intros kp Hkp. apply mapSet_In in Hkp as [->|Hkp].
  - simpl. split; reflexivity.
  - rewrite Forall_forall in Hd. auto.
Qed.

Lemma loadDynamicTerms_inv (l : list (JSString * JSString * LinguisticCategory)) :
  forall e e', EngineInv e -> loadDynamicTerms e l = Some e' -> EngineInv e'.
Proof.
  induction l as [|[[t m] c] l IH]; intros e e' He; simpl.
  - intros [= <-]. assumption.
  - destruct (addDynamicTerm e t m c) as [e1|] eqn:H1; [|discriminate].
    apply IH. eapply addDynamicTerm_inv; eauto.
Qed.

(** [loadDynamicTerms] never throws. *)
Lemma loadDynamicTerms_total (l : list (JSString * JSString * LinguisticCategory)) :
  forall e, exists e', loadDynamicTerms e l = Some e'.
Proof.
  induction l as [|[[t m] c] l IH]; intros e; simpl; [eauto|].
  rewrite addDynamicTerm_eq. apply IH.
Qed.

Lemma Reachable_inv (e : LinguisticsEngine) : Reachable e -> EngineInv e.
Proof.
  induction 1 as [|e e' t m c _ IH Hadd|e e' l _ IH Hload|e input _ IH].
  - split; [reflexivity|]. rewrite engine_dynamic. split; constructor.
  - eapply addDynamicTerm_inv; eauto.
  - eapply loadDynamicTerms_inv; eauto.
  - destruct (EngineInv_atRest IH) as [Hs Hd].
    rewrite translate_at_rest; assumption.
Qed.

(** ** Facts about the dictionary, by evaluation *)

Lemma distinct_NoDup (l : list JSString) : distinct l = true -> NoDup l.
Proof.
  induction l as [|k l IH]; simpl; [constructor|].
  rewrite andb_true_iff, negb_true_iff. intros [Hk Hl].
  constructor; [|auto]. rewrite <- setHas_In. congruence.
Qed.

Lemma forallb_Forall (A : Type) (f : A -> bool) (l : list A) :
  forallb f l = true -> Forall (fun x => f x = true) l.
Proof. rewrite forallb_forall, Forall_forall. auto. Qed.

(** No two static patterns have the same key. *)
Lemma static_keys_NoDup : NoDup (map keyOf (patterns engine)).
Proof. apply distinct_NoDup. vm_compute. reflexivity. Qed.

(** Every static term begins and ends with a word character. *)
Lemma static_wordEdged : Forall (fun p => wordEdged (term p) = true) (patterns engine).
Proof. apply forallb_Forall. vm_compute. reflexivity. Qed.

(** No static term contains a colon. *)
Lemma static_no_colon : Forall (fun p => hasColon (term p) = false) (patterns engine).
Proof.
  assert (H : forallb (fun p => negb (hasColon (term p))) (patterns engine) = true)
    by (vm_compute; reflexivity).
  apply forallb_Forall in H. eapply Forall_impl; [|exact H].
  intros p. apply negb_true_iff.
Qed.

Lemma NoDup_map_eq (A B : Type) (f : A -> B) (l : list A) (a b : A) :
  NoDup (map f l) -> In a l -> In b l -> f a = f b -> a = b.
Proof.
  induction l as [|x l IH]; simpl; [tauto|].
  intros Hnd Ha Hb Hab. inversion Hnd as [|? ? Hnot Hnd']; subst.
  destruct Ha as [->|Ha], Hb as [->|Hb]; auto.
  - exfalso. apply Hnot. rewrite Hab. apply in_map. assumption.
  - exfalso. apply Hnot. rewrite <- Hab. apply in_map. assumption.
Qed.

(** ** The result of [translate] *)

(** The static pass records the entry of every static pattern that
    matches. *)
Lemma static_recorded (e : LinguisticsEngine) (input : JSString) (p : CompiledPattern) :
  EngineInv e -> In p (patterns e) -> matches p input = true ->
  In (entryOf p) (found (pass input (patterns e) (mkFound [] []))).
Proof.
  intros (Hp & _) Hin Hm.
  destruct (pass_spec input (patterns e) Coherent_empty) as (l & Hl & Hfrom & Hkeys).
  rewrite Hl. cbn [found app] in *. specialize (Hkeys p Hin Hm).
  apply in_map_iff in Hkeys as (x & Hx & Hxl).
  destruct (Hfrom x Hxl) as (q & Hq & _ & ->).
  rewrite keyOf_entryOf in Hx.
  assert (q = p); [|subst; assumption].
  rewrite Hp in Hq, Hin.
  exact (@NoDup_map_eq _ _ keyOf _ q p static_keys_NoDup Hq Hin Hx).
Qed.

(** The entries of a pass are in the order of the patterns. *)
Lemma pass_sorted (input : JSString) (ps : list CompiledPattern) :
  StronglySorted (fun a b => longerFirst (term a) (term b)) ps ->
  forall acc,
    StronglySorted (fun x y => longerFirst (lt_term x) (lt_term y)) (found acc) ->
    (forall x p, In x (found acc) -> In p ps -> longerFirst (lt_term x) (term p)) ->
    StronglySorted (fun x y => longerFirst (lt_term x) (lt_term y))
      (found (pass input ps acc)).
Proof.
  induction 1 as [|p ps Hps IH Hp]; intros acc Hacc Hle; [assumption|].
  rewrite pass_cons. apply IH.
  - destruct (matches p input); [|assumption]. unfold record.
    destruct (setHas (foundSet acc) (keyOf p)); [assumption|]. simpl.
    apply StronglySorted_snoc; [assumption|].
    apply Forall_forall. intros x Hx. apply (Hle x p); simpl; auto.
  - intros x q Hx Hq.
    assert (Hx' : In x (found acc) \/ x = entryOf p).
    { destruct (matches p input); [|auto]. unfold record in Hx.
      destruct (setHas (foundSet acc) (keyOf p)); [auto|]. simpl in Hx.
      apply in_app_iff in Hx as [Hx|[<-|[]]]; auto. }
    destruct Hx' as [Hx'| ->].
    + apply (Hle x q); simpl; auto.
    + simpl. rewrite Forall_forall in Hp. auto.
Qed.

(** The shape of the list [translate] returns: the entries of the static
    pass, then those of the dynamic pass. *)
Lemma translate_terms (e : LinguisticsEngine) (input : JSString) :
  input <> [] ->
  exists l2,
    terms (fst (translate e input))
    = found (pass input (patterns e) (mkFound [] [])) ++ l2
    /\ (forall x, In x l2 ->
          exists p, In p (map snd (dynamicPatterns e)) /\ matches p input = true
                    /\ x = entryOf p)
    /\ (forall p, In p (map snd (dynamicPatterns e)) -> matches p input = true ->
          In (keyOf p) (map entryKey (terms (fst (translate e input)))))
    /\ NoDup (map entryKey (terms (fst (translate e input)))).
Proof.
  intros Hne. rewrite translate_nonempty by assumption. cbv zeta. simpl fst. simpl terms.
  pose proof (pass_Coherent input (patterns e) Coherent_empty) as Hc1.
  destruct (pass_spec input (map snd (dynamicPatterns e)) Hc1) as (l2 & Hl & Hfrom & Hkeys).
  exists l2. rewrite Hl. repeat split; auto.
  rewrite <- Hl. apply pass_Coherent. assumption.
Qed.

Lemma entryIn_In (t m : JSString) (c : LinguisticCategory)
  (l : list (JSString * JSString * LinguisticCategory)) :
  entryIn t m c l = true -> In (t, m, c) l.
Proof.
  unfold entryIn. rewrite existsb_exists. intros ([[t' m'] c'] & Hin & H).
  simpl in H. rewrite !andb_true_iff, !str_eqb_eq in H.
  destruct H as [[-> ->] ->]. assumption.
Qed.

(** Every entry of the dictionary has its pattern in the static list. *)
Lemma static_pattern (tmc : JSString * JSString * LinguisticCategory) :
  In tmc dbEntries -> In (compiled tmc) (patterns engine).
Proof.
  intros H. rewrite engine_patterns. apply sort_In. apply in_map. assumption.
Qed.

Lemma Reachable_static (e : LinguisticsEngine)
  (tmc : JSString * JSString * LinguisticCategory) :
  Reachable e -> In tmc dbEntries -> In (compiled tmc) (patterns e).
Proof.
  intros He H. apply Reachable_inv in He as (Hp & _). rewrite Hp.
  apply static_pattern. assumption.
Qed.

Lemma translate_pairs_NoDup (e : LinguisticsEngine) (input : JSString) :
  NoDup (map pairOf (terms (fst (translate e input)))).
Proof.
  destruct input as [|x input]; [constructor|].
  destruct (@translate_terms e (x :: input)) as (l2 & _ & _ & _ & Hnd); [discriminate|].
  eapply NoDup_map_inv
    with (f := fun tc : JSString * LinguisticCategory => fst tc ++ [58%Z] ++ snd tc).
  rewrite map_map. exact Hnd.
Qed.

(** The entry of a static pattern that matches is in the result. *)
Lemma translate_static (e : LinguisticsEngine) (input : JSString) (p : CompiledPattern) :
  EngineInv e -> input <> [] -> In p (patterns e) -> matches p input = true ->
  In (entryOf p) (terms (fst (translate e input))).
Proof.
  intros He Hne Hp Hm.
  destruct (@translate_terms e input Hne) as (l2 & -> & _).
  apply in_app_iff. left. apply static_recorded; assumption.
Qed.

Lemma matches_wellFormed (p : CompiledPattern) (input : JSString) :
  wellFormed p ->
  matches p input = fst (test (mkRegExp (wordProgram (term p)) 0) input).
Proof. unfold matches, wellFormed. intros ->. reflexivity. Qed.

(** No pattern of the engine matches the empty input: there is no word
    boundary in it. *)
Lemma matches_empty (p : CompiledPattern) : wellFormed p -> matches p [] = false.
Proof. intros H. rewrite (@matches_wellFormed _ [] H). reflexivity. Qed.

Lemma Reachable_static_wellFormed (e : LinguisticsEngine) (p : CompiledPattern) :
  Reachable e -> In p (patterns e) -> wellFormed p /\ wordEdged (term p) = true.
Proof.
  intros He Hp. apply Reachable_inv in He as (Heq & _). rewrite Heq in Hp.
  pose proof engine_wellFormed as H1. pose proof static_wordEdged as H2.
  rewrite Forall_forall in H1, H2. split; [exact (H1 p Hp) | exact (H2 p Hp)].
Qed.

(** Every entry of the result is the stored entry of a pattern of the
    engine that matched. *)
Lemma translate_terms_from (e : LinguisticsEngine) (input : JSString) (x : LinguisticTerm) :
  In x (terms (fst (translate e input))) ->
  exists p,
    (In p (patterns e) \/ In p (map snd (dynamicPatterns e)))
    /\ matches p input = true /\ x = entryOf p.
Proof.
  destruct input as [|c input]; [intros []|].
  destruct (@translate_terms e (c :: input)) as (l2 & -> & Hfrom & _); [discriminate|].
  destruct (pass_spec (c :: input) (patterns e) Coherent_empty) as (l1 & -> & Hfrom1 & _).
  cbn [found app]. intros Hx. apply in_app_iff in Hx as [Hx|Hx].
  - destruct (Hfrom1 x Hx) as (p & ? & ? & ?). exists p. auto.
  - destruct (Hfrom x Hx) as (p & ? & ? & ?). exists p. auto.
Qed.

(** Every static term is in ASCII. *)
Lemma static_ascii : Forall (fun p => forallb isAscii (term p) = true) (patterns engine).
Proof. apply forallb_Forall. vm_compute. reflexivity. Qed.

Lemma Forall2_ciEqual_ascii (mid t : JSString) :
  forallb isAscii t = true -> (Forall2 ciEqual mid t <-> Forall2 sameLetter mid t).
Proof.
  revert mid. induction t as [|c t IH]; intros mid Ht.
  - split; intros H; inversion H; constructor.
  - cbn in Ht. apply andb_true_iff in Ht as [Hc Ht].
    split; intros H; inversion H as [|x c' mid' t' Hx HF]; subst; constructor.
    + apply ciEqual_ascii; assumption.
    + apply IH; assumption.
    + apply ciEqual_ascii; assumption.
    + apply IH; assumption.
Qed.

(** What a static pattern of a reachable engine matches, in terms of ASCII
    alone. *)
Lemma static_matches_ascii (e : LinguisticsEngine) (p : CompiledPattern) (input : JSString) :
  Reachable e -> In p (patterns e) ->
  (matches p input = true <-> occursBoundedAscii (term p) input).
Proof.
  intros He Hp.
  destruct (@Reachable_static_wellFormed _ _ He Hp) as [Hwf Hw].
  assert (Ha : forallb isAscii (term p) = true).
  { apply Reachable_inv in He as (Heq & _). rewrite Heq in Hp.
    pose proof static_ascii as H. rewrite Forall_forall in H. exact (H p Hp). }
  rewrite (@matches_wellFormed _ input Hwf), (@test_occursBounded _ input Hw).
  unfold occursBounded, occursBoundedAscii.
  split; intros (pre & mid & post & Heq & HF & H1 & H2); exists pre, mid, post;
    repeat split; auto; apply (@Forall2_ciEqual_ascii mid _ Ha); assumption.
Qed.

(** ** The pattern of the empty term *)

(** [\b\b] finds a match exactly when there is a word boundary at or after
    the current position. *)
Lemma scanFrom_empty_term (rest : JSString) :
  forall (prev : option Z) (i : nat),
    (exists e, scanFrom [WordBoundary; WordBoundary] prev rest i = Some e) <->
    isWordAt prev || existsb isWordChar rest = true.
Proof.
  induction rest as [|x rest IH]; intros prev i.
  - cbn. destruct (isWordAt prev); cbn; split; intros H; eauto;
      try discriminate; destruct H; discriminate.
  - cbn [scanFrom matchNodes hd_error isWordAt existsb].
    destruct (isWordAt prev) eqn:Hp, (isWordChar x) eqn:Hx; cbn [xorb orb].
    + rewrite (IH (Some x) (S i)). cbn. rewrite Hx. reflexivity.
    + split; eauto.
    + split; eauto.
    + rewrite (IH (Some x) (S i)). cbn. rewrite Hx. reflexivity.
Qed.

Lemma matches_empty_term (m : JSString) (c : LinguisticCategory) (input : JSString) :
  matches (compiled ([], m, c)) input = true <-> existsb isWordChar input = true.
Proof.
  unfold matches, test; cbn [compiled regex lastIndex program].
  change (wordProgram []) with [WordBoundary; WordBoundary].
  cbn [Nat.ltb Nat.leb charBefore skipn].
  rewrite <- (orb_false_l (existsb isWordChar input)).
  change false with (isWordAt None) at 2.
  rewrite <- (scanFrom_empty_term input None 0).
  destruct (scanFrom [WordBoundary; WordBoundary] None input 0) as [e|]; cbn; split; eauto.
  - discriminate.
  - intros [e He]. discriminate.
Qed.

Lemma toLowerCase_empty : toLowerCase [] = [].
Proof. reflexivity. Qed.

(** The key of a dynamic pattern that matches is the key of an entry of
    the result. *)
Lemma translate_dynamic_key (e : LinguisticsEngine) (input : JSString) (p : CompiledPattern) :
  In p (map snd (dynamicPatterns e)) -> matches p input = true -> input <> [] ->
  In (keyOf p) (map entryKey (terms (fst (translate e input)))).
Proof.
  intros Hp Hm Hne.
  destruct (@translate_terms e input Hne) as (l2 & _ & _ & Hkeys & _). auto.
Qed.

(** ** Keys and colons *)

Lemma key_split (t1 t2 c1 c2 : JSString) :
  hasColon t1 = false -> hasColon t2 = false ->
  t1 ++ [58%Z] ++ c1 = t2 ++ [58%Z] ++ c2 -> t1 = t2 /\ c1 = c2.
Proof.
  unfold hasColon.
  revert t2. induction t1 as [|x t1 IH]; intros [|y t2]; cbn [app existsb];
    intros H1 H2 Heq.
  - injection Heq as ->. auto.
  - injection Heq as Hy _. subst y. rewrite Z.eqb_refl in H2. discriminate.
  - injection Heq as Hx _. subst x. rewrite Z.eqb_refl in H1. discriminate.
  - injection Heq as -> Heq.
    apply orb_false_iff in H1 as [_ H1]. apply orb_false_iff in H2 as [_ H2].
    destruct (IH t2 H1 H2 Heq) as [-> ->]. auto.
Qed.

Lemma NoDup_fst_eq (A B : Type) (l : list (A * B)) (k : A) (a b : B) :
  NoDup (map fst l) -> In (k, a) l -> In (k, b) l -> a = b.
Proof.
  intros Hnd Ha Hb.
  assert (H : (k, a) = (k, b)) by (eapply NoDup_map_eq; eauto).
  congruence.
Qed.

Lemma translate_confidence (e : LinguisticsEngine) (input : JSString) :
  input <> [] ->
  confidence (fst (translate e input))
  = confidenceOf (length (terms (fst (translate e input)))).
Proof.
  intros Hne. rewrite translate_nonempty by assumption. reflexivity.
Qed.

(** ** The static list and the dictionary *)

Lemma static_compiled (q : CompiledPattern) :
  In q (patterns engine) -> exists tmc, In tmc dbEntries /\ q = compiled tmc.
Proof.
  rewrite engine_patterns. intros Hq. apply sort_In in Hq.
  apply in_map_iff in Hq as (tmc & <- & Hin). exists tmc. auto.
Qed.

Lemma insertSorted_Permutation (A : Type) (compareFn : A -> A -> Z) (x : A) (l : list A) :
  Permutation (insertSorted compareFn x l) (x :: l).
Proof.
  induction l as [|y l IH]; cbn [insertSorted]; [apply Permutation_refl|].
  destruct (Z.leb (compareFn x y) 0); [apply Permutation_refl|].
  apply Permutation_trans with (y :: x :: l); [apply perm_skip, IH | apply perm_swap].
Qed.

(** The sort neither loses nor adds an element. *)
Lemma sort_Permutation (A : Type) (compareFn : A -> A -> Z) (l : list A) :
  Permutation (sort compareFn l) l.
Proof.
  induction l as [|x l IH]; [apply Permutation_refl|].
  change (sort compareFn (x :: l)) with (insertSorted compareFn x (sort compareFn l)).
  apply Permutation_trans with (x :: sort compareFn l);
    [apply insertSorted_Permutation | apply perm_skip, IH].
Qed.

Lemma engine_Permutation : Permutation (patterns engine) (map compiled dbEntries).
Proof. rewrite engine_patterns. apply sort_Permutation. Qed.

(** The entries of the static pass are the entries of the dictionary whose
    term occurs in the input. *)
Lemma static_pass_entries (e : LinguisticsEngine) (input : JSString) (x : LinguisticTerm) :
  Reachable e ->
  (In x (found (pass input (patterns e) (mkFound [] [])))
   <-> exists t m c,
         In (t, m, c) dbEntries /\ occursBoundedAscii t input /\ x = mkTerm t m c).
Proof.
  intros He. pose proof (Reachable_inv He) as Hinv. split.
  - intros Hx.
    destruct (pass_spec input (patterns e) Coherent_empty) as (l1 & Hl1 & Hfrom1 & _).
    rewrite Hl1 in Hx. cbn [found app] in Hx.
    destruct (Hfrom1 x Hx) as (p & Hp & Hm & ->).
    pose proof (proj1 (@static_matches_ascii e p input He Hp) Hm) as Hocc.
    destruct Hinv as (Hpe & _). rewrite Hpe in Hp.
    destruct (static_compiled Hp) as ([[t m] c] & Hdb & ->).
    exists t, m, c. split; [exact Hdb|]. split; [exact Hocc | reflexivity].
  - intros (t & m & c & Hdb & Hocc & ->).
    pose proof (@Reachable_static e (t, m, c) He Hdb) as Hp.
    apply (@static_recorded e input (compiled (t, m, c)) Hinv Hp).
    exact (proj2 (@static_matches_ascii e _ input He Hp) Hocc).
Qed.

(** ** Distinct keys *)

Lemma dedup_In (l : list JSString) (k : JSString) : In k (dedup l) <-> In k l.
Proof.
  induction l as [|x l IH]; cbn [dedup]; [tauto|].
  destruct (setHas l x) eqn:Hx.
  - apply setHas_In in Hx. rewrite IH. cbn [In]. split; [auto|].
    intros [<-|H]; assumption.
  - cbn [In]. rewrite IH. tauto.
Qed.

Lemma dedup_NoDup (l : list JSString) : NoDup (dedup l).
Proof.
  induction l as [|x l IH]; cbn [dedup]; [constructor|].
  destruct (setHas l x) eqn:Hx; [exact IH|].
  constructor; [|exact IH]. rewrite dedup_In. intros Hin.
  apply setHas_In in Hin. rewrite Hin in Hx. discriminate.
Qed.

(** The keys of the entries returned are the keys of the matched
    patterns. *)
Lemma translate_keys (e : LinguisticsEngine) (input : JSString) (k : JSString) :
  input <> [] ->
  (In k (map entryKey (terms (fst (translate e input))))
   <-> In k (map keyOf (matchedPatterns e input))).
Proof.
  intros Hne. unfold matchedPatterns. split.
  - intros Hk. apply in_map_iff in Hk as (x & <- & Hx).
    destruct (@translate_terms_from e input x Hx) as (p & Hp & Hm & ->).
    rewrite keyOf_entryOf. apply in_map. apply filter_In. split; [|exact Hm].
    apply in_app_iff. exact Hp.
  - intros Hk. apply in_map_iff in Hk as (p & <- & Hp).
    apply filter_In in Hp as [Hp Hm]. apply in_app_iff in Hp as [Hp|Hp].
    + destruct (@translate_terms e input Hne) as (l2 & Hl & _).
      destruct (pass_spec input (patterns e) Coherent_empty) as (l1 & Hl1 & _ & Hkeys).
      rewrite Hl, Hl1, map_app. apply in_or_app. left. exact (Hkeys p Hp Hm).
    + exact (@translate_dynamic_key e input p Hp Hm Hne).
Qed.

(** One entry is returned for each distinct key among the matched
    patterns. *)
Lemma translate_length (e : LinguisticsEngine) (input : JSString) :
  input <> [] ->
  length (terms (fst (translate e input))) = distinctKeys e input.
Proof.
  intros Hne. unfold distinctKeys.
  rewrite <- (length_map entryKey (terms (fst (translate e input)))).
  destruct (@translate_terms e input Hne) as (_ & _ & _ & _ & Hnd).
  apply Nat.le_antisymm.
  - apply NoDup_incl_length; [exact Hnd|]. intros k Hk.
    apply (proj2 (dedup_In _ k)). apply (proj1 (@translate_keys e input k Hne)). exact Hk.
  - apply NoDup_incl_length; [apply dedup_NoDup|]. intros k Hk.
    apply (proj1 (dedup_In _ k)) in Hk.
    apply (proj2 (@translate_keys e input k Hne)). exact Hk.
Qed.

(** ** Keys and the colons of categories *)

Lemma hasColon_app (a b : JSString) : hasColon (a ++ b) = hasColon a || hasColon b.
Proof. unfold hasColon. apply existsb_app. Qed.

Lemma hasColon_rev (t : JSString) : hasColon (rev t) = hasColon t.
Proof.
  induction t as [|x t IH]; [reflexivity|]. cbn [rev].
  rewrite hasColon_app, IH. unfold hasColon. cbn [existsb].
  rewrite orb_false_r. apply orb_comm.
Qed.

(** Two keys whose categories have no colon are equal only for the same
    term and the same category. *)
Lemma key_split_last (t1 t2 c1 c2 : JSString) :
  hasColon c1 = false -> hasColon c2 = false ->
  t1 ++ [58%Z] ++ c1 = t2 ++ [58%Z] ++ c2 -> t1 = t2 /\ c1 = c2.
Proof.
  intros H1 H2 Heq. apply (f_equal (@rev Z)) in Heq.
  rewrite !rev_app_distr in Heq. cbn [rev app] in Heq. rewrite <- !app_assoc in Heq.
  rewrite <- hasColon_rev in H1, H2.
  destruct (key_split _ _ _ _ H1 H2 Heq) as [Hc Ht].
  apply (f_equal (@rev Z)) in Hc, Ht. rewrite !rev_involutive in Hc, Ht. auto.
Qed.

(** No category of the dictionary contains a colon. *)
Lemma static_category_no_colon :
  Forall (fun p => hasColon (category p) = false) (patterns engine).
Proof.
  assert (H : forallb (fun p => negb (hasColon (category p))) (patterns engine) = true)
    by (vm_compute; reflexivity).
  apply forallb_Forall in H. eapply Forall_impl; [|exact H].
  intros p. apply negb_true_iff.
Qed.

(** Two patterns with the same key have the same term and the same
    category, when neither term or neither category contains a colon. *)
Lemma keyOf_injective (p q : CompiledPattern) :
  (hasColon (term p) = false /\ hasColon (term q) = false)
  \/ (hasColon (category p) = false /\ hasColon (category q) = false) ->
  keyOf p = keyOf q -> term p = term q /\ category p = category q.
Proof.
  unfold keyOf. intros [[Hp Hq]|[Hp Hq]] Heq.
  - exact (key_split _ _ _ _ Hp Hq Heq).
  - exact (key_split_last _ _ _ _ Hp Hq Heq).
Qed.

(** * The claims *)

(** C1 (amended). The pattern compiled for a term that begins and ends
    with a word character keeps the term as registered and, at rest, matches
    exactly the inputs in which the term occurs up to case between non-word
    characters or the ends of the input; every static pattern of a reachable
    engine is such a pattern, and for it "up to case" is the case of ASCII;
    and every entry [translate] reports is the stored entry of a pattern
    that matched, with the casing of the dictionary or of the
    registration. *)
Theorem word_pattern_matches :
  (forall (t m : JSString) (c : LinguisticCategory) (p : CompiledPattern),
      compilePattern t m c = Some p -> wordEdged t = true ->
      term p = t /\ forall input, matches p input = true <-> occursBounded t input)
  /\ (forall (e : LinguisticsEngine) (p : CompiledPattern) (input : JSString),
        Reachable e -> In p (patterns e) ->
        wordEdged (term p) = true
        /\ (matches p input = true <-> occursBoundedAscii (term p) input))
  /\ (forall (e : LinguisticsEngine) (input : JSString) (x : LinguisticTerm),
        In x (terms (fst (translate e input))) ->
        exists p,
          (In p (patterns e) \/ In p (map snd (dynamicPatterns e)))
          /\ matches p input = true /\ x = entryOf p).
Proof.
  split; [|split].
  - intros t m c p Hc Hw. rewrite compilePattern_eq in Hc. injection Hc as <-.
    split; [reflexivity|]. intros input. apply test_occursBounded. assumption.
  - intros e p input He Hp. split.
    + exact (proj2 (@Reachable_static_wellFormed _ _ He Hp)).
    + exact (@static_matches_ascii e p input He Hp).
  - exact translate_terms_from.
Qed.

(** C2. The static list is the dictionary, every entry compiled once, sorted
    by descending term length, when the engine is built and in every state
    the engine reaches; and the list [translate] returns is, first, the
    entries of the dictionary whose term occurs in the input, all of them,
    no shorter term before a longer one, and then entries of dynamic
    patterns. *)
Theorem static_sorted_and_first :
  StronglySorted (fun a b => longerFirst (term a) (term b)) (patterns engine)
  /\ Permutation (patterns engine) (map compiled dbEntries)
  /\ (forall e : LinguisticsEngine,
        Reachable e ->
        StronglySorted (fun a b => longerFirst (term a) (term b)) (patterns e)
        /\ Permutation (patterns e) (map compiled dbEntries))
  /\ (forall (e : LinguisticsEngine) (input : JSString),
        Reachable e ->
        exists l1 l2,
          terms (fst (translate e input)) = l1 ++ l2
          /\ StronglySorted (fun x y => longerFirst (lt_term x) (lt_term y)) l1
          /\ (forall x, In x l1 <->
                exists t m c,
                  In (t, m, c) dbEntries /\ occursBoundedAscii t input
                  /\ x = mkTerm t m c)
          /\ (forall x, In x l1 ->
                exists p, In p (patterns e) /\ matches p input = true /\ x = entryOf p)
          /\ (forall p, In p (patterns e) -> matches p input = true -> In (entryOf p) l1)
          /\ (forall x, In x l2 ->
                exists p, In p (map snd (dynamicPatterns e)) /\ matches p input = true
                          /\ x = entryOf p)).
Proof.
  split; [exact engine_sorted|]. split; [exact engine_Permutation|]. split.
  - intros e He. apply Reachable_inv in He as (-> & _).
    split; [exact engine_sorted | exact engine_Permutation].
  - intros e input He. destruct input as [|c input].
    + exists [], []. split; [reflexivity|]. split; [constructor|].
      split; [|split; [intros ? []|split; [|intros ? []]]].
      * split; [intros []|]. intros (t & m & cat & Hdb & Hocc & _).
        pose proof (@Reachable_static e (t, m, cat) He Hdb) as Hp.
        destruct (@Reachable_static_wellFormed _ _ He Hp) as [Hwf _].
        pose proof (proj2 (@static_matches_ascii e _ [] He Hp) Hocc) as Hm.
        rewrite (@matches_empty _ Hwf) in Hm. discriminate.
      * intros p Hp Hm. destruct (@Reachable_static_wellFormed _ _ He Hp) as [Hwf _].
        rewrite (@matches_empty _ Hwf) in Hm. discriminate.
    + destruct (@translate_terms e (c :: input)) as (l2 & Hl & Hfrom & _); [discriminate|].
      exists (found (pass (c :: input) (patterns e) (mkFound [] []))), l2.
      split; [assumption|]. split; [|split; [|split; [|split]]].
      * apply pass_sorted; [|constructor|intros ? ? []].
        pose proof (Reachable_inv He) as (-> & _). exact engine_sorted.
      * intros x. exact (@static_pass_entries e (c :: input) x He).
      * destruct (pass_spec (c :: input) (patterns e) Coherent_empty)
          as (l1 & -> & Hfrom1 & _). exact Hfrom1.
      * intros p Hp Hm. apply static_recorded; auto using Reachable_inv.
      * exact Hfrom.
Qed.

(** C3. The list [translate] returns has no two entries with the same term
    and category, whatever the state of the engine; on ["cap cap cap"] every
    reachable engine returns the entry of ["cap"] (GEN_Z) once and no other
    entry with that term and category, and the new engine returns that
    entry alone. *)
Theorem translate_no_duplicates :
  (forall (e : LinguisticsEngine) (input : JSString),
      NoDup (map pairOf (terms (fst (translate e input)))))
  /\ (forall e : LinguisticsEngine,
        Reachable e ->
        exists l1 l2,
          terms (fst (translate e (codes "cap cap cap"))) = l1 ++ capEntry :: l2
          /\ forall x, In x (l1 ++ l2) -> pairOf x <> pairOf capEntry)
  /\ terms (fst (translate engine (codes "cap cap cap"))) = [capEntry].
Proof.
  split; [exact translate_pairs_NoDup|]. split; [|vm_compute; reflexivity].
  intros e He.
  assert (Hin : In capEntry (terms (fst (translate e (codes "cap cap cap"))))).
  { apply (@translate_static e (codes "cap cap cap")
             (compiled (codes "cap", codes "lie", codes "GEN_Z"))).
    - apply Reachable_inv. assumption.
    - discriminate.
    - apply Reachable_static; [assumption|]. apply entryIn_In. vm_compute. reflexivity.
    - vm_compute. reflexivity. }
  pose proof (translate_pairs_NoDup e (codes "cap cap cap")) as Hnd.
  apply in_split in Hin as (l1 & l2 & Heq). exists l1, l2. split; [assumption|].
  rewrite Heq, map_app in Hnd. simpl in Hnd. apply NoDup_remove_2 in Hnd.
  intros x Hx Hpair. apply Hnd. rewrite <- map_app, <- Hpair. apply in_map. assumption.
Qed.

(** C4. [translate] hands the input back unchanged, both as [translatedText]
    and as [original], for the empty input too. *)
Theorem translate_passthrough (e : LinguisticsEngine) (input : JSString) :
  translatedText (fst (translate e input)) = input
  /\ original (fst (translate e input)) = input.
Proof.
  destruct input as [|x input]; [split; reflexivity|].
  rewrite translate_nonempty by discriminate. split; reflexivity.
Qed.

(** C5 (amended). On a non-empty input the confidence is
    [Math.min(1, 0.7 + n * 0.05)], in binary64 arithmetic, for the number
    [n] of entries returned, which is the number of distinct keys
    [term + ":" + category] among the matched patterns; on the empty input
    it is [1].  In every case it lies between [0.7] and [1]; as a function
    of [n] the formula is non-decreasing and gives exactly [1] from [n = 6]
    on. *)
Theorem confidence_contract :
  (forall (e : LinguisticsEngine) (input : JSString),
      input <> [] ->
      confidence (fst (translate e input))
      = Math_min 1%float
          (num_0_7 + numberOfNat (length (terms (fst (translate e input)))) * num_0_05)%float)
  /\ (forall e : LinguisticsEngine, confidence (fst (translate e [])) = 1%float)
  /\ (forall (e : LinguisticsEngine) (input : JSString),
        PrimFloat.leb num_0_7 (confidence (fst (translate e input))) = true
        /\ PrimFloat.leb (confidence (fst (translate e input))) 1%float = true)
  /\ (forall n k : nat,
        n <= k -> PrimFloat.leb (confidenceOf n) (confidenceOf k) = true)
  /\ (forall n : nat, 6 <= n -> confidenceOf n = 1%float)
  /\ (forall (e : LinguisticsEngine) (input : JSString),
        input <> [] ->
        length (terms (fst (translate e input))) = distinctKeys e input
        /\ confidence (fst (translate e input))
           = Math_min 1%float
               (num_0_7 + numberOfNat (distinctKeys e input) * num_0_05)%float).
Proof.
  split; [exact translate_confidence|]. split; [reflexivity|].
  split; [|split; [exact confidenceOf_monotone | split; [exact confidenceOf_cap|]]].
  - intros e input. destruct input as [|c input]; [split; reflexivity|].
    rewrite translate_confidence by discriminate. apply confidenceOf_bounds.
  - intros e input Hne. split; [exact (@translate_length e input Hne)|].
    rewrite (@translate_confidence e input Hne), (@translate_length e input Hne).
    reflexivity.
Qed.

(** C6. When a term listed by the dictionary under two categories occurs in
    the input, the result of [translate] on a reachable engine has one entry
    for each of the two categories, each with the meaning the dictionary
    gives under that category. *)
Theorem cross_category_entries (e : LinguisticsEngine) (input t m1 m2 : JSString)
  (c1 c2 : LinguisticCategory) :
  Reachable e ->
  In (t, m1, c1) dbEntries -> In (t, m2, c2) dbEntries -> c1 <> c2 ->
  occursBounded t input ->
  In (mkTerm t m1 c1) (terms (fst (translate e input)))
  /\ In (mkTerm t m2 c2) (terms (fst (translate e input)))
  /\ mkTerm t m1 c1 <> mkTerm t m2 c2.
Proof.
  intros He H1 H2 Hc Hocc.
  assert (Hrec : forall m c, In (t, m, c) dbEntries ->
                   In (mkTerm t m c) (terms (fst (translate e input)))).
  { intros m c Hin. pose proof (@Reachable_static _ _ He Hin) as Hp.
    destruct (@Reachable_static_wellFormed _ _ He Hp) as [Hwf Hw].
    assert (Hm : matches (compiled (t, m, c)) input = true).
    { rewrite (@matches_wellFormed _ input Hwf). apply test_occursBounded; assumption. }
    assert (Hne : input <> []).
    { intros ->. rewrite (@matches_empty _ Hwf) in Hm. discriminate. }
    exact (@translate_static _ _ _ (Reachable_inv He) Hne Hp Hm). }
  split; [auto|]. split; [auto|]. congruence.
Qed.

(** C7. On the empty input [translate] returns the empty result with
    confidence [1] whatever the state of the engine, and no pattern is
    tested: the engine is returned as it was, with the [lastIndex] of each
    of its regular expressions, whereas an iteration of either loop leaves
    the [lastIndex] of the pattern it tests at [0]. *)
Theorem translate_empty :
  (forall e : LinguisticsEngine, translate e [] = (mkResult [] [] 1%float [], e))
  /\ (forall (input : JSString) (p : CompiledPattern) (acc : Found),
        lastIndex (regex (fst (visit input p acc))) = 0).
Proof.
  split.
  - intros e. reflexivity.
  - intros input p acc. rewrite visit_fst. reflexivity.
Qed.

(** C8 (amended). [addDynamicTerm] with the empty term does not throw; it
    stores under the key [""] a pattern with the empty term, whose matcher
    [\b\b] succeeds on exactly the inputs that contain a word character, and
    on such an input [translate] on the new state returns an entry under the
    key of that pattern, [":" + category]. *)
Theorem addDynamicTerm_empty_term (e : LinguisticsEngine) (m : JSString)
  (c : LinguisticCategory) :
  exists e',
    addDynamicTerm e [] m c = Some e'
    /\ patterns e' = patterns e
    /\ dynamicPatterns e' = mapSet [] (compiled ([], m, c)) (dynamicPatterns e)
    /\ In ([], compiled ([], m, c)) (dynamicPatterns e')
    /\ entryOf (compiled ([], m, c)) = mkTerm [] m c
    /\ (forall input,
          matches (compiled ([], m, c)) input = true <-> existsb isWordChar input = true)
    /\ (forall input,
          existsb isWordChar input = true ->
          In (58%Z :: c) (map entryKey (terms (fst (translate e' input))))).
Proof.
  rewrite addDynamicTerm_eq, toLowerCase_empty.
  eexists. split; [reflexivity|]. cbn [patterns dynamicPatterns].
  split; [reflexivity|]. split; [reflexivity|].
  split; [apply mapSet_stored|]. split; [reflexivity|].
  split; [intros input; apply matches_empty_term|].
  intros input Hw.
  apply (@translate_dynamic_key _ input (compiled ([], m, c))).
  - cbn [dynamicPatterns]. apply in_map_iff. exists ([], compiled ([], m, c)).
    split; [reflexivity | apply mapSet_stored].
  - apply matches_empty_term. assumption.
  - intros ->. discriminate.
Qed.

(** C9. A call of [translate] on a reachable engine leaves the engine as it
    was, every [lastIndex] at [0], so that a second call with the same input
    returns the same result. *)
Theorem translate_idempotent (e : LinguisticsEngine) (input : JSString) :
  Reachable e ->
  snd (translate e input) = e
  /\ fst (translate (snd (translate e input)) input) = fst (translate e input).
Proof.
  intros He. apply Reachable_inv in He. destruct (EngineInv_atRest He) as [Hs Hd].
  assert (H : snd (translate e input) = e) by (apply translate_at_rest; assumption).
  rewrite H. split; reflexivity.
Qed.

(** C10 (amended). On a reachable engine let a dynamic pattern have the
    lower-cased term of a static pattern and differ in term or in category
    from every static pattern with that lower-cased term, and let the input
    be one both patterns match.  If every pattern of the engine that matches
    the input and has the key of the dynamic pattern has its term and its
    category, which is so when no dynamic term contains a colon and when no
    dynamic category does, then [translate] returns the entry of the static
    pattern and, after it, the entry of the dynamic pattern. *)
Theorem dynamic_variant_recorded (e : LinguisticsEngine) (input : JSString)
  (s d : CompiledPattern) (kd : JSString) :
  Reachable e ->
  In s (patterns e) -> In (kd, d) (dynamicPatterns e) ->
  ((forall q, In q (map snd (dynamicPatterns e)) -> hasColon (term q) = false)
   \/ (forall q, In q (map snd (dynamicPatterns e)) -> hasColon (category q) = false)
   \/ (forall q, In q (patterns e) \/ In q (map snd (dynamicPatterns e)) ->
                 matches q input = true -> keyOf q = keyOf d ->
                 term q = term d /\ category q = category d)) ->
  toLowerCase (term d) = toLowerCase (term s) ->
  (forall s', In s' (patterns e) -> toLowerCase (term s') = toLowerCase (term d) ->
              term s' <> term d \/ category s' <> category d) ->
  matches s input = true -> matches d input = true ->
  exists l1 l2,
    terms (fst (translate e input)) = l1 ++ l2
    /\ In (entryOf s) l1 /\ In (entryOf d) l2.
Proof.
  intros He Hs Hd Hcolon Hlow Hdiff Hms Hmd.
  pose proof (Reachable_inv He) as Hinv.
  assert (Hne : input <> []).
  { intros ->. destruct (@Reachable_static_wellFormed _ _ He Hs) as [Hwf _].
    rewrite (@matches_empty _ Hwf) in Hms. discriminate. }
  assert (Hdv : In d (map snd (dynamicPatterns e))).
  { apply in_map_iff. exists (kd, d). auto. }
  assert (Hkey : forall q, In q (patterns e) \/ In q (map snd (dynamicPatterns e)) ->
                           matches q input = true -> keyOf q = keyOf d ->
                           term q = term d /\ category q = category d).
  { destruct Hcolon as [Hc|[Hc|Hc]]; [| |exact Hc]; intros q Hq _ Hx;
      (apply keyOf_injective; [|exact Hx]); [left | right]; split;
      try exact (Hc d Hdv);
      (destruct Hq as [Hq|Hq]; [|exact (Hc q Hq)]);
      (assert (Hqe : In q (patterns engine))
         by (destruct Hinv as (Hp & _); rewrite <- Hp; exact Hq)).
    - pose proof static_no_colon as Hnc. rewrite Forall_forall in Hnc. exact (Hnc q Hqe).
    - pose proof static_category_no_colon as Hnc. rewrite Forall_forall in Hnc.
      exact (Hnc q Hqe). }
  destruct (@translate_terms e input Hne) as (l2 & Hl & Hfrom & Hkeys & _).
  exists (found (pass input (patterns e) (mkFound [] []))), l2.
  split; [assumption|]. split; [apply static_recorded; assumption|].
  specialize (Hkeys d Hdv Hmd). rewrite Hl, map_app, in_app_iff in Hkeys.
  destruct Hkeys as [Hk|Hk]; apply in_map_iff in Hk as (x & Hx & Hxin).
  - exfalso.
    destruct (pass_spec input (patterns e) Coherent_empty) as (l1 & Hl1 & Hfrom1 & _).
    rewrite Hl1 in Hxin. cbn [found app] in Hxin.
    destruct (Hfrom1 x Hxin) as (q & Hq & Hmq & ->). rewrite keyOf_entryOf in Hx.
    destruct (Hkey q (or_introl Hq) Hmq Hx) as [Ht Hc].
    destruct (Hdiff q Hq) as [H|H]; [rewrite Ht; reflexivity | |]; contradiction.
  - destruct (Hfrom x Hxin) as (q & Hq & Hmq & ->). rewrite keyOf_entryOf in Hx.
    destruct (Hkey q (or_intror Hq) Hmq Hx) as [Ht Hc].
    apply in_map_iff in Hq as ([kq q'] & Hq' & Hq). cbn in Hq'. subst q'.
    destruct Hinv as (_ & Hstore & Hnd). rewrite Forall_forall in Hstore.
    destruct (Hstore _ Hq) as [_ Hkq]. destruct (Hstore _ Hd) as [_ Hkd].
    cbn in Hkq, Hkd. rewrite Ht in Hkq. rewrite <- Hkd in Hkq. subst kq.
    rewrite (NoDup_fst_eq _ _ _ _ Hnd Hq Hd) in Hxin. assumption.
Qed.

(** * Further properties of the engine *)

(** ** Inputs without a word character *)

Lemma lastFrom_wordless (l : JSString) :
  forall prev, isWordAt prev = false -> existsb isWordChar l = false ->
    isWordAt (lastFrom prev l) = false.
Proof.
  induction l as [|x l IH]; intros prev Hp Hl; [exact Hp|].
  cbn [existsb] in Hl. apply orb_false_iff in Hl as [Hx Hl].
  rewrite lastFrom_cons. apply IH; assumption.
Qed.

Lemma wordless_split (pre rest : JSString) :
  existsb isWordChar (pre ++ rest) = false ->
  isWordAt (lastOf pre) = false /\ isWordAt (hd_error rest) = false.
Proof.
  rewrite existsb_app. intros H. apply orb_false_iff in H as [Hp Hr]. split.
  - apply lastFrom_wordless; [reflexivity | assumption].
  - destruct rest as [|x rest]; [reflexivity|].
    cbn [existsb] in Hr. apply orb_false_iff in Hr as [Hx _]. exact Hx.
Qed.

(** No pattern of the engine matches an input without a word character,
    since every pattern begins with [\b]. *)
Lemma wordless_no_match (p : CompiledPattern) (input : JSString) :
  wellFormed p -> existsb isWordChar input = false -> matches p input = false.
Proof.
  intros Hwf Hw. rewrite (@matches_wellFormed _ input Hwf).
  destruct (fst (test (mkRegExp (wordProgram (term p)) 0) input)) eqn:Ht; [|reflexivity].
  apply test_wordProgram in Ht as (pre & mid & post & -> & _ & Hx & _).
  apply wordless_split in Hw as [H1 H2]. rewrite H1, H2 in Hx. discriminate.
Qed.

Lemma Reachable_dynamic_wellFormed (e : LinguisticsEngine) (p : CompiledPattern) :
  Reachable e -> In p (map snd (dynamicPatterns e)) -> wellFormed p.
Proof.
  intros He Hp. apply Reachable_inv in He as (_ & Hd & _).
  rewrite Forall_forall in Hd. apply in_map_iff in Hp as (kp & <- & Hkp).
  exact (proj1 (Hd kp Hkp)).
Qed.

(** X1. On a non-empty input without a word character (spaces and
    punctuation only) a reachable engine reports no term, and the confidence
    is [0.7], not the [1] of the empty input. *)
Theorem translate_wordless (e : LinguisticsEngine) (input : JSString) :
  Reachable e -> input <> [] -> existsb isWordChar input = false ->
  terms (fst (translate e input)) = []
  /\ confidence (fst (translate e input)) = num_0_7.
Proof.
  intros He Hne Hw.
  assert (Ht : terms (fst (translate e input)) = []).
  { destruct (terms (fst (translate e input))) as [|x l] eqn:Heq; [reflexivity|].
    exfalso.
    destruct (@translate_terms_from e input x) as (p & Hp & Hm & _);
      [rewrite Heq; left; reflexivity|].
    assert (Hwf : wellFormed p).
    { destruct Hp as [Hp|Hp].
      - exact (proj1 (@Reachable_static_wellFormed _ _ He Hp)).
      - exact (@Reachable_dynamic_wellFormed _ _ He Hp). }
    rewrite (@wordless_no_match _ _ Hwf Hw) in Hm. discriminate. }
  split; [exact Ht|].
  rewrite translate_confidence by assumption. rewrite Ht. reflexivity.
Qed.

(** ** The letter case of the input *)

Section Recase.

(** A change of the code units of the input that keeps what the matcher
    looks at: the canonical form of a code unit and whether it is a word
    character. *)
Variable f : Z -> Z.
Hypothesis f_canonical : forall x, Canonicalize (f x) = Canonicalize x.
Hypothesis f_word : forall x, isWordChar (f x) = isWordChar x.

Lemma isWordAt_recase (c : option Z) : isWordAt (option_map f c) = isWordAt c.
Proof. destruct c as [x|]; [exact (f_word x) | reflexivity]. Qed.

Lemma matchNodes_recase (ns : list Node) :
  forall prev rest,
    matchNodes ns (option_map f prev) (map f rest) = matchNodes ns prev rest.
Proof.
  induction ns as [|[|c] ns IH]; intros prev rest; cbn [matchNodes]; [reflexivity| |].
  - rewrite isWordAt_recase, IH.
    replace (hd_error (map f rest)) with (option_map f (hd_error rest))
      by (destruct rest; reflexivity).
    rewrite isWordAt_recase. reflexivity.
  - destruct rest as [|x rest]; [reflexivity|]. cbn [map].
    rewrite f_canonical. rewrite <- (IH (Some x) rest). reflexivity.
Qed.

Lemma scanFrom_recase (ns : list Node) (rest : JSString) :
  forall prev i,
    scanFrom ns (option_map f prev) (map f rest) i = scanFrom ns prev rest i.
Proof.
  induction rest as [|x rest IH]; intros prev i; cbn [scanFrom map].
  - rewrite <- (matchNodes_recase ns prev []). reflexivity.
  - rewrite <- (IH (Some x) (S i)).
    rewrite <- (matchNodes_recase ns prev (x :: rest)). reflexivity.
Qed.

Lemma charBefore_recase (input : JSString) (i : nat) :
  charBefore (map f input) i = option_map f (charBefore input i).
Proof.
  destruct i as [|j]; [reflexivity|]. cbn [charBefore]. apply nth_error_map.
Qed.

Lemma test_recase (r : RegExp) (input : JSString) :
  test r (map f input) = test r input.
Proof.
  unfold test. rewrite length_map, charBefore_recase, skipn_map, scanFrom_recase.
  reflexivity.
Qed.

Lemma visitAll_recase (input : JSString) (ps : list CompiledPattern) :
  forall acc, visitAll (map f input) ps acc = visitAll input ps acc.
Proof.
  induction ps as [|p ps IH]; intros acc; cbn [visitAll]; [reflexivity|].
  unfold visit. rewrite test_recase.
  destruct (test (regex p) input) as [[|] r]; rewrite IH; reflexivity.
Qed.

Lemma translate_recase (e : LinguisticsEngine) (input : JSString) :
  terms (fst (translate e (map f input))) = terms (fst (translate e input))
  /\ confidence (fst (translate e (map f input))) = confidence (fst (translate e input))
  /\ snd (translate e (map f input)) = snd (translate e input).
Proof.
  destruct input as [|x input]; [repeat split|].
  unfold translate. cbn [map]. change (f x :: map f input) with (map f (x :: input)).
  rewrite visitAll_recase.
  destruct (visitAll (x :: input) (patterns e) (mkFound [] [])) as [ps acc1].
  rewrite visitAll_recase.
  destruct (visitAll (x :: input) (map snd (dynamicPatterns e)) acc1) as [ds acc2].
  repeat split.
Qed.

End Recase.

Lemma asciiUpper_canonical (x : Z) : Canonicalize (asciiUpper x) = Canonicalize x.
Proof.
  destruct (isAscii x) eqn:Ha.
  - assert (Hu : isAscii (asciiUpper x) = true).
    { unfold isAscii, asciiUpper in *. zbool. }
    rewrite (@Canonicalize_ascii _ Hu), (@Canonicalize_ascii _ Ha).
    unfold asciiUpper. zbool.
  - replace (asciiUpper x) with x; [reflexivity|].
    unfold isAscii, asciiUpper in *. zbool.
Qed.

Lemma asciiLower_canonical (x : Z) : Canonicalize (asciiLower x) = Canonicalize x.
Proof.
  destruct (isAscii x) eqn:Ha.
  - assert (Hu : isAscii (asciiLower x) = true).
    { unfold isAscii, asciiLower in *. zbool. }
    rewrite (@Canonicalize_ascii _ Hu), (@Canonicalize_ascii _ Ha).
    unfold asciiUpper, asciiLower. zbool.
  - replace (asciiLower x) with x; [reflexivity|].
    unfold isAscii, asciiLower in *. zbool.
Qed.

Lemma asciiUpper_isWordChar (x : Z) : isWordChar (asciiUpper x) = isWordChar x.
Proof.
  apply eq_true_iff_eq. rewrite !isWordChar_iff. unfold asciiUpper.
  destruct (Z.leb_spec 97 x), (Z.leb_spec x 122); cbn [andb]; lia.
Qed.

Lemma asciiLower_isWordChar (x : Z) : isWordChar (asciiLower x) = isWordChar x.
Proof.
  apply eq_true_iff_eq. rewrite !isWordChar_iff. unfold asciiLower.
  destruct (Z.leb_spec 65 x), (Z.leb_spec x 90); cbn [andb]; lia.
Qed.

(** X2. The entries and the confidence [translate] returns do not depend on
    the case of the ASCII letters of the input, whatever the state of the
    engine: they are the same for the input with its letters [a-z] in upper
    case, with its letters [A-Z] in lower case and, for an input in ASCII,
    for [input.toLowerCase()]. *)
Theorem translate_input_case (e : LinguisticsEngine) (input : JSString) :
  (terms (fst (translate e (map asciiUpper input))) = terms (fst (translate e input))
   /\ confidence (fst (translate e (map asciiUpper input)))
      = confidence (fst (translate e input)))
  /\ (terms (fst (translate e (map asciiLower input))) = terms (fst (translate e input))
      /\ confidence (fst (translate e (map asciiLower input)))
         = confidence (fst (translate e input)))
  /\ (forallb isAscii input = true ->
      terms (fst (translate e (toLowerCase input))) = terms (fst (translate e input))).
Proof.
  pose proof (@translate_recase asciiUpper asciiUpper_canonical asciiUpper_isWordChar e input)
    as (Hu1 & Hu2 & _).
  pose proof (@translate_recase asciiLower asciiLower_canonical asciiLower_isWordChar e input)
    as (Hl1 & Hl2 & _).
  split; [split; assumption|]. split; [split; assumption|].
  intros Ha. unfold toLowerCase. rewrite Ha. exact Hl1.
Qed.

(** ** Registering terms *)

Lemma mapSet_mapSet (V : Type) (k : JSString) (v1 v2 : V) (m : list (JSString * V)) :
  mapSet k v2 (mapSet k v1 m) = mapSet k v2 m.
Proof.
  induction m as [|[k' v'] m IH]; cbn [mapSet].
  - rewrite str_eqb_refl. reflexivity.
  - destruct (str_eqb k' k) eqn:Hk; cbn [mapSet].
    + rewrite str_eqb_refl. reflexivity.
    + rewrite Hk, IH. reflexivity.
Qed.

(** X3. Registering a term whose lower-cased form is already registered
    replaces the earlier registration and leaves nothing of it: the engine
    is the one the second registration alone would have given. *)
Theorem addDynamicTerm_replaces (e e1 : LinguisticsEngine) (t1 m1 t2 m2 : JSString)
  (c1 c2 : LinguisticCategory) :
  toLowerCase t1 = toLowerCase t2 ->
  addDynamicTerm e t1 m1 c1 = Some e1 ->
  addDynamicTerm e1 t2 m2 c2 = addDynamicTerm e t2 m2 c2.
Proof.
  intros Hk H1. rewrite addDynamicTerm_eq in H1. injection H1 as <-.
  rewrite !addDynamicTerm_eq. cbn [patterns dynamicPatterns].
  rewrite Hk, mapSet_mapSet. reflexivity.
Qed.

Lemma mapGet_mapSet (V : Type) (k k0 : JSString) (v : V) (m : list (JSString * V)) :
  mapGet k0 (mapSet k v m) = if str_eqb k k0 then Some v else mapGet k0 m.
Proof.
  induction m as [|[k' v'] m IH]; cbn [mapSet mapGet]; [reflexivity|].
  destruct (str_eqb k' k) eqn:Hk; cbn [mapGet].
  - apply str_eqb_eq in Hk. subst k'. destruct (str_eqb k k0); reflexivity.
  - rewrite IH. destruct (str_eqb k' k0) eqn:Hk0; [|reflexivity].
    apply str_eqb_eq in Hk0. subst k'.
    destruct (str_eqb k k0) eqn:Hkk; [|reflexivity].
    apply str_eqb_eq in Hkk. subst k0. rewrite str_eqb_refl in Hk. discriminate.
Qed.

Lemma mapGet_None (V : Type) (k : JSString) (m : list (JSString * V)) :
  ~ In k (map fst m) -> mapGet k m = None.
Proof.
  induction m as [|[k' v'] m IH]; cbn [mapGet map fst]; [reflexivity|].
  intros Hn. destruct (str_eqb k' k) eqn:Hk.
  - apply str_eqb_eq in Hk. exfalso. apply Hn. left. assumption.
  - apply IH. intros Hin. apply Hn. right. assumption.
Qed.

Lemma mapSet_keys_present (V : Type) (k : JSString) (v : V) (m : list (JSString * V)) :
  In k (map fst m) -> map fst (mapSet k v m) = map fst m.
Proof.
  induction m as [|[k' v'] m IH]; cbn [mapSet map fst]; [intros []|].
  intros Hin. destruct (str_eqb k' k) eqn:Hk; cbn [map fst].
  - apply str_eqb_eq in Hk. subst k'. reflexivity.
  - f_equal. apply IH. destruct Hin as [Heq|Hin]; [|assumption].
    subst k'. rewrite str_eqb_refl in Hk. discriminate.
Qed.

(** Two maps with the same keys in the same order and the same value under
    each key are equal. *)
Lemma map_extensional (V : Type) (a : list (JSString * V)) :
  forall b,
    NoDup (map fst a) -> map fst a = map fst b ->
    (forall k, mapGet k a = mapGet k b) -> a = b.
Proof.
  induction a as [|[k v] a IH]; intros [|[k' v'] b] Hnd Hkeys Hget;
    try discriminate; [reflexivity|].
  cbn [map fst] in Hkeys, Hnd. injection Hkeys as <- Hkeys.
  apply NoDup_cons_iff in Hnd as [Hk Hnd].
  pose proof (Hget k) as Hv. cbn [mapGet] in Hv. rewrite str_eqb_refl in Hv.
  injection Hv as <-. f_equal. apply IH; [assumption | assumption |].
  intros k0. specialize (Hget k0). cbn [mapGet] in Hget.
  destruct (str_eqb k k0) eqn:Hk0; [|assumption].
  apply str_eqb_eq in Hk0. subst k0.
  rewrite (mapGet_None _ _ Hk).
  rewrite Hkeys in Hk. rewrite (mapGet_None _ _ Hk). reflexivity.
Qed.

Lemma loadDynamicTerms_eq (l : list (JSString * JSString * LinguisticCategory)) :
  forall e,
    loadDynamicTerms e l = Some (mkEngine (patterns e) (loadAll l (dynamicPatterns e))).
Proof.
  induction l as [|[[t m] c] l IH]; intros e; cbn [loadDynamicTerms].
  - destruct e. reflexivity.
  - rewrite addDynamicTerm_eq, IH. reflexivity.
Qed.

Lemma loadAll_cons (x : JSString * JSString * LinguisticCategory)
  (l : list (JSString * JSString * LinguisticCategory))
  (d : list (JSString * CompiledPattern)) :
  loadAll (x :: l) d = loadAll l (mapSet (toLowerCase (fst (fst x))) (compiled x) d).
Proof. reflexivity. Qed.

Lemma loadAll_NoDup (l : list (JSString * JSString * LinguisticCategory)) :
  forall d, NoDup (map fst d) -> NoDup (map fst (loadAll l d)).
Proof.
  induction l as [|x l IH]; intros d Hd; [exact Hd|].
  rewrite loadAll_cons. apply IH, mapSet_NoDup, Hd.
Qed.

Lemma loadAll_keys_kept (l : list (JSString * JSString * LinguisticCategory)) (k : JSString) :
  forall d, In k (map fst d) -> In k (map fst (loadAll l d)).
Proof.
  induction l as [|x l IH]; intros d Hd; [exact Hd|].
  rewrite loadAll_cons. apply IH, mapSet_keys_In. right. exact Hd.
Qed.

Lemma loadAll_keys_added (l : list (JSString * JSString * LinguisticCategory)) :
  forall d x, In x l -> In (toLowerCase (fst (fst x))) (map fst (loadAll l d)).
Proof.
  induction l as [|y l IH]; intros d x Hin; [destruct Hin|].
  destruct Hin as [Hx|Hx].
  - subst y. rewrite loadAll_cons.
    apply loadAll_keys_kept, mapSet_keys_In. left. reflexivity.
  - rewrite loadAll_cons. apply IH. exact Hx.
Qed.

Lemma loadAll_keys_fixed (l : list (JSString * JSString * LinguisticCategory)) :
  forall d,
    (forall x, In x l -> In (toLowerCase (fst (fst x))) (map fst d)) ->
    map fst (loadAll l d) = map fst d.
Proof.
  induction l as [|y l IH]; intros d Hin; [reflexivity|].
  rewrite loadAll_cons, IH.
  - apply mapSet_keys_present, Hin. left. reflexivity.
  - intros x Hx. apply mapSet_keys_In. right. apply Hin. right. exact Hx.
Qed.

(** What is stored under a key after loading a list depends on the map
    before only when the list does not register the key. *)
Lemma mapGet_loadAll (l : list (JSString * JSString * LinguisticCategory)) (k : JSString) :
  forall d d',
    mapGet k d = mapGet k d'
    \/ In k (map (fun x => toLowerCase (fst (fst x))) l) ->
    mapGet k (loadAll l d) = mapGet k (loadAll l d').
Proof.
  induction l as [|y l IH]; intros d d' H.
  - destruct H as [H|[]]. exact H.
  - rewrite !loadAll_cons. apply IH.
    rewrite !mapGet_mapSet.
    destruct (str_eqb (toLowerCase (fst (fst y))) k) eqn:Hk; [left; reflexivity|].
    destruct H as [H|[H|H]]; [left; exact H | | right; exact H].
    rewrite H, str_eqb_refl in Hk. discriminate.
Qed.

Lemma mapGet_loadAll_other (l : list (JSString * JSString * LinguisticCategory)) (k : JSString) :
  forall d,
    ~ In k (map (fun x => toLowerCase (fst (fst x))) l) ->
    mapGet k (loadAll l d) = mapGet k d.
Proof.
  induction l as [|y l IH]; intros d Hn; [reflexivity|].
  rewrite loadAll_cons.
  rewrite IH by (intros Hin; apply Hn; right; exact Hin).
  rewrite mapGet_mapSet.
  destruct (str_eqb (toLowerCase (fst (fst y))) k) eqn:Hk; [|reflexivity].
  apply str_eqb_eq in Hk. exfalso. apply Hn. left. exact Hk.
Qed.

Lemma loadAll_twice (l : list (JSString * JSString * LinguisticCategory))
  (d : list (JSString * CompiledPattern)) :
  NoDup (map fst d) -> loadAll l (loadAll l d) = loadAll l d.
Proof.
  intros Hnd. apply map_extensional.
  - apply loadAll_NoDup, loadAll_NoDup, Hnd.
  - apply loadAll_keys_fixed. intros x Hx. apply loadAll_keys_added, Hx.
  - intros k.
    destruct (in_dec (list_eq_dec Z.eq_dec) k
                (map (fun x => toLowerCase (fst (fst x))) l)) as [Hin|Hout].
    + apply mapGet_loadAll. right. exact Hin.
    + apply mapGet_loadAll. left. apply mapGet_loadAll_other, Hout.
Qed.

Lemma loadAll_app (l1 l2 : list (JSString * JSString * LinguisticCategory))
  (d : list (JSString * CompiledPattern)) :
  loadAll (l1 ++ l2) d = loadAll l2 (loadAll l1 d).
Proof. apply fold_left_app. Qed.

(** X4. Loading a list of terms in two parts is loading the first part and
    then the second; and loading into a reachable engine a list that has
    just been loaded changes nothing, so that a second initialisation from
    the same rows is harmless. *)
Theorem loadDynamicTerms_again :
  (forall (e : LinguisticsEngine) (l1 l2 : list (JSString * JSString * LinguisticCategory)),
      loadDynamicTerms e (l1 ++ l2)
      = match loadDynamicTerms e l1 with
        | Some e1 => loadDynamicTerms e1 l2
        | None => None
        end)
  /\ (forall (e e1 : LinguisticsEngine) (l : list (JSString * JSString * LinguisticCategory)),
        Reachable e -> loadDynamicTerms e l = Some e1 ->
        loadDynamicTerms e1 l = Some e1).
Proof.
  split.
  - intros e l1 l2. rewrite !loadDynamicTerms_eq. cbn [patterns dynamicPatterns].
    rewrite loadAll_app. reflexivity.
  - intros e e1 l He H1. rewrite loadDynamicTerms_eq in H1. injection H1 as <-.
    rewrite loadDynamicTerms_eq. cbn [patterns dynamicPatterns].
    rewrite loadAll_twice; [reflexivity|].
    apply Reachable_inv in He as (_ & _ & Hnd). exact Hnd.
Qed.

(** ** Static and dynamic entries *)

Lemma pass_nil (input : JSString) (acc : Found) : pass input [] acc = acc.
Proof. reflexivity. Qed.

Lemma translate_engine_terms (input : JSString) :
  input <> [] ->
  terms (fst (translate engine input))
  = found (pass input (patterns engine) (mkFound [] [])).
Proof.
  intros Hne. rewrite translate_nonempty by assumption.
  cbv zeta. cbn [fst terms]. rewrite engine_dynamic. cbn [map].
  rewrite pass_nil. reflexivity.
Qed.

(** X5. What an engine has learned only adds to a result: on every input a
    reachable engine returns the entries the new engine returns, in the
    same order, followed by entries of dynamic patterns, and a confidence
    that is not lower. *)
Theorem translate_extends_static (e : LinguisticsEngine) (input : JSString) :
  Reachable e ->
  exists l2,
    terms (fst (translate e input)) = terms (fst (translate engine input)) ++ l2
    /\ (forall x, In x l2 ->
          exists p, In p (map snd (dynamicPatterns e)) /\ matches p input = true
                    /\ x = entryOf p)
    /\ PrimFloat.leb (confidence (fst (translate engine input)))
                     (confidence (fst (translate e input))) = true.
Proof.
  intros He. destruct input as [|c input].
  - exists []. repeat split. intros x [].
  - destruct (@translate_terms e (c :: input)) as (l2 & Hl & Hfrom & _); [discriminate|].
    exists l2. pose proof (Reachable_inv He) as (Hp & _).
    rewrite translate_engine_terms by discriminate.
    rewrite Hp in Hl. split; [exact Hl|]. split; [exact Hfrom|].
    rewrite !translate_confidence by discriminate.
    apply confidenceOf_monotone. rewrite Hl, translate_engine_terms by discriminate.
    rewrite length_app. lia.
Qed.

(** X6. A term registered on a reachable engine, when it occurs in the
    input: if the dictionary does not list the term under the category it
    was registered with, the entry registered is returned; if the dictionary
    lists it there, the entry of the dictionary is returned, and the entry
    registered is not, unless it has the meaning of the dictionary.  The
    term begins and ends with a word character, and no dynamic term
    contains a colon, or no dynamic category does. *)
Theorem dynamic_term_reported (e e' : LinguisticsEngine) (t m : JSString)
  (c : LinguisticCategory) (input : JSString) :
  Reachable e -> addDynamicTerm e t m c = Some e' ->
  wordEdged t = true ->
  ((forall q, In q (map snd (dynamicPatterns e')) -> hasColon (term q) = false)
   \/ (forall q, In q (map snd (dynamicPatterns e')) -> hasColon (category q) = false)) ->
  occursBounded t input ->
  ((forall m', ~ In (t, m', c) dbEntries) ->
   In (mkTerm t m c) (terms (fst (translate e' input))))
  /\ (forall m', In (t, m', c) dbEntries ->
        In (mkTerm t m' c) (terms (fst (translate e' input)))
        /\ (m' <> m -> ~ In (mkTerm t m c) (terms (fst (translate e' input))))).
Proof.
  intros He Hadd Hw Hcolon Hocc.
  assert (He' : Reachable e') by (exact (@Reachable_add e e' t m c He Hadd)).
  pose proof (Reachable_inv He') as Hinv.
  rewrite addDynamicTerm_eq in Hadd. injection Hadd as Hadd.
  set (d := compiled (t, m, c)) in *.
  assert (Hd : In (toLowerCase t, d) (dynamicPatterns e')).
  { rewrite <- Hadd. cbn [dynamicPatterns]. apply mapSet_stored. }
  assert (Hdv : In d (map snd (dynamicPatterns e'))).
  { apply in_map_iff. exists (toLowerCase t, d). auto. }
  assert (Hmd : matches d input = true).
  { rewrite (@matches_wellFormed d input (compiled_wellFormed (t, m, c))).
    apply test_occursBounded; assumption. }
  assert (Hne : input <> []).
  { intros ->. rewrite (@matches_empty d (compiled_wellFormed (t, m, c))) in Hmd.
    discriminate. }
  split.
  - intros Hnone.
    destruct (@translate_terms e' input Hne) as (l2 & Hl & Hfrom & Hkeys & _).
    specialize (Hkeys d Hdv Hmd). rewrite Hl, map_app, in_app_iff in Hkeys.
    destruct Hkeys as [Hk|Hk]; apply in_map_iff in Hk as (x & Hx & Hxin).
    + exfalso.
      destruct (pass_spec input (patterns e') Coherent_empty) as (l1 & Hl1 & Hfrom1 & _).
      rewrite Hl1 in Hxin. cbn [found app] in Hxin.
      destruct (Hfrom1 x Hxin) as (q & Hq & _ & ->). rewrite keyOf_entryOf in Hx.
      destruct Hinv as (Hp & _). rewrite Hp in Hq.
      assert (Hqt : hasColon (term q) = false).
      { pose proof static_no_colon as Hnc. rewrite Forall_forall in Hnc. exact (Hnc q Hq). }
      assert (Hqc : hasColon (category q) = false).
      { pose proof static_category_no_colon as Hnc. rewrite Forall_forall in Hnc.
        exact (Hnc q Hq). }
      assert (Hsame : term q = term d /\ category q = category d).
      { apply keyOf_injective; [|exact Hx].
        destruct Hcolon as [Hc|Hc]; [left | right]; split;
          first [assumption | exact (Hc d Hdv)]. }
      destruct Hsame as [Ht Hc].
      destruct (static_compiled Hq) as ([[t' m'] c'] & Hin & ->).
      cbn [compiled term category d] in Ht, Hc. subst t' c'.
      exact (Hnone m' Hin).
    + destruct (Hfrom x Hxin) as (q & Hq & _ & ->). rewrite keyOf_entryOf in Hx.
      assert (Hsame : term q = term d /\ category q = category d).
      { apply keyOf_injective; [|exact Hx].
        destruct Hcolon as [Hc|Hc]; [left | right]; split;
          first [exact (Hc q Hq) | exact (Hc d Hdv)]. }
      destruct Hsame as [Ht Hc].
      apply in_map_iff in Hq as ([kq q'] & Hq' & Hq). cbn in Hq'. subst q'.
      destruct Hinv as (_ & Hstore & Hnd). rewrite Forall_forall in Hstore.
      destruct (Hstore _ Hq) as [_ Hkq]. destruct (Hstore _ Hd) as [_ Hkd].
      cbn [fst snd] in Hkq, Hkd. rewrite Ht in Hkq. rewrite <- Hkd in Hkq. subst kq.
      rewrite (NoDup_fst_eq _ _ _ _ Hnd Hq Hd) in Hxin.
      rewrite Hl. apply in_or_app. right. exact Hxin.
  - intros m' Hdb.
    assert (Hs : In (entryOf (compiled (t, m', c))) (terms (fst (translate e' input)))).
    { apply (@translate_static e' input (compiled (t, m', c)) Hinv Hne).
      - exact (@Reachable_static e' (t, m', c) He' Hdb).
      - rewrite (@matches_wellFormed _ input (compiled_wellFormed (t, m', c))).
        apply test_occursBounded; assumption. }
    split; [exact Hs|].
    intros Hm Hin. apply Hm.
    pose proof (@NoDup_map_eq _ _ pairOf _ (mkTerm t m' c) (mkTerm t m c)
                  (translate_pairs_NoDup e' input) Hs Hin eq_refl) as Heq.
    congruence.
Qed.

(** ** [getRandomTerm] *)

Unset Implicit Arguments.
Local Open Scope Z_scope.

Lemma shifted_shr_1 (m0 k : Z) (mrs : shr_record) :
  0 <= k -> shifted m0 k mrs -> shifted m0 (k + 1) (shr_1 mrs).
Proof.
  intros Hk (Hm & rem & Heq & Hrem & Hr).
  assert (Hp : 0 < 2 ^ k) by (apply Z.pow_pos_nonneg; lia).
  unfold shifted. rewrite Z.pow_add_r, Z.pow_1_r by lia.
  destruct mrs as [m r s]. cbn [shr_m shr_r] in *.
  destruct m as [|p|p]; [| |lia].
  - cbn [shr_1 shr_m shr_r]. split; [lia|]. exists rem. repeat split; try lia; try discriminate.
  - destruct p as [p|p|]; cbn [shr_1 shr_m shr_r]; (split; [lia|]).
    + exists (2 ^ k + rem). rewrite (Pos2Z.inj_xI p) in Heq. repeat split; lia.
    + exists rem. rewrite (Pos2Z.inj_xO p) in Heq. repeat split; try lia; try discriminate.
    + exists (2 ^ k + rem). repeat split; lia.
Qed.

Lemma shifted_iter (m0 : Z) (p : positive) :
  forall mrs k, 0 <= k -> shifted m0 k mrs -> shifted m0 (k + Zpos p) (iter_pos shr_1 p mrs).
Proof.
  induction p as [p IH|p IH|]; intros mrs k Hk H; cbn [iter_pos].
  - rewrite (Pos2Z.inj_xI p).
    replace (k + (2 * Zpos p + 1)) with (k + 1 + Zpos p + Zpos p) by lia.
    apply IH; [lia|]. apply IH; [lia|]. apply shifted_shr_1; assumption.
  - rewrite (Pos2Z.inj_xO p).
    replace (k + 2 * Zpos p) with (k + Zpos p + Zpos p) by lia.
    apply IH; [lia|]. apply IH; assumption.
  - apply shifted_shr_1; assumption.
Qed.

(** Rounding to nearest after a shift adds at most half of what the shift
    dropped. *)
Lemma round_shifted (m0 k : Z) (mrs : shr_record) :
  0 <= k -> shifted m0 k mrs ->
  shr_m mrs <= round_nearest_even (shr_m mrs) (loc_of_shr_record mrs)
  /\ 2 * round_nearest_even (shr_m mrs) (loc_of_shr_record mrs) * 2 ^ k <= 2 * m0 + 2 ^ k.
Proof.
  intros Hk (Hm & rem & Heq & Hrem & Hr).
  assert (Hp : 0 < 2 ^ k) by (apply Z.pow_pos_nonneg; lia).
  destruct mrs as [m [|] [|]]; cbn [shr_m shr_r loc_of_shr_record round_nearest_even] in *.
  - specialize (Hr eq_refl). split; nia.
  - specialize (Hr eq_refl). destruct (Z.even m); split; nia.
  - split; nia.
  - split; nia.
Qed.

(** The first shift of [binary_round_aux] and the rounding. *)
Lemma shr_fexp_round (mx : positive) (ex : Z) :
  exists mrs s,
    shr_fexp prec emax (Zpos mx) ex loc_Exact = (mrs, ex + s)
    /\ s = Z.max 0 (fexp prec emax (bitLength mx + ex) - ex)
    /\ Zpos mx / 2 ^ s <= round_nearest_even (shr_m mrs) (loc_of_shr_record mrs)
    /\ 2 * round_nearest_even (shr_m mrs) (loc_of_shr_record mrs) * 2 ^ s
       <= 2 * Zpos mx + 2 ^ s
    /\ round_nearest_even (shr_m mrs) (loc_of_shr_record mrs) <= Zpos mx / 2 ^ s + 1
    /\ (s = 0 -> round_nearest_even (shr_m mrs) (loc_of_shr_record mrs) = Zpos mx).
Proof.
  unfold shr_fexp. change (Zdigits2 (Zpos mx)) with (bitLength mx).
  cbn [shr_record_of_loc].
  assert (H0 : shifted (Zpos mx) 0 (Build_shr_record (Zpos mx) false false)).
  { split; [cbn; lia|]. exists 0. cbn [shr_m shr_r]. repeat split; try lia; try discriminate. }
  destruct (fexp prec emax (bitLength mx + ex) - ex) as [|p|p] eqn:Hs; cbn [shr].
  - eexists _, 0. split; [rewrite Z.add_0_r; reflexivity|]. split; [reflexivity|].
    cbn [shr_m loc_of_shr_record round_nearest_even].
    rewrite Z.pow_0_r, Z.div_1_r. repeat split; lia.
  - eexists _, (Zpos p). split; [reflexivity|]. split; [lia|].
    pose proof (shifted_iter (Zpos mx) p _ 0 ltac:(lia) H0) as Hsh. rewrite Z.add_0_l in Hsh.
    assert (Hq : shr_m (iter_pos shr_1 p (Build_shr_record (Zpos mx) false false))
                 = Zpos mx / 2 ^ Zpos p) by (rewrite shr_iter_m by (cbn; lia); reflexivity).
    set (mrs := iter_pos shr_1 p (Build_shr_record (Zpos mx) false false)) in *.
    pose proof (round_shifted (Zpos mx) (Zpos p) mrs ltac:(lia) Hsh) as [Hlo Hhi].
    pose proof (round_nearest_even_bounds (shr_m mrs) (loc_of_shr_record mrs)) as Hb.
    set (m1 := round_nearest_even (shr_m mrs) (loc_of_shr_record mrs)) in *.
    rewrite Hq in Hlo, Hb. repeat split; try lia.
  - eexists _, 0. split; [rewrite Z.add_0_r; reflexivity|]. split; [lia|].
    cbn [shr_m loc_of_shr_record round_nearest_even].
    rewrite Z.pow_0_r, Z.div_1_r. repeat split; lia.
Qed.

(** The second shift of [binary_round_aux]: the mantissa does not grow. *)
Lemma shr_fexp_again (m1 e1 : Z) :
  0 <= m1 -> -1074 <= e1 ->
  exists mrs s2,
    shr_fexp prec emax m1 e1 loc_Exact = (mrs, e1 + s2)
    /\ 0 <= s2 /\ 0 <= shr_m mrs /\ shr_m mrs * 2 ^ s2 <= m1
    /\ (m1 <= 2 ^ 53 -> s2 <= 1).
Proof.
  intros Hm He. unfold shr_fexp.
  destruct m1 as [|p1|p1]; [| |lia].
  - cbn [Zdigits2 shr_record_of_loc]. 
    assert (Hs : fexp prec emax (0 + e1) - e1 <= 0) by (unfold fexp, SpecFloat.emin, prec, emax; lia).
    destruct (fexp prec emax (0 + e1) - e1) as [|p|p] eqn:Hq; [| lia |]; cbn [shr].
    + exists (Build_shr_record 0 false false), 0. rewrite Z.add_0_r. cbn. repeat split; lia.
    + exists (Build_shr_record 0 false false), 0. rewrite Z.add_0_r. cbn. repeat split; lia.
  - change (Zdigits2 (Zpos p1)) with (bitLength p1). cbn [shr_record_of_loc].
    destruct (fexp prec emax (bitLength p1 + e1) - e1) as [|p|p] eqn:Hq; cbn [shr].
    + eexists _, 0. rewrite Z.add_0_r. split; [reflexivity|]. cbn [shr_m].
      rewrite Z.pow_0_r. repeat split; lia.
    + eexists _, (Zpos p). split; [reflexivity|]. split; [lia|].
      rewrite shr_iter_m by (cbn; lia). cbn [shr_m].
      assert (Hp : 0 < 2 ^ Zpos p) by (apply Z.pow_pos_nonneg; lia).
      split; [apply Z.div_pos; lia|].
      split; [rewrite Z.mul_comm; apply Z.mul_div_le; lia|].
      intros Hle.
      assert (Hb : bitLength p1 <= 54).
      { apply bitLength_below; [lia|]. change (2 ^ 54) with 18014398509481984.
        change (2 ^ 53) with 9007199254740992 in Hle. lia. }
      unfold fexp, SpecFloat.emin, prec, emax in Hq. lia.
    + eexists _, 0. rewrite Z.add_0_r. split; [reflexivity|]. cbn [shr_m].
      rewrite Z.pow_0_r. repeat split; lia.
Qed.

(** Rounding to nearest a positive number [mx * 2^ex] below the overflow
    threshold: the result exceeds the number by at most half of the unit
    of the rounding. *)
Lemma binary_round_aux_upper (mx : positive) (ex : Z) (s : Z) :
  s = Z.max 0 (fexp prec emax (bitLength mx + ex) - ex) ->
  ex + s + 1 <= 971 ->
  match binary_round_aux prec emax false (Zpos mx) ex loc_Exact with
  | S754_zero false => True
  | S754_finite false m e => ex <= e /\ 2 * (Zpos m * 2 ^ (e - ex)) <= 2 * Zpos mx + 2 ^ s
  | _ => False
  end.
Proof.
  intros Hs Hov. unfold binary_round_aux.
  destruct (shr_fexp_round mx ex) as (mrs & s' & -> & Hs' & Hlo & Hhi & Hup & Hex).
  rewrite <- Hs in Hs'. subst s'.
  set (m1 := round_nearest_even (shr_m mrs) (loc_of_shr_record mrs)) in *.
  assert (Hs0 : 0 <= s) by lia.
  assert (Hp : 0 < 2 ^ s) by (apply Z.pow_pos_nonneg; lia).
  assert (Hm1 : 0 <= m1).
  { assert (0 <= Zpos mx / 2 ^ s) by (apply Z.div_pos; lia). lia. }
  assert (He1 : -1074 <= ex + s) by (unfold fexp, SpecFloat.emin, prec, emax in Hs; lia).
  assert (H53 : m1 <= 2 ^ 53).
  { destruct (Z.eq_dec s 0) as [Hz|Hnz].
    - rewrite (Hex Hz).
      assert (Hb : bitLength mx <= 53) by (unfold fexp, SpecFloat.emin, prec, emax in Hs; lia).
      pose proof (bitLength_bounds mx) as [_ Hhi'].
      assert (2 ^ bitLength mx <= 2 ^ 53) by (apply Z.pow_le_mono_r; lia). lia.
    - assert (Hb : bitLength mx - 53 <= s) by (unfold fexp, SpecFloat.emin, prec, emax in Hs; lia).
      pose proof (bitLength_bounds mx) as [_ Hhi'].
      assert (Hq : Zpos mx / 2 ^ s < 2 ^ 53).
      { apply Z.div_lt_upper_bound; [lia|]. rewrite <- Z.pow_add_r by lia.
        assert (2 ^ bitLength mx <= 2 ^ (s + 53)) by (apply Z.pow_le_mono_r; lia). lia. }
      lia. }
  destruct (shr_fexp_again m1 (ex + s) Hm1 He1) as (mrs2 & s2 & -> & Hs2 & Hm2 & Hle2 & Hs2').
  specialize (Hs2' H53).
  destruct (shr_m mrs2) as [|m|m] eqn:Hm; [exact I| |lia].
  change (emax - prec) with 971.
  destruct (Z.leb_spec (ex + s + s2) 971) as [_|Hgt]; [|lia].
  split; [lia|].
  replace (ex + s + s2 - ex) with (s2 + s) by lia. rewrite Z.pow_add_r by lia.
  assert (Hp2 : 0 < 2 ^ s2) by (apply Z.pow_pos_nonneg; lia).
  nia.
Qed.

(** A number in the interval from [0] to [1], [1] excluded, such as
    [Math.random()] returns: zero or a positive number below [1]. *)
Lemma unit_interval (r : float) :
  PrimFloat.leb 0 r = true -> PrimFloat.ltb r 1 = true ->
  (exists s, Prim2SF r = S754_zero s)
  \/ exists m e, Prim2SF r = S754_finite false m e /\ -1074 <= e <= -53 /\ Zpos m < 2 ^ 53.
Proof.
  intros H0 H1. rewrite FloatAxioms.leb_spec in H0. rewrite FloatAxioms.ltb_spec in H1.
  pose proof (Prim2SF_valid r) as Hv.
  change (Prim2SF 0) with (S754_zero false) in H0.
  rewrite one_spec in H1.
  destruct (Prim2SF r) as [s| s | |s m e]; try discriminate.
  - left. exists s. reflexivity.
  - destruct s; discriminate.
  - destruct s; [discriminate|]. right. exists m, e. split; [reflexivity|].
    cbn [valid_binary] in Hv. unfold bounded, canonical_mantissa in Hv.
    apply andb_true_iff in Hv as [Hc _]. apply Z.eqb_eq in Hc.
    change (Zpos (digits2_pos m)) with (bitLength m) in Hc.
    unfold fexp, SpecFloat.emin, prec, emax in Hc.
    pose proof (bitLength_bounds m) as [Hlo Hhi].
    assert (Hb : bitLength m <= 53) by lia.
    assert (Hm : Zpos m < 2 ^ 53).
    { assert (2 ^ bitLength m <= 2 ^ 53) by (apply Z.pow_le_mono_r; lia). lia. }
    split; [|exact Hm]. split; [lia|].
    unfold SFltb, SFcompare in H1.
    destruct (Z.compare_spec e (-52)) as [->|Hlt|Hgt]; [|lia|discriminate].
    exfalso.
    destruct (Pos.compare_cont Eq m 4503599627370496) eqn:Hcmp; try discriminate.
    apply (Pos.compare_lt_iff m 4503599627370496) in Hcmp.
    apply Pos2Z.pos_lt_pos in Hcmp.
    assert (H53 : bitLength m = 53) by lia.
    rewrite H53 in Hlo. change (2 ^ (53 - 1)) with 4503599627370496 in Hlo. lia.
Qed.

(** [a[Math.floor(r * n)]] for [r] in the unit interval and a whole number
    [n] is an index below [n]. *)
Lemma floorIndex_random (r nf : float) (n : Z) :
  PrimFloat.leb 0 r = true -> PrimFloat.ltb r 1 = true ->
  isNumberOf nf n = true ->
  exists k, floorIndex (r * nf) = Some k /\ Z.of_nat k < n.
Proof.
  intros H0 H1 Hn. unfold isNumberOf in Hn.
  destruct (Prim2SF nf) as [| | |[|] mn en] eqn:Hnf; try discriminate.
  apply andb_true_iff in Hn as [Hn Hval]. apply andb_true_iff in Hn as [Hn Hen0].
  apply andb_true_iff in Hn as [Hbl Hen].
  apply Z.eqb_eq in Hbl, Hval. apply Z.leb_le in Hen, Hen0.
  pose proof (bitLength_bounds mn) as [Hmlo Hmhi]. rewrite Hbl in Hmlo, Hmhi.
  change (2 ^ (53 - 1)) with 4503599627370496 in Hmlo.
  assert (Hpn : 0 < 2 ^ (- en)) by (apply Z.pow_pos_nonneg; lia).
  assert (Hnpos : 0 < n) by nia.
  unfold floorIndex. rewrite FloatAxioms.mul_spec, Hnf.
  destruct (unit_interval r H0 H1) as [[s ->]|(mr & er & -> & Her & Hmr)].
  - cbn. exists 0%nat. split; [reflexivity | lia].
  - unfold SF64mul, SFmul. cbn [xorb].
    set (s := Z.max 0 (fexp prec emax (bitLength (mr * mn) + (er + en)) - (er + en))).
    assert (HP : Zpos (mr * mn) = Zpos mr * Zpos mn) by lia.
    pose proof (bitLength_bounds (mr * mn)) as [HPlo HPhi].
    assert (Hbpos : 0 < bitLength (mr * mn)) by (unfold bitLength; lia).
    assert (Hs : 0 <= s <= 53 /\ 2 ^ s < 2 * Zpos mn).
    { assert (Hcut : bitLength (mr * mn) - 53 <= 53
                     /\ (0 <= bitLength (mr * mn) - 53 ->
                         2 ^ (bitLength (mr * mn) - 53) < 2 * Zpos mn)).
      { assert (Hlt : Zpos (mr * mn) < 2 ^ 53 * Zpos mn) by nia.
        assert (Hb : bitLength (mr * mn) <= 106).
        { apply bitLength_below; [lia|]. change (2 ^ 106) with (2 ^ 53 * 2 ^ 53).
          change (2 ^ 53) with 9007199254740992 in *. nia. }
        split; [lia|]. intros Hge.
        assert (Heq : 2 ^ (bitLength (mr * mn) - 1) = 2 ^ (bitLength (mr * mn) - 53) * 2 ^ 52).
        { rewrite <- Z.pow_add_r by lia. f_equal. lia. }
        change (2 ^ 52) with 4503599627370496 in Heq.
        change (2 ^ 53) with 9007199254740992 in Hlt. nia. }
      destruct Hcut as [Hc1 Hc2].
      assert (Hsc : 0 <= s <= 53
                    /\ (s = bitLength (mr * mn) - 53 \/ 0 <= s <= 52))
        by (unfold s, fexp, SpecFloat.emin, prec, emax; lia).
      destruct Hsc as [Hs53 [Hsb|Hs52]]; (split; [exact Hs53|]).
      - rewrite Hsb. apply Hc2. lia.
      - assert (2 ^ s <= 2 ^ 52) by (apply Z.pow_le_mono_r; lia).
        change (2 ^ 52) with 4503599627370496 in *. lia. }
    destruct Hs as [Hs Hs2].
    pose proof (binary_round_aux_upper (mr * mn) (er + en) s eq_refl ltac:(lia)) as Hround.
    destruct (binary_round_aux prec emax false (Zpos (mr * mn)) (er + en) loc_Exact)
      as [[|]| | |[|] m e]; try contradiction.
    + exists 0%nat. split; [reflexivity | lia].
    + destruct Hround as [Hee Hval']. eexists. split; [reflexivity|].
      assert (Hu : 2 ^ 53 <= 2 ^ (- er)) by (apply Z.pow_le_mono_r; lia).
      assert (HA : Zpos m * 2 ^ (e - (er + en)) < Zpos mn * 2 ^ (- er)).
      { change (2 ^ 53) with 9007199254740992 in *. nia. }
      rewrite Hval in HA.
      assert (Hsh : Z.shiftl (Zpos m) e < n).
      { destruct (Z.leb_spec 0 e) as [Hpos|Hneg].
        - rewrite Z.shiftl_mul_pow2 by lia.
          replace (e - (er + en)) with (e + (- en + - er)) in HA by lia.
          rewrite Z.pow_add_r in HA by lia.
          rewrite (Z.pow_add_r 2 (- en) (- er)) in HA by lia.
          assert (0 < 2 ^ (- er)) by (apply Z.pow_pos_nonneg; lia).
          assert (0 < 2 ^ e) by (apply Z.pow_pos_nonneg; lia).
          nia.
        - rewrite Z.shiftl_div_pow2 by lia.
          apply Z.div_lt_upper_bound; [apply Z.pow_pos_nonneg; lia|].
          assert (Hsplit : 2 ^ (- en) * 2 ^ (- er) = 2 ^ (- e) * 2 ^ (e - (er + en))).
          { rewrite <- !Z.pow_add_r by lia. f_equal. lia. }
          assert (0 < 2 ^ (e - (er + en))) by (apply Z.pow_pos_nonneg; lia).
          assert (0 < 2 ^ (- e)) by (apply Z.pow_pos_nonneg; lia).
          nia. }
      assert (0 <= Z.shiftl (Zpos m) e) by (apply Z.shiftl_nonneg; lia).
      lia.
Qed.

Local Close Scope Z_scope.
Set Implicit Arguments.

Lemma nth_error_entry (cat : string) (entries : list (string * string)) (j : nat)
  (tm : string * string) :
  In (cat, entries) LINGUISTICS -> nth_error entries j = Some tm ->
  In (codes (fst tm), codes (snd tm), codes cat) dbEntries.
Proof.
  intros Hc Hj. unfold dbEntries. apply in_flat_map. exists (cat, entries).
  split; [exact Hc|]. cbn [fst snd]. apply in_map_iff. exists tm.
  split; [reflexivity|]. exact (nth_error_In _ _ Hj).
Qed.

(** Each category is found under its key, and the number of its entries
    is a whole number. *)
Lemma categories_entries :
  Forall (fun ct : string * list (string * string) =>
            entriesOf (fst ct) = Some (snd ct)
            /\ isNumberOf (lengthNumber (snd ct)) (Z.of_nat (length (snd ct))) = true)
    LINGUISTICS.
Proof.
  unfold LINGUISTICS.
  repeat (apply Forall_cons; [split; [reflexivity | vm_compute; reflexivity]|]).
  apply Forall_nil.
Qed.

(** X7. Whatever numbers [Math.random()] returns, from [0] up to but not
    including [1], [getRandomTerm] does not throw and returns an entry of
    the dictionary: the products are rounded in binary64, but never up to
    the length of the array. *)
Theorem getRandomTerm_in_dictionary (random1 random2 : float) :
  PrimFloat.leb 0 random1 = true -> PrimFloat.ltb random1 1 = true ->
  PrimFloat.leb 0 random2 = true -> PrimFloat.ltb random2 1 = true ->
  exists x,
    getRandomTerm random1 random2 = Some x
    /\ In (lt_term x, lt_meaning x, lt_category x) dbEntries.
Proof.
  intros H0 H1 H2 H3. unfold getRandomTerm.
  destruct (floorIndex_random random1 (lengthNumber categories) 11 H0 H1)
    as (i & -> & Hi); [vm_compute; reflexivity|].
  assert (Hlen : (i < length categories)%nat) by (change (length categories) with 11%nat; lia).
  destruct (nth_error categories i) as [cat|] eqn:Hcat;
    [|apply nth_error_None in Hcat; lia].
  apply nth_error_In in Hcat. unfold categories in Hcat.
  apply in_map_iff in Hcat as ([cat' entries] & Heq & Hct). cbn [fst] in Heq. subst cat'.
  pose proof categories_entries as Hall. rewrite Forall_forall in Hall.
  destruct (Hall _ Hct) as [Hfind Hnum]. cbn [fst snd] in Hfind, Hnum. rewrite Hfind.
  destruct (floorIndex_random random2 (lengthNumber entries) _ H2 H3 Hnum)
    as (j & -> & Hj).
  destruct (nth_error entries j) as [[t m]|] eqn:Hent;
    [|apply nth_error_None in Hent; lia].
  eexists. split; [reflexivity|]. cbn [lt_term lt_meaning lt_category].
  exact (@nth_error_entry cat entries j (t, m) Hct Hent).
Qed.

(** * Properties of the slang discovery service *)

(** ** [findSlangTerm] *)

Lemma findSlangTerm_eq (sv : Services) (w : World sv) (t : JSString) :
  findSlangTerm w t
  = match terms (fst (translate (w_engine w) (normalize t))) with
    | x :: _ =>
        Some (mkDiscovery true (lt_term x) (Some (lt_meaning x)) (Some (lt_category x))
                (Some source_static) None (Some 100%float),
              mkWorld sv (snd (translate (w_engine w) (normalize t))) (w_storage w))
    | [] =>
        match findDynamicSlangTerm sv (w_storage w) (normalize t) with
        | None => None
        | Some None =>
            Some (notFound (normalize t),
                  mkWorld sv (snd (translate (w_engine w) (normalize t))) (w_storage w))
        | Some (Some dynamicTerm) =>
            match incrementSlangUsage sv (w_storage w) (normalize t) with
            | None => None
            | Some st =>
                Some (mkDiscovery true (ds_term dynamicTerm)
                        (Some (ds_meaning dynamicTerm)) (Some (ds_category dynamicTerm))
                        (Some source_database)
                        (stringOrUndefined (ds_sourceUrl dynamicTerm))
                        (Some (ds_confidence dynamicTerm)),
                      mkWorld sv
                        (mkEngine (patterns (snd (translate (w_engine w) (normalize t))))
                           (mapSet (toLowerCase (ds_term dynamicTerm))
                              (compiled (ds_term dynamicTerm, ds_meaning dynamicTerm,
                                         ds_category dynamicTerm))
                              (dynamicPatterns
                                 (snd (translate (w_engine w) (normalize t))))))
                        st)
            end
        end
    end.
Proof.
  unfold findSlangTerm. cbv zeta.
  destruct (translate (w_engine w) (normalize t)) as [staticResult e1]. cbn [fst snd].
  destruct (terms staticResult); [|reflexivity].
  destruct (findDynamicSlangTerm sv (w_storage w) (normalize t)) as [[row|]|];
    try reflexivity.
  destruct (incrementSlangUsage sv (w_storage w) (normalize t)); [|reflexivity].
  rewrite addDynamicTerm_eq. reflexivity.
Qed.

Lemma Reachable_translate_same (e : LinguisticsEngine) (input : JSString) :
  Reachable e -> snd (translate e input) = e.
Proof.
  intros He. apply Reachable_inv in He. destruct (EngineInv_atRest He) as [Hs Hd].
  apply translate_at_rest; assumption.
Qed.

Lemma World_eta (sv : Services) (w : World sv) :
  mkWorld sv (w_engine w) (w_storage w) = w.
Proof. destruct w. reflexivity. Qed.

(** X8. When a static term occurs in the normalised query,
    [findSlangTerm] on a reachable engine answers from the engine, without
    a call of the storage layer and without a change of state: the answer
    has the source ['static'] and the confidence [100], it is an entry of
    the dictionary whose term occurs in the query, and no static term that
    occurs in the query is longer than its term. *)
Theorem findSlangTerm_engine_first (sv : Services) (w : World sv) (t : JSString)
  (p : CompiledPattern) :
  Reachable (w_engine w) ->
  In p (patterns (w_engine w)) -> matches p (normalize t) = true ->
  exists x,
    findSlangTerm w t
    = Some (mkDiscovery true (lt_term x) (Some (lt_meaning x)) (Some (lt_category x))
              (Some source_static) None (Some 100%float), w)
    /\ In (lt_term x, lt_meaning x, lt_category x) dbEntries
    /\ occursBoundedAscii (lt_term x) (normalize t)
    /\ forall q, In q (patterns (w_engine w)) -> matches q (normalize t) = true ->
         length (term q) <= length (lt_term x).
Proof.
  intros He Hp Hm. set (e := w_engine w) in *. set (input := normalize t) in *.
  pose proof (Reachable_inv He) as Hinv.
  assert (Hne : input <> []).
  { intros Heq. rewrite Heq in Hm.
    rewrite (@matches_empty p (proj1 (@Reachable_static_wellFormed e p He Hp))) in Hm.
    discriminate. }
  destruct (@translate_terms e input Hne) as (l2 & Hl & _).
  pose proof (@static_recorded e input p Hinv Hp Hm) as Hin.
  assert (Hsorted : StronglySorted (fun x y => longerFirst (lt_term x) (lt_term y))
                      (found (pass input (patterns e) (mkFound [] [])))).
  { apply pass_sorted; [|constructor|intros ? ? []].
    destruct Hinv as (Hpe & _). rewrite Hpe. exact engine_sorted. }
  destruct (pass_spec input (patterns e) Coherent_empty) as (l1 & Hl1 & Hfrom1 & _).
  cbn [found app] in Hl1.
  assert (Hrec : forall q, In q (patterns e) -> matches q input = true ->
                   In (entryOf q) (found (pass input (patterns e) (mkFound [] [])))).
  { intros q Hq Hmq. exact (@static_recorded e input q Hinv Hq Hmq). }
  rewrite Hl1 in Hl, Hin, Hsorted, Hrec.
  destruct l1 as [|x l1]; [destruct Hin|].
  exists x. split; [|split; [|split]].
  - rewrite findSlangTerm_eq. fold e. fold input. rewrite Hl. cbn [app].
    rewrite (@Reachable_translate_same e input He). unfold e. rewrite World_eta.
    reflexivity.
  - destruct (Hfrom1 x (or_introl eq_refl)) as (q & Hq & _ & ->).
    destruct Hinv as (Hpe & _). rewrite Hpe in Hq.
    destruct (static_compiled Hq) as ([[t' m'] c'] & Hdb & ->). exact Hdb.
  - destruct (Hfrom1 x (or_introl eq_refl)) as (q & Hq & Hmq & ->).
    exact (proj1 (@static_matches_ascii e q input He Hq) Hmq).
  - intros q Hq Hmq. specialize (Hrec q Hq Hmq).
    destruct Hrec as [Hx|Hx].
    + rewrite Hx. cbn [entryOf lt_term]. apply Nat.le_refl.
    + apply StronglySorted_inv in Hsorted as [_ Hall].
      rewrite Forall_forall in Hall. exact (Hall _ Hx).
Qed.

Lemma translate_no_terms (e : LinguisticsEngine) (input : JSString) :
  EngineInv e -> input <> [] -> terms (fst (translate e input)) = [] ->
  (forall p, In p (patterns e) -> matches p input = false)
  /\ (forall p, In p (map snd (dynamicPatterns e)) -> matches p input = false).
Proof.
  intros Hinv Hne Ht. split; intros p Hp; destruct (matches p input) eqn:Hm;
    try reflexivity; exfalso.
  - pose proof (@translate_static e input p Hinv Hne Hp Hm) as Hin.
    rewrite Ht in Hin. destruct Hin.
  - pose proof (@translate_dynamic_key e input p Hp Hm Hne) as Hin.
    rewrite Ht in Hin. destruct Hin.
Qed.

Lemma pass_none (input : JSString) (ps : list CompiledPattern) :
  forall acc, (forall p, In p ps -> matches p input = false) -> pass input ps acc = acc.
Proof.
  induction ps as [|p ps IH]; intros acc Hno; [reflexivity|].
  rewrite pass_cons, (Hno p (or_introl eq_refl)).
  apply IH. intros q Hq. apply Hno. right. exact Hq.
Qed.

Lemma pass_mapSet_only (input k : JSString) (d : CompiledPattern)
  (l : list (JSString * CompiledPattern)) (acc : Found) :
  (forall q, In q (map snd l) -> matches q input = false) ->
  matches d input = true ->
  pass input (map snd (mapSet k d l)) acc = record d acc.
Proof.
  intros Hno Hd. induction l as [|[k' v'] l IH]; cbn [mapSet map snd].
  - rewrite pass_cons, Hd. reflexivity.
  - destruct (str_eqb k' k); cbn [map snd].
    + rewrite pass_cons, Hd. apply pass_none.
      intros q Hq. apply Hno. right. exact Hq.
    + rewrite pass_cons, (Hno v' (or_introl eq_refl)).
      apply IH. intros q Hq. apply Hno. right. exact Hq.
Qed.

(** X9. Once a term that begins and ends with a word character is
    registered on a reachable engine that finds nothing in a query, as
    [findSlangTerm] registers the term of a row of the database,
    [findSlangTerm] answers the query from the engine when the term occurs
    in the normalised query: the answer has the term, the meaning and the
    category registered, the source ['static'] and the confidence [100];
    no method of the storage layer is called, whatever the storage layer
    is, and the state stays as it is. *)
Theorem findSlangTerm_learned_term (sv : Services) (e e' : LinguisticsEngine)
  (st : Storage sv) (query t m : JSString) (c : LinguisticCategory) :
  Reachable e ->
  terms (fst (translate e (normalize query))) = [] ->
  addDynamicTerm e t m c = Some e' ->
  wordEdged t = true -> occursBounded t (normalize query) ->
  findSlangTerm (mkWorld sv e' st) query
  = Some (mkDiscovery true t (Some m) (Some c) (Some source_static) None
            (Some 100%float),
          mkWorld sv e' st).
Proof.
  intros He Hterms Hadd Hw Hocc.
  set (input := normalize query) in *.
  assert (He' : Reachable e') by (exact (@Reachable_add e e' t m c He Hadd)).
  rewrite addDynamicTerm_eq in Hadd. injection Hadd as Hadd.
  set (d := compiled (t, m, c)) in *.
  assert (Hmd : matches d input = true).
  { unfold d. rewrite (@matches_wellFormed _ input (compiled_wellFormed _)).
    apply test_occursBounded; assumption. }
  assert (Hne : input <> []).
  { intros Heq. rewrite Heq in Hmd. unfold d in Hmd.
    rewrite (@matches_empty _ (compiled_wellFormed _)) in Hmd. discriminate. }
  destruct (@translate_no_terms e input (Reachable_inv He) Hne Hterms) as [Hno1 Hno2].
  assert (Hterms2 : terms (fst (translate e' input)) = [entryOf d]).
  { rewrite translate_nonempty by assumption. cbv zeta. rewrite <- Hadd.
    cbn [fst terms patterns dynamicPatterns].
    rewrite (pass_none input (patterns e) (mkFound [] []) Hno1).
    rewrite (@pass_mapSet_only input _ d (dynamicPatterns e) (mkFound [] []) Hno2 Hmd).
    reflexivity. }
  rewrite findSlangTerm_eq. cbn [w_engine w_storage]. fold input.
  rewrite Hterms2, (@Reachable_translate_same e' input He'). reflexivity.
Qed.

(** ** [lookupUrbanDictionary] *)

Lemma trimStart_In (s : JSString) (x : Z) : In x (trimStart s) -> In x s.
Proof.
  induction s as [|c s IH]; cbn [trimStart]; [auto|].
  destruct (isWhiteSpace c); [right; auto | auto].
Qed.

Lemma trim_In (s : JSString) (x : Z) : In x (trim s) -> In x s.
Proof.
  unfold trim. intros H. apply in_rev, trimStart_In, in_rev, trimStart_In in H. exact H.
Qed.

Lemma firstLine_In (s : JSString) (x : Z) : In x (firstLine s) -> In x s /\ x <> 10%Z.
Proof.
  induction s as [|c s IH]; cbn [firstLine]; [intros []|].
  destruct (Z.eqb_spec c 10) as [->|Hc]; [intros []|].
  intros [<-|H]; [split; [left; reflexivity | exact Hc]|].
  destruct (IH H). split; [right|]; assumption.
Qed.

Lemma removeAll_In (c : Z) (s : JSString) (x : Z) :
  In x (removeAll c s) -> In x s /\ x <> c.
Proof.
  unfold removeAll. intros H. apply filter_In in H as [Hin Hx]. split; [exact Hin|].
  apply negb_true_iff, Z.eqb_neq in Hx. exact Hx.
Qed.

Lemma firstn_In (A : Type) (n : nat) :
  forall (l : list A) (x : A), In x (firstn n l) -> In x l.
Proof.
  induction n as [|n IH]; intros [|y l] x H; cbn [firstn] in H; try destruct H.
  - left. assumption.
  - right. apply IH. assumption.
Qed.

Lemma meaningOf_spec (d : JSString) :
  length (meaningOf d) <= 150
  /\ forall x, In x (meaningOf d) -> In x d /\ x <> 91%Z /\ x <> 93%Z /\ x <> 10%Z.
Proof.
  unfold meaningOf. split; [apply firstn_le_length|].
  intros x H. apply firstn_In in H. apply firstLine_In in H. destruct H as [H H10].
  apply trim_In, removeAll_In in H. destruct H as [H H93].
  apply removeAll_In in H. destruct H as [H H91]. auto.
Qed.

Lemma ltb_leb (a b : float) : PrimFloat.ltb a b = true -> PrimFloat.leb a b = true.
Proof.
  rewrite FloatAxioms.ltb_spec, FloatAxioms.leb_spec. unfold SFltb, SFleb.
  destruct (SFcompare (Prim2SF a) (Prim2SF b)) as [[| |]|]; auto.
Qed.

(** [Math.min(100, Math.max(50, d))] is [NaN] when [d] is, and otherwise
    lies between [50] and [100] and is [d] when [d] does. *)
Lemma clamp_range (d : float) :
  (PrimFloat.is_nan d = true ->
   PrimFloat.is_nan (Math_min 100 (Math_max 50 d)) = true)
  /\ (PrimFloat.is_nan d = false ->
      PrimFloat.leb 50 (Math_min 100 (Math_max 50 d)) = true
      /\ PrimFloat.leb (Math_min 100 (Math_max 50 d)) 100 = true
      /\ (PrimFloat.ltb 50 d = true -> PrimFloat.ltb d 100 = true ->
          Math_min 100 (Math_max 50 d) = d)).
Proof.
  unfold Math_max. change (PrimFloat.is_nan 50) with false. cbn [orb].
  split; intros Hnan; rewrite Hnan; [reflexivity|].
  destruct (PrimFloat.ltb 50 d) eqn:H50.
  - unfold Math_min. change (PrimFloat.is_nan 100) with false. rewrite Hnan. cbn [orb].
    destruct (PrimFloat.ltb d 100) eqn:H100.
    + split; [apply ltb_leb; assumption|]. split; [apply ltb_leb; assumption|].
      reflexivity.
    + change (PrimFloat.is_zero 100) with false. cbn [andb].
      destruct (PrimFloat.ltb 100 d);
        (split; [reflexivity|]; split; [reflexivity|]; intros _ H; discriminate H).
  - change (PrimFloat.is_zero 50) with false. cbn [andb].
    destruct (PrimFloat.ltb d 50);
      (split; [reflexivity|]; split; [reflexivity|]; intros H; discriminate H).
Qed.

Lemma firstn_prefix (A : Type) (n : nat) (l : list A) : exists rest, l = firstn n l ++ rest.
Proof. exists (skipn n l). symmetry. apply firstn_skipn. Qed.

(** X10. [lookupUrbanDictionary] does not throw, whatever the request
    gives.  When the request gives a first definition, the result is found,
    with the category [GEN_Z], the source ['urbandictionary'], and the
    [word] and the [permalink] of the definition as they are, strings or
    not; the meaning has at most 150 code units, all taken from the
    definition, without a bracket and without a line feed, and it begins
    the first line of the trimmed definition without its brackets; the
    confidence is [NaN] when the difference of the votes is, otherwise it
    lies between [50] and [100] and is that difference when the difference
    lies strictly between them.  In every other case the result is not found
    and carries the term asked for and nothing else. *)
Theorem lookupUrbanDictionary_result (fetchDefinitions : JSString -> FetchOutcome)
  (t : JSString) :
  match fetchDefinitions t with
  | fetch_first topDef =>
      lookupUrbanDictionary fetchDefinitions t
      = mkLookup true (ud_word topDef) (Some (meaningOf (ud_definition topDef)))
          (Some (codes "GEN_Z")) (Some source_urbandictionary) (ud_permalink topDef)
          (Some (confidenceOfVotes (ud_thumbs_up topDef) (ud_thumbs_down topDef)))
      /\ length (meaningOf (ud_definition topDef)) <= 150
      /\ (forall x, In x (meaningOf (ud_definition topDef)) ->
            In x (ud_definition topDef) /\ x <> 91%Z /\ x <> 93%Z /\ x <> 10%Z)
      /\ (exists rest,
            firstLine (trim (removeAll 93 (removeAll 91 (ud_definition topDef))))
            = meaningOf (ud_definition topDef) ++ rest)
      /\ (PrimFloat.is_nan (ud_thumbs_up topDef - ud_thumbs_down topDef) = true ->
          PrimFloat.is_nan
            (confidenceOfVotes (ud_thumbs_up topDef) (ud_thumbs_down topDef)) = true)
      /\ (PrimFloat.is_nan (ud_thumbs_up topDef - ud_thumbs_down topDef) = false ->
          PrimFloat.leb 50
            (confidenceOfVotes (ud_thumbs_up topDef) (ud_thumbs_down topDef)) = true
          /\ PrimFloat.leb
               (confidenceOfVotes (ud_thumbs_up topDef) (ud_thumbs_down topDef)) 100 = true
          /\ (PrimFloat.ltb 50 (ud_thumbs_up topDef - ud_thumbs_down topDef) = true ->
              PrimFloat.ltb (ud_thumbs_up topDef - ud_thumbs_down topDef) 100 = true ->
              confidenceOfVotes (ud_thumbs_up topDef) (ud_thumbs_down topDef)
              = (ud_thumbs_up topDef - ud_thumbs_down topDef)%float))
  | _ => lookupUrbanDictionary fetchDefinitions t = lookupNotFound t
  end.
Proof.
  unfold lookupUrbanDictionary.
  destruct (fetchDefinitions t) as [| | |topDef]; try reflexivity.
  split; [reflexivity|].
  destruct (meaningOf_spec (ud_definition topDef)) as [Hlen Hin].
  split; [exact Hlen|]. split; [exact Hin|].
  split; [unfold meaningOf; apply firstn_prefix|].
  unfold confidenceOfVotes.
  exact (clamp_range (ud_thumbs_up topDef - ud_thumbs_down topDef)).
Qed.

(** * Further properties of the dictionary and of the constructor *)

Lemma occursBounded_self (t : JSString) : occursBounded t t.
Proof.
  exists [], t, []. rewrite app_nil_r. repeat split.
  induction t as [|x t IH]; constructor; [reflexivity | exact IH].
Qed.

(** X14. Every entry of the dictionary is found: on the input that is its
    term, as the dictionary spells it or with its letters in upper case, a
    reachable engine reports the entry. *)
Theorem dictionary_entry_found (e : LinguisticsEngine) (t m : JSString)
  (c : LinguisticCategory) :
  Reachable e -> In (t, m, c) dbEntries ->
  In (mkTerm t m c) (terms (fst (translate e t)))
  /\ In (mkTerm t m c) (terms (fst (translate e (map asciiUpper t)))).
Proof.
  intros He Hin. pose proof (@Reachable_static e (t, m, c) He Hin) as Hp.
  destruct (@Reachable_static_wellFormed e _ He Hp) as [Hwf Hw].
  assert (Hm : matches (compiled (t, m, c)) t = true).
  { rewrite (@matches_wellFormed _ t Hwf). apply test_occursBounded; [exact Hw|].
    apply occursBounded_self. }
  assert (Hne : t <> []).
  { intros Heq. rewrite Heq in Hm at 2.
    rewrite (@matches_empty _ Hwf) in Hm. discriminate. }
  pose proof (@translate_static e t _ (Reachable_inv He) Hne Hp Hm) as Hfound.
  split; [exact Hfound|].
  rewrite (proj1 (@translate_recase asciiUpper asciiUpper_canonical asciiUpper_isWordChar e t)).
  exact Hfound.
Qed.

Section Stable.
Variable A : Type.
Variable compareFn : A -> A -> Z.
Variable P : A -> bool.
Hypothesis P_equal : forall x y, P x = true -> P y = true -> (compareFn x y <= 0)%Z.

Lemma filter_insertSorted (x : A) (l : list A) :
  filter P (insertSorted compareFn x l) = if P x then x :: filter P l else filter P l.
Proof.
  induction l as [|y l IH]; cbn [insertSorted filter]; [reflexivity|].
  destruct (Z.leb_spec (compareFn x y) 0) as [Hle|Hgt]; cbn [filter]; [reflexivity|].
  rewrite IH. destruct (P x) eqn:Hx; [|reflexivity].
  destruct (P y) eqn:Hy; [|reflexivity].
  pose proof (@P_equal x y Hx Hy). lia.
Qed.

(** The sort is stable: the elements that satisfy [P], which compare equal,
    keep their order. *)
Lemma filter_sort (l : list A) : filter P (sort compareFn l) = filter P l.
Proof.
  induction l as [|x l IH]; [reflexivity|].
  change (sort compareFn (x :: l)) with (insertSorted compareFn x (sort compareFn l)).
  rewrite filter_insertSorted, IH. reflexivity.
Qed.

End Stable.

(** X15. The sort of the constructor keeps, among terms of the same length,
    the order of the dictionary: for every length, the static patterns of
    a reachable engine with a term of that length are the entries of the
    dictionary with a term of that length, compiled, in the order of the
    dictionary. *)
Theorem static_order_stable (e : LinguisticsEngine) (n : nat) :
  Reachable e ->
  filter (hasLength n) (patterns e) = filter (hasLength n) (map compiled dbEntries).
Proof.
  intros He. apply Reachable_inv in He as (Hp & _). rewrite Hp, engine_patterns.
  apply filter_sort. intros x y Hx Hy. unfold hasLength in Hx, Hy.
  apply Nat.eqb_eq in Hx, Hy. unfold byTermLength. lia.
Qed.

(** ** Every entry can be drawn *)

Lemma term_eqb_eq (x y : LinguisticTerm) : term_eqb x y = true -> x = y.
Proof.
  unfold term_eqb. intros H. apply andb_true_iff in H as [H H3].
  apply andb_true_iff in H as [H1 H2].
  apply str_eqb_eq in H1, H2, H3. destruct x, y. cbn in *. congruence.
Qed.

Lemma drawsOfDictionary_entries :
  map (fun d : float * float * LinguisticTerm =>
         (lt_term (snd d), lt_meaning (snd d), lt_category (snd d)))
      drawsOfDictionary
  = dbEntries.
Proof. vm_compute. reflexivity. Qed.

Lemma drawsOfDictionary_drawn :
  forallb (fun d : float * float * LinguisticTerm =>
             inUnitInterval (fst (fst d)) && inUnitInterval (snd (fst d))
             && match getRandomTerm (fst (fst d)) (snd (fst d)) with
                | Some y => term_eqb y (snd d)
                | None => false
                end)
    drawsOfDictionary
  = true.
Proof. vm_compute. reflexivity. Qed.

(** X16. Every entry of the dictionary is returned by [getRandomTerm] for
    some pair of numbers from [0] up to but not including [1]. *)
Theorem getRandomTerm_every_entry (t m : JSString) (c : LinguisticCategory) :
  In (t, m, c) dbEntries ->
  exists random1 random2,
    PrimFloat.leb 0 random1 = true /\ PrimFloat.ltb random1 1 = true
    /\ PrimFloat.leb 0 random2 = true /\ PrimFloat.ltb random2 1 = true
    /\ getRandomTerm random1 random2 = Some (mkTerm t m c).
Proof.
  intros Hin. rewrite <- drawsOfDictionary_entries in Hin.
  apply in_map_iff in Hin as ([[r1 r2] x] & Heq & Hd).
  cbn [fst snd] in Heq.
  pose proof drawsOfDictionary_drawn as Hall. rewrite forallb_forall in Hall.
  specialize (Hall _ Hd). cbn [fst snd] in Hall.
  apply andb_true_iff in Hall as [Hr Hget]. apply andb_true_iff in Hr as [Hr1 Hr2].
  unfold inUnitInterval in Hr1, Hr2.
  apply andb_true_iff in Hr1 as [H10 H11]. apply andb_true_iff in Hr2 as [H20 H21].
  exists r1, r2. repeat (split; [assumption|]).
  destruct (getRandomTerm r1 r2) as [y|]; [|discriminate].
  apply term_eqb_eq in Hget. subst y. destruct x. cbn in Heq. congruence.
Qed.

(** * The choice of a provider *)

Lemma toLowerCase_upper (s : JSString) :
  forallb isAscii s = true -> toLowerCase (map asciiUpper s) = toLowerCase s.
Proof.
  intros Ha. unfold toLowerCase.
  assert (Hu : forallb isAscii (map asciiUpper s) = true).
  { rewrite forallb_forall in *. intros x Hx. apply in_map_iff in Hx as (y & <- & Hy).
    specialize (Ha y Hy). unfold isAscii, asciiUpper in *.
    destruct (Z.leb 97 y && Z.leb y 122); lia. }
  rewrite Ha, Hu, map_map. apply map_ext. intros x.
  unfold asciiLower, asciiUpper.
  destruct (Z.leb_spec 97 x), (Z.leb_spec x 122); cbn [andb];
    destruct (Z.leb_spec 65 x), (Z.leb_spec x 90); cbn [andb];
    repeat match goal with
           | |- context [Z.leb ?a ?b] => destruct (Z.leb_spec a b); cbn [andb]
           end; lia.
Qed.

(** X17. The provider [selectBestProvider] chooses is one of those
    [getAvailableProviders] lists, never ['auto'] and never a provider that
    is not configured; and for a prompt in ASCII the choice does not depend
    on the case of the letters. *)
Theorem selectBestProvider_available :
  (forall (anthropic gemini : bool) (prompt : JSString),
      In (selectBestProvider anthropic gemini prompt)
         (getAvailableProviders anthropic gemini))
  /\ (forall (anthropic gemini : bool) (prompt : JSString),
        forallb isAscii prompt = true ->
        selectBestProvider anthropic gemini (map asciiUpper prompt)
        = selectBestProvider anthropic gemini prompt).
Proof.
  split.
  - intros anthropic gemini prompt. unfold selectBestProvider, getAvailableProviders.
    cbv zeta.
    destruct (Nat.ltb _ _), (Nat.ltb _ _), anthropic, gemini; cbn; auto.
  - intros anthropic gemini prompt Ha. unfold selectBestProvider.
    rewrite (toLowerCase_upper prompt Ha). reflexivity.
Qed.

End Host.

(** * The claims on examples *)

Lemma occursBounded_here (hu : Z -> JSString) (pre t post : JSString) :
  isWordAt (lastOf pre) = false -> isWordAt (hd_error post) = false ->
  occursBounded hu t (pre ++ t ++ post).
Proof.
  intros H1 H2. exists pre, t, post. repeat split; auto.
  induction t; constructor; auto. reflexivity.
Qed.

Lemma occursBoundedAscii_here (pre t post : JSString) :
  forallb isAscii t = true ->
  isWordAt (lastOf pre) = false -> isWordAt (hd_error post) = false ->
  occursBoundedAscii t (pre ++ t ++ post).
Proof.
  intros Ha H1 H2. exists pre, t, post. repeat split; auto.
  induction t as [|c t IH]; constructor.
  - cbn [forallb] in Ha. apply andb_true_iff in Ha as [Hc _].
    split; [exact Hc | reflexivity].
  - apply IH. cbn [forallb] in Ha. apply andb_true_iff in Ha as [_ Ht]. exact Ht.
Qed.

Lemma In_entryIn (t m : JSString) (c : LinguisticCategory)
  (l : list (JSString * JSString * LinguisticCategory)) :
  In (t, m, c) l -> entryIn t m c l = true.
Proof.
  intros H. unfold entryIn. apply existsb_exists. exists (t, m, c).
  split; [exact H|]. cbn [fst snd]. rewrite !str_eqb_refl. reflexivity.
Qed.

Lemma rizzEngine_Reachable : Reachable plainUpper plainLower rizzEngine.
Proof.
  apply (@Reachable_add plainUpper plainLower engine rizzEngine
           (codes "rizz") (codes "charisma") (codes "GEN_Z")).
  - apply Reachable_new.
  - vm_compute. reflexivity.
Qed.

Lemma capitalEngine_Reachable : Reachable plainUpper plainLower capitalEngine.
Proof.
  apply (@Reachable_add plainUpper plainLower engine capitalEngine
           (codes "Cap") (codes "falsehood") (codes "GEN_Z")).
  - apply Reachable_new.
  - vm_compute. reflexivity.
Qed.

(** C1, on the pattern of ["cap"]. *)
Lemma word_pattern_matches_witness :
  term (compiled (codes "cap", codes "lie", codes "GEN_Z")) = codes "cap"
  /\ forall input,
       matches plainUpper (compiled (codes "cap", codes "lie", codes "GEN_Z")) input = true
       <-> occursBounded plainUpper (codes "cap") input.
Proof.
  apply (proj1 (word_pattern_matches plainUpper plainLower)
           (codes "cap") (codes "lie") (codes "GEN_Z")
           (compiled (codes "cap", codes "lie", codes "GEN_Z")));
    reflexivity.
Defined.

Lemma cpp_not_bounded (hu : Z -> JSString) :
  ~ occursBounded hu (codes "c++") (codes "c++x").
Proof.
  intros (pre & mid & post & Heq & HF & _ & Hpost).
  inversion HF as [|x1 c1 mid1 t1 Hc1 HF1]; subst.
  inversion HF1 as [|x2 c2 mid2 t2 Hc2 HF2]; subst.
  inversion HF2 as [|x3 c3 mid3 t3 Hc3 HF3]; subst.
  inversion HF3; subst.
  destruct pre as [|p1 [|p2 pre]]; cbn in Heq.
  - injection Heq as <- <- <- <-. discriminate Hpost.
  - injection Heq as <- <- <- <- _. vm_compute in Hc1. discriminate Hc1.
  - destruct pre as [|p3 [|p4 pre]]; cbn in Heq; try discriminate Heq.
    destruct pre; discriminate Heq.
Qed.

(** C1 as stated fails, in both directions, on a term that ends with a
    non-word character: the pattern registered for ["c++"] does not match
    ["I like c++ a lot"], where the term stands between two spaces, and it
    matches ["c++x"], where a word character follows the term. *)
Lemma word_pattern_counterexample :
  compilePattern (codes "c++") (codes "language") (codes "TECH")
  = Some (compiled (codes "c++", codes "language", codes "TECH"))
  /\ (forall hu,
        matches hu (compiled (codes "c++", codes "language", codes "TECH"))
          (codes "I like c++ a lot") = false
        /\ occursBounded hu (codes "c++") (codes "I like c++ a lot"))
  /\ (forall hu,
        matches hu (compiled (codes "c++", codes "language", codes "TECH"))
          (codes "c++x") = true
        /\ ~ occursBounded hu (codes "c++") (codes "c++x")).
Proof.
  split; [reflexivity|]. split; intros hu; split.
  - vm_compute. reflexivity.
  - apply (occursBounded_here hu (codes "I like ") (codes "c++") (codes " a lot"));
      reflexivity.
  - vm_compute. reflexivity.
  - apply cpp_not_bounded.
Qed.

(** C2, on the engine with the dynamic term ["rizz"]: the static list is
    the dictionary; on ["no cap he has rizz fr fr"] the entries of
    ["no cap"] and of ["cap"] are in the first part of the result, the entry
    of ["rizz"], which the dictionary does not list, is not, and the second
    part holds no other entry. *)
Lemma static_sorted_and_first_witness :
  Permutation (patterns rizzEngine) (map compiled dbEntries)
  /\ exists l1 l2,
       terms (fst (translate plainUpper rizzEngine (codes "no cap he has rizz fr fr")))
       = l1 ++ l2
       /\ StronglySorted (fun x y => longerFirst (lt_term x) (lt_term y)) l1
       /\ In (mkTerm (codes "no cap") (codes "honestly") (codes "GEN_Z")) l1
       /\ In capEntry l1
       /\ ~ In (mkTerm (codes "rizz") (codes "charisma") (codes "GEN_Z")) l1
       /\ (forall x, In x l2 ->
             x = mkTerm (codes "rizz") (codes "charisma") (codes "GEN_Z")).
Proof.
  destruct (static_sorted_and_first plainUpper plainLower) as (_ & _ & Hreach & Htr).
  split; [exact (proj2 (Hreach rizzEngine rizzEngine_Reachable))|].
  destruct (Htr rizzEngine (codes "no cap he has rizz fr fr") rizzEngine_Reachable)
    as (l1 & l2 & Heq & Hsorted & Hiff & _ & _ & Hdyn).
  exists l1, l2. split; [exact Heq|]. split; [exact Hsorted|].
  split; [|split; [|split]].
  - apply (proj2 (Hiff _)).
    exists (codes "no cap"), (codes "honestly"), (codes "GEN_Z").
    split; [apply entryIn_In; vm_compute; reflexivity|]. split; [|reflexivity].
    apply (occursBoundedAscii_here [] (codes "no cap") (codes " he has rizz fr fr"));
      reflexivity.
  - apply (proj2 (Hiff _)).
    exists (codes "cap"), (codes "lie"), (codes "GEN_Z").
    split; [apply entryIn_In; vm_compute; reflexivity|]. split; [|reflexivity].
    apply (occursBoundedAscii_here (codes "no ") (codes "cap") (codes " he has rizz fr fr"));
      reflexivity.
  - intros Hin. apply (proj1 (Hiff _)) in Hin.
    destruct Hin as (t & m & c & Hdb & _ & Hx).
    injection Hx as Ht Hm Hc. subst t m c.
    apply In_entryIn in Hdb. vm_compute in Hdb. discriminate Hdb.
  - intros x Hx. destruct (Hdyn x Hx) as (p & Hp & _ & ->).
    destruct Hp as [<-|[]]. reflexivity.
Defined.

(** C3, on the engine with the dynamic term ["rizz"]. *)
Lemma translate_no_duplicates_witness :
  exists l1 l2,
    terms (fst (translate plainUpper rizzEngine (codes "cap cap cap"))) = l1 ++ capEntry :: l2
    /\ forall x, In x (l1 ++ l2) -> pairOf x <> pairOf capEntry.
Proof.
  exact (proj1 (proj2 (translate_no_duplicates plainUpper plainLower))
           rizzEngine rizzEngine_Reachable).
Defined.

(** C6, on ["shook"], listed under [AAVE] and under [EMOTIONAL]. *)
Lemma cross_category_entries_witness :
  In (mkTerm (codes "shook") (codes "shocked") (codes "AAVE"))
     (terms (fst (translate plainUpper engine (codes "I am shook"))))
  /\ In (mkTerm (codes "shook") (codes "shocked") (codes "EMOTIONAL"))
        (terms (fst (translate plainUpper engine (codes "I am shook"))))
  /\ mkTerm (codes "shook") (codes "shocked") (codes "AAVE")
     <> mkTerm (codes "shook") (codes "shocked") (codes "EMOTIONAL").
Proof.
  apply (@cross_category_entries plainUpper plainLower engine (codes "I am shook")
           (codes "shook") (codes "shocked") (codes "shocked")
           (codes "AAVE") (codes "EMOTIONAL")).
  - apply Reachable_new.
  - apply entryIn_In. vm_compute. reflexivity.
  - apply entryIn_In. vm_compute. reflexivity.
  - discriminate.
  - apply (occursBounded_here plainUpper (codes "I am ") (codes "shook") []); reflexivity.
Defined.

(** C8 as stated fails: the empty term is registered, and the result of
    [translate] changes on every input with a word character. *)
Lemma addDynamicTerm_empty_counterexample :
  (forall hl, addDynamicTerm hl engine [] (codes "nothing") (codes "GEN_Z")
              = Some emptyTermEngine)
  /\ dynamicPatterns engine = []
  /\ dynamicPatterns emptyTermEngine
     = [([], compiled ([], codes "nothing", codes "GEN_Z"))]
  /\ (forall hu, terms (fst (translate hu engine (codes "hi"))) = [])
  /\ (forall hu, terms (fst (translate hu emptyTermEngine (codes "hi")))
                 = [mkTerm [] (codes "nothing") (codes "GEN_Z")]).
Proof.
  split; [intros hl; vm_compute; reflexivity|].
  split; [vm_compute; reflexivity|]. split; [reflexivity|].
  split; intros hu; vm_compute; reflexivity.
Qed.

(** C9, on the engine with the dynamic term ["rizz"]. *)
Lemma translate_idempotent_witness :
  snd (translate plainUpper rizzEngine (codes "no cap he has rizz")) = rizzEngine
  /\ fst (translate plainUpper
            (snd (translate plainUpper rizzEngine (codes "no cap he has rizz")))
            (codes "no cap he has rizz"))
     = fst (translate plainUpper rizzEngine (codes "no cap he has rizz")).
Proof.
  exact (@translate_idempotent plainUpper plainLower rizzEngine
           (codes "no cap he has rizz") rizzEngine_Reachable).
Defined.

Lemma static_not_Cap :
  forall s, In s (patterns capitalEngine) -> term s <> codes "Cap".
Proof.
  assert (H : forallb (fun p => negb (str_eqb (term p) (codes "Cap")))
                (patterns capitalEngine) = true) by (vm_compute; reflexivity).
  rewrite forallb_forall in H. intros s Hs Heq.
  specialize (H s Hs). rewrite Heq, str_eqb_refl in H. discriminate H.
Qed.

Lemma collidingEngine_Reachable : Reachable plainUpper plainLower collidingEngine.
Proof.
  apply (@Reachable_load plainUpper plainLower engine collidingEngine
           [(codes "Cap:x", codes "m", codes "y");
            (codes "Cap", codes "falsehood", codes "x:y")]).
  - apply Reachable_new.
  - vm_compute. reflexivity.
Qed.

(** On ["no Cap"] no other pattern that matches has the key ["Cap:x:y"]. *)
Lemma colliding_key_alone (q : CompiledPattern) :
  In q (patterns collidingEngine) \/ In q (map snd (dynamicPatterns collidingEngine)) ->
  matches plainUpper q (codes "no Cap") = true ->
  keyOf q = keyOf (compiled (codes "Cap", codes "falsehood", codes "x:y")) ->
  term q = term (compiled (codes "Cap", codes "falsehood", codes "x:y"))
  /\ category q = category (compiled (codes "Cap", codes "falsehood", codes "x:y")).
Proof.
  assert (H : forallb
                (fun q =>
                   negb (matches plainUpper q (codes "no Cap"))
                   || negb (str_eqb (keyOf q) (codes "Cap:x:y"))
                   || (str_eqb (term q) (codes "Cap")
                       && str_eqb (category q) (codes "x:y")))
                (patterns collidingEngine ++ map snd (dynamicPatterns collidingEngine))
              = true) by (vm_compute; reflexivity).
  rewrite forallb_forall in H. intros Hq Hm Hk.
  specialize (H q (proj2 (in_app_iff _ _ _) Hq)). cbn beta in H.
  change (keyOf (compiled (codes "Cap", codes "falsehood", codes "x:y")))
    with (codes "Cap:x:y") in Hk.
  rewrite Hm, Hk, str_eqb_refl in H. cbn [negb orb] in H.
  apply andb_true_iff in H as [H1 H2].
  apply str_eqb_eq in H1. apply str_eqb_eq in H2. split; assumption.
Qed.

(** C10, on ["Cap"] registered next to the static ["cap"]; and on the
    engine with the two dynamic patterns of the key ["Cap:x:y"], on the
    input ["no Cap"], which only one of the two matches. *)
Lemma dynamic_variant_recorded_witness :
  (exists l1 l2,
      terms (fst (translate plainUpper capitalEngine (codes "no Cap"))) = l1 ++ l2
      /\ In (entryOf (compiled (codes "cap", codes "lie", codes "GEN_Z"))) l1
      /\ In (entryOf (compiled (codes "Cap", codes "falsehood", codes "GEN_Z"))) l2)
  /\ (exists l1 l2,
        terms (fst (translate plainUpper collidingEngine (codes "no Cap"))) = l1 ++ l2
        /\ In (entryOf (compiled (codes "cap", codes "lie", codes "GEN_Z"))) l1
        /\ In (entryOf (compiled (codes "Cap", codes "falsehood", codes "x:y"))) l2).
Proof.
  split.
  - apply (@dynamic_variant_recorded plainUpper plainLower capitalEngine (codes "no Cap")
             (compiled (codes "cap", codes "lie", codes "GEN_Z"))
             (compiled (codes "Cap", codes "falsehood", codes "GEN_Z"))
             (codes "cap")).
    + exact capitalEngine_Reachable.
    + apply (@static_pattern (codes "cap", codes "lie", codes "GEN_Z")).
      apply entryIn_In. vm_compute. reflexivity.
    + left. reflexivity.
    + left. intros q [<-|[]]. reflexivity.
    + reflexivity.
    + intros s' Hs' _. left. apply static_not_Cap. assumption.
    + vm_compute. reflexivity.
    + vm_compute. reflexivity.
  - apply (@dynamic_variant_recorded plainUpper plainLower collidingEngine (codes "no Cap")
             (compiled (codes "cap", codes "lie", codes "GEN_Z"))
             (compiled (codes "Cap", codes "falsehood", codes "x:y"))
             (codes "cap")).
    + exact collidingEngine_Reachable.
    + apply (@static_pattern (codes "cap", codes "lie", codes "GEN_Z")).
      apply entryIn_In. vm_compute. reflexivity.
    + right. left. reflexivity.
    + right. right. exact colliding_key_alone.
    + reflexivity.
    + intros s' Hs' _. left. apply static_not_Cap. exact Hs'.
    + vm_compute. reflexivity.
    + vm_compute. reflexivity.
Defined.

(** C10 as stated fails when two keys collide through a colon: ["Cap"] in
    the category ["x:y"] has the lower-cased term of the static ["cap"] and
    another casing and category, both patterns match ["cap:x"], and yet the
    entry of ["Cap"] is not returned, the key ["Cap:x:y"] being recorded
    already for ["Cap:x"] in the category ["y"]. *)
Lemma dynamic_variant_counterexample :
  (forall hl,
      loadDynamicTerms hl engine
        [(codes "Cap:x", codes "m", codes "y");
         (codes "Cap", codes "falsehood", codes "x:y")] = Some collidingEngine)
  /\ In (compiled (codes "cap", codes "lie", codes "GEN_Z")) (patterns collidingEngine)
  /\ (forall hl, toLowerCase hl (codes "Cap") = toLowerCase hl (codes "cap"))
  /\ (forall hu,
        matches hu (compiled (codes "cap", codes "lie", codes "GEN_Z")) (codes "cap:x") = true
        /\ matches hu (compiled (codes "Cap", codes "falsehood", codes "x:y")) (codes "cap:x")
           = true
        /\ terms (fst (translate hu collidingEngine (codes "cap:x")))
           = [capEntry; mkTerm (codes "Cap:x") (codes "m") (codes "y")]).
Proof.
  split; [intros hl; vm_compute; reflexivity|]. split.
  - apply (@static_pattern (codes "cap", codes "lie", codes "GEN_Z")).
    apply entryIn_In. vm_compute. reflexivity.
  - split; [intros hl; reflexivity|].
    intros hu. repeat split; vm_compute; reflexivity.
Qed.

(** C5, on seven entries and on the input ["no cap"], where the patterns
    of ["no cap"] and of ["cap"] match: two keys, two entries, and the
    confidence [0.7999999999999999]. *)
Lemma confidence_contract_witness :
  confidenceOf 7 = 1%float
  /\ distinctKeys plainUpper engine (codes "no cap") = 2
  /\ length (terms (fst (translate plainUpper engine (codes "no cap")))) = 2
  /\ confidence (fst (translate plainUpper engine (codes "no cap")))
     = 0x1.9999999999999p-1%float.
Proof.
  destruct (confidence_contract plainUpper plainLower) as (_ & _ & _ & _ & Hcap & Hkeys).
  split; [apply (Hcap 7); repeat constructor|].
  assert (Hd : distinctKeys plainUpper engine (codes "no cap") = 2)
    by (vm_compute; reflexivity).
  destruct (Hkeys engine (codes "no cap")) as [Hlen Hconf]; [discriminate|].
  split; [exact Hd|]. split; [rewrite Hlen; exact Hd|].
  rewrite Hconf, Hd. reflexivity.
Defined.

(** C5 as stated fails on the empty input: no term is matched, the formula
    gives [0.7], and the confidence returned is [1], above the confidence
    [0.75] of an input with one match.  It also fails when keys collide: on
    ["cap:x"] three patterns with three different (term, category) pairs
    match the input, two entries are returned, and the confidence is that of
    two matches. *)
Lemma confidence_counterexample :
  (forall hu,
      terms (fst (translate hu engine [])) = []
      /\ confidence (fst (translate hu engine [])) = 1%float)
  /\ confidenceOf 0 = num_0_7
  /\ PrimFloat.eqb 1%float (confidenceOf 0) = false
  /\ (forall hu,
        length (terms (fst (translate hu engine (codes "cap")))) = 1
        /\ PrimFloat.ltb (confidence (fst (translate hu engine (codes "cap"))))
             (confidence (fst (translate hu engine []))) = true)
  /\ (forall hu,
        forallb (fun p => matches hu p (codes "cap:x"))
          (compiled (codes "cap", codes "lie", codes "GEN_Z")
           :: map snd (dynamicPatterns collidingEngine)) = true
        /\ confidence (fst (translate hu collidingEngine (codes "cap:x"))) = confidenceOf 2)
  /\ NoDup (map (fun p => (term p, category p))
              (compiled (codes "cap", codes "lie", codes "GEN_Z")
               :: map snd (dynamicPatterns collidingEngine)))
  /\ PrimFloat.eqb (confidenceOf 2) (confidenceOf 3) = false.
Proof.
  split; [intros hu; split; reflexivity|]. split; [reflexivity|]. split; [reflexivity|].
  split; [intros hu; split; vm_compute; reflexivity|].
  split; [intros hu; split; vm_compute; reflexivity|].
  split; [|reflexivity].
  repeat constructor; cbn; intuition discriminate.
Qed.

(** * The examples of the specification *)

(** No match inside a longer word; a match after an apostrophe. *)
Example boundary_correctness (hu : Z -> JSString) :
  terms (fst (translate hu engine (codes "captioning this"))) = []
  /\ terms (fst (translate hu engine (codes "that's cap"))) = [capEntry].
Proof. split; vm_compute; reflexivity. Qed.

(** Both phrases are reported, with the shorter terms they contain. *)
Example multi_word_phrases (hu : Z -> JSString) :
  map lt_term (terms (fst (translate hu engine (codes "no cap fr fr"))))
  = [codes "no cap"; codes "fr fr"; codes "cap"; codes "fr"].
Proof. vm_compute. reflexivity. Qed.

Example case_insensitive (hu : Z -> JSString) :
  map lt_term (terms (fst (translate hu engine (codes "DEADASS this is FIRE"))))
  = [codes "deadass"; codes "fire"].
Proof. vm_compute. reflexivity. Qed.

(** A term is reported once it is registered, and not before. *)
Example dynamic_registration_visible (hu : Z -> JSString) :
  terms (fst (translate hu engine (codes "he has rizz"))) = []
  /\ terms (fst (translate hu rizzEngine (codes "he has rizz")))
     = [mkTerm (codes "rizz") (codes "charisma") (codes "GEN_Z")].
Proof. split; vm_compute; reflexivity. Qed.

(** Registering a term again replaces the pattern under its lower-cased
    key, in place. *)
Example register_again (hl : JSString -> JSString) :
  addDynamicTerm hl rizzEngine (codes "RIZZ") (codes "charm") (codes "GEN_Z")
  = Some (mkEngine (patterns engine)
            [(codes "rizz", compiled (codes "RIZZ", codes "charm", codes "GEN_Z"))]).
Proof. vm_compute. reflexivity. Qed.

(** A term with two meanings: ["pressed"] is "upset" under [AAVE] and
    "stressed" under [EMOTIONAL]; ["shook"] is "shocked" under both. *)
Example two_meanings (hu : Z -> JSString) :
  terms (fst (translate hu engine (codes "so pressed")))
  = [mkTerm (codes "pressed") (codes "upset") (codes "AAVE");
     mkTerm (codes "pressed") (codes "stressed") (codes "EMOTIONAL")]
  /\ terms (fst (translate hu engine (codes "I am shook")))
     = [mkTerm (codes "shook") (codes "shocked") (codes "AAVE");
        mkTerm (codes "shook") (codes "shocked") (codes "EMOTIONAL")].
Proof. split; vm_compute; reflexivity. Qed.

(** * The further properties on examples *)

(** X1, on an input of spaces and punctuation. *)
Lemma translate_wordless_witness :
  terms (fst (translate plainUpper engine (codes " ?! "))) = []
  /\ confidence (fst (translate plainUpper engine (codes " ?! "))) = num_0_7.
Proof.
  apply (@translate_wordless plainUpper plainLower engine (codes " ?! ")).
  - apply Reachable_new.
  - discriminate.
  - reflexivity.
Defined.

(** X3, on ["Rizz"] registered and then ["rizz"]. *)
Lemma addDynamicTerm_replaces_witness :
  addDynamicTerm plainLower
    (mkEngine (patterns engine)
       [(codes "rizz", compiled (codes "Rizz", codes "charm", codes "AAVE"))])
    (codes "rizz") (codes "charisma") (codes "GEN_Z")
  = addDynamicTerm plainLower engine (codes "rizz") (codes "charisma") (codes "GEN_Z").
Proof.
  apply (@addDynamicTerm_replaces plainLower engine _ (codes "Rizz") (codes "charm")
           (codes "rizz") (codes "charisma") (codes "AAVE") (codes "GEN_Z")).
  - reflexivity.
  - vm_compute. reflexivity.
Defined.

(** X5, on the engine that has learned ["rizz"]. *)
Lemma translate_extends_static_witness :
  exists l2,
    terms (fst (translate plainUpper rizzEngine (codes "no cap he has rizz")))
    = terms (fst (translate plainUpper engine (codes "no cap he has rizz"))) ++ l2
    /\ (forall x, In x l2 ->
          exists p, In p (map snd (dynamicPatterns rizzEngine))
                    /\ matches plainUpper p (codes "no cap he has rizz") = true
                    /\ x = entryOf p)
    /\ PrimFloat.leb
         (confidence (fst (translate plainUpper engine (codes "no cap he has rizz"))))
         (confidence (fst (translate plainUpper rizzEngine (codes "no cap he has rizz"))))
       = true.
Proof.
  exact (@translate_extends_static plainUpper plainLower rizzEngine
           (codes "no cap he has rizz") rizzEngine_Reachable).
Defined.

(** X6, on ["rizz"], which the dictionary does not list, and on ["cap"]
    registered again with the meaning ["falsehood"]. *)
Lemma dynamic_term_reported_witness :
  In (mkTerm (codes "rizz") (codes "charisma") (codes "GEN_Z"))
     (terms (fst (translate plainUpper rizzEngine (codes "he has rizz"))))
  /\ In capEntry (terms (fst (translate plainUpper relearnedEngine (codes "no cap"))))
  /\ ~ In (mkTerm (codes "cap") (codes "falsehood") (codes "GEN_Z"))
          (terms (fst (translate plainUpper relearnedEngine (codes "no cap")))).
Proof.
  assert (Hnew : Reachable plainUpper plainLower engine) by apply Reachable_new.
  split.
  - refine (proj1 (@dynamic_term_reported plainUpper plainLower engine rizzEngine
                     (codes "rizz") (codes "charisma") (codes "GEN_Z")
                     (codes "he has rizz") Hnew _ _ _ _) _).
    + vm_compute. reflexivity.
    + reflexivity.
    + left. intros q [<-|[]]. reflexivity.
    + apply (@occursBounded_here plainUpper (codes "he has ") (codes "rizz") []); reflexivity.
    + intros m' Hdb. apply In_entryIn in Hdb. unfold entryIn in Hdb.
      apply existsb_exists in Hdb as (x & Hx & Hb).
      assert (Hnone : forallb (fun x => negb (str_eqb (fst (fst x)) (codes "rizz")))
                        dbEntries = true) by (vm_compute; reflexivity).
      rewrite forallb_forall in Hnone. specialize (Hnone x Hx). cbn beta in Hnone.
      apply andb_true_iff in Hb as [Hb _]. apply andb_true_iff in Hb as [Hb _].
      apply negb_true_iff in Hnone. exact (eq_true_false_abs _ Hb Hnone).
  - assert (H : In capEntry
                  (terms (fst (translate plainUpper relearnedEngine (codes "no cap"))))
                /\ (codes "lie" <> codes "falsehood" ->
                    ~ In (mkTerm (codes "cap") (codes "falsehood") (codes "GEN_Z"))
                         (terms (fst (translate plainUpper relearnedEngine
                                        (codes "no cap")))))).
    { refine (proj2 (@dynamic_term_reported plainUpper plainLower engine relearnedEngine
                       (codes "cap") (codes "falsehood") (codes "GEN_Z")
                       (codes "no cap") Hnew _ _ _ _) (codes "lie") _).
      - vm_compute. reflexivity.
      - reflexivity.
      - left. intros q [<-|[]]. reflexivity.
      - apply (@occursBounded_here plainUpper (codes "no ") (codes "cap") []); reflexivity.
      - apply entryIn_In. vm_compute. reflexivity. }
    destruct H as [H1 H2]. split; [exact H1|]. apply H2. discriminate.
Defined.

(** X7, on the draws [0.5] and [0.25]. *)
Lemma getRandomTerm_in_dictionary_witness :
  exists x,
    getRandomTerm 0.5 0.25 = Some x
    /\ In (lt_term x, lt_meaning x, lt_category x) dbEntries.
Proof.
  apply (@getRandomTerm_in_dictionary 0.5 0.25); reflexivity.
Defined.

(** X8, on the query ["  No Cap  "], with the storage of the sources. *)
Lemma findSlangTerm_engine_first_witness :
  exists x,
    findSlangTerm plainUpper plainLower (mkWorld srcServices engine tt)
      (codes "  No Cap  ")
    = Some (mkDiscovery true (lt_term x) (Some (lt_meaning x)) (Some (lt_category x))
              (Some source_static) None (Some 100%float),
            mkWorld srcServices engine tt)
    /\ In (lt_term x, lt_meaning x, lt_category x) dbEntries
    /\ occursBoundedAscii (lt_term x) (normalize plainLower (codes "  No Cap  "))
    /\ forall q, In q (patterns engine) ->
         matches plainUpper q (normalize plainLower (codes "  No Cap  ")) = true ->
         length (term q) <= length (lt_term x).
Proof.
  apply (@findSlangTerm_engine_first plainUpper plainLower srcServices
           (mkWorld srcServices engine tt) (codes "  No Cap  ")
           (compiled (codes "cap", codes "lie", codes "GEN_Z"))).
  - apply Reachable_new.
  - apply (@static_pattern (codes "cap", codes "lie", codes "GEN_Z")).
    apply entryIn_In. vm_compute. reflexivity.
  - vm_compute. reflexivity.
Defined.

(** X9, on the query ["Rizz"], with the storage of the sources: before
    ["rizz"] is registered the promise is rejected, afterwards the engine
    answers. *)
Lemma findSlangTerm_learned_term_witness :
  findSlangTerm plainUpper plainLower (mkWorld srcServices engine tt) (codes "Rizz") = None
  /\ findSlangTerm plainUpper plainLower (mkWorld srcServices rizzEngine tt) (codes "Rizz")
     = Some (mkDiscovery true (codes "rizz") (Some (codes "charisma"))
               (Some (codes "GEN_Z")) (Some source_static) None (Some 100%float),
             mkWorld srcServices rizzEngine tt).
Proof.
  split; [vm_compute; reflexivity|].
  apply (@findSlangTerm_learned_term plainUpper plainLower srcServices engine rizzEngine tt
           (codes "Rizz") (codes "rizz") (codes "charisma") (codes "GEN_Z")).
  - apply Reachable_new.
  - vm_compute. reflexivity.
  - vm_compute. reflexivity.
  - reflexivity.
  - apply (@occursBounded_here plainUpper [] (codes "rizz") []); reflexivity.
Defined.

(** X10, on a network that knows ["gyatt"], with brackets and a second line
    in the definition and 110 votes more for than against, and ["dip"],
    without [word], [permalink] and [thumbs_up], and fails on ["cap"]. *)
Lemma lookupUrbanDictionary_result_witness :
  lookupUrbanDictionary exampleNetwork (codes "gyatt")
  = mkLookup true (Some (codes "gyatt")) (Some (codes "an exclamation of surprise"))
      (Some (codes "GEN_Z")) (Some source_urbandictionary)
      (Some (codes "https://www.urbandictionary.com/define.php?term=gyatt"))
      (Some 100%float)
  /\ lookupUrbanDictionary exampleNetwork (codes "dip")
     = mkLookup true None (Some (codes "to leave")) (Some (codes "GEN_Z"))
         (Some source_urbandictionary) None (Some PrimFloat.nan)
  /\ lookupUrbanDictionary exampleNetwork (codes "cap") = lookupNotFound (codes "cap").
Proof.
  split; [exact (proj1 (lookupUrbanDictionary_result exampleNetwork (codes "gyatt")))|].
  split; [exact (proj1 (lookupUrbanDictionary_result exampleNetwork (codes "dip")))|].
  exact (lookupUrbanDictionary_result exampleNetwork (codes "cap")).
Defined.

(** X14, on the entry of ["cap"]. *)
Lemma dictionary_entry_found_witness :
  In capEntry (terms (fst (translate plainUpper rizzEngine (codes "cap"))))
  /\ In capEntry
       (terms (fst (translate plainUpper rizzEngine (map asciiUpper (codes "cap"))))).
Proof.
  apply (@dictionary_entry_found plainUpper plainLower rizzEngine
           (codes "cap") (codes "lie") (codes "GEN_Z")).
  - exact rizzEngine_Reachable.
  - apply entryIn_In. vm_compute. reflexivity.
Defined.

(** X15, on the terms of six code units. *)
Lemma static_order_stable_witness :
  filter (hasLength 6) (patterns rizzEngine)
  = filter (hasLength 6) (map compiled dbEntries).
Proof.
  exact (@static_order_stable plainUpper plainLower rizzEngine 6 rizzEngine_Reachable).
Defined.

(** X16, on the entry of ["cap"]. *)
Lemma getRandomTerm_every_entry_witness :
  exists random1 random2,
    PrimFloat.leb 0 random1 = true /\ PrimFloat.ltb random1 1 = true
    /\ PrimFloat.leb 0 random2 = true /\ PrimFloat.ltb random2 1 = true
    /\ getRandomTerm random1 random2 = Some capEntry.
Proof.
  apply (@getRandomTerm_every_entry (codes "cap") (codes "lie") (codes "GEN_Z")).
  apply entryIn_In. vm_compute. reflexivity.
Defined.
